(** * linux-inspect: the 'top' stream collector and the socket fan-out query

    A shallow embedding of [src/top_stream.go]:

    - [TopStream] with its two goroutines [enqueue] (producer) and [dequeue]
      (consumer), the condition variable [rcond], the one-shot channel
      [readyc], [Latest], and the shutdown routine [close];
    - [GetSS] with its worker goroutines, the wait group and the final
      truncation, and [getSSEntry].

    Goroutines are modelled by their program counters and one transition
    function per goroutine; a step of the system is a step of one of them.
    What is done while holding [rmu] without releasing it is one step. *)

From stdpp Require Import ssreflect base option list gmap strings relations.
From stdpp Require Import pretty sorting.
From Stdlib Require Import Ascii ZArith Lia.

Open Scope Z_scope.

(** ** Go library functions used by the source *)

(** A non-nil Go [error] is represented by its [Error()] message;
    [None] is [nil]. *)
Definition error := string.

(** A Go string, or a slice of bytes, is the [string] of its bytes. *)
Definition byte (c : ascii) : N := N_of_ascii c.

(** Linear-time reversal. *)
Fixpoint reverse_onto (s acc : string) : string :=
  match s with
  | EmptyString => acc
  | String c s' => reverse_onto s' (String c acc)
  end.

Definition reverse (s : string) : string := reverse_onto s EmptyString.

(** The white space of one byte: tab, LF, VT, FF, CR and space. *)
Definition asciiSpace (c : ascii) : bool :=
  match c with
  | "009" | "010" | "011" | "012" | "013" | " " => true
  | _ => false
  end%char.

(** The white space of two bytes in UTF-8: U+0085 and U+00A0. *)
Definition space2 (c d : ascii) : bool :=
  ((byte c =? 194) && ((byte d =? 133) || (byte d =? 160)))%N.

(** The white space of three bytes in UTF-8: U+1680, U+2000 to U+200A,
    U+2028, U+2029, U+202F, U+205F and U+3000. *)
Definition space3 (c d e : ascii) : bool :=
  (((byte c =? 225) && (byte d =? 154) && (byte e =? 128))
   || ((byte c =? 226) && (byte d =? 128)
       && (((128 <=? byte e) && (byte e <=? 138))
           || (byte e =? 168) || (byte e =? 169) || (byte e =? 175)))
   || ((byte c =? 226) && (byte d =? 129) && (byte e =? 159))
   || ((byte c =? 227) && (byte d =? 128) && (byte e =? 128)))%N.

(** [unicode.IsSpace] on the rune that [s] starts with: the number of bytes
    of that rune when it is white space, and 0 otherwise.  The runes that
    [unicode.IsSpace] accepts are those listed above; each has one encoding,
    which begins with a byte that is no continuation byte, so a rune of white
    space is found at a position exactly when its encoding is there, whether
    the bytes before it are valid UTF-8 or not (an invalid byte is the rune
    U+FFFD, of width 1 and no white space). *)
Definition space_width (s : string) : nat :=
  match s with
  | String c s1 =>
      if asciiSpace c then 1%nat
      else match s1 with
           | String d s2 =>
               if space2 c d then 2%nat
               else match s2 with
                    | String e _ => if space3 c d e then 3%nat else 0%nat
                    | EmptyString => 0%nat
                    end
           | EmptyString => 0%nat
           end
  | EmptyString => 0%nat
  end.

(** The same on a reversed string: the rune that the string ends with
    ([utf8.DecodeLastRune]). *)
Definition space_width_rev (s : string) : nat :=
  match s with
  | String e s1 =>
      if asciiSpace e then 1%nat
      else match s1 with
           | String d s2 =>
               if space2 d e then 2%nat
               else match s2 with
                    | String c _ => if space3 c d e then 3%nat else 0%nat
                    | EmptyString => 0%nat
                    end
           | EmptyString => 0%nat
           end
  | EmptyString => 0%nat
  end.

(** The runes of white space removed at the start of [s]; [skip] counts the
    bytes still to drop of the rune being removed. *)
Fixpoint trim_go (width : string → nat) (skip : nat) (s : string) : string :=
  match s with
  | EmptyString => EmptyString
  | String _ s' =>
      match skip with
      | S k => trim_go width k s'
      | O => match width s with
             | O => s
             | S k => trim_go width k s'
             end
      end
  end.

Definition TrimLeft (s : string) : string := trim_go space_width 0 s.

(** [bytes.TrimSpace]: the white space of Unicode removed at both ends. *)
Definition TrimSpace (s : string) : string :=
  reverse (trim_go space_width_rev 0 (reverse (TrimLeft s))).

(** [strings.Fields]: the maximal runs of bytes between runes of white
    space.  [cur] is the field being read, most recent byte first; [skip]
    counts the bytes still to drop of the rune of white space being read. *)
Fixpoint Fields_go (cur : string) (skip : nat) (s : string) : list string :=
  match s with
  | EmptyString =>
      match cur with EmptyString => [] | _ => [reverse cur] end
  | String c s' =>
      match skip with
      | S k => Fields_go cur k s'
      | O =>
          match space_width s with
          | S k =>
              match cur with
              | EmptyString => Fields_go EmptyString k s'
              | _ => reverse cur :: Fields_go EmptyString k s'
              end
          | O => Fields_go (String c cur) 0 s'
          end
      end
  end.

Definition Fields (s : string) : list string := Fields_go EmptyString 0 s.

(** *** [bufio.Reader.ReadLine]

    [enqueue] reads through [bufio.NewReader(str.pt)], whose buffer has 4096
    bytes, and drops the [isPrefix] result of [ReadLine] (line 114): a line
    that does not fit the buffer comes in pieces, each taken for a line. *)
Definition bufferSize : nat := 4096.

Definition LF : ascii := "010"%char.
Definition CR : ascii := "013"%char.

(** [ReadSlice('\n')] on the unread bytes [s] with room for [n] bytes: the
    bytes before the first line feed, the bytes after it, and [true]; or,
    when none of the first [n] bytes is a line feed, these bytes, the bytes
    after them, and [false]. *)
Fixpoint readSlice (n : nat) (s : string) : string * string * bool :=
  match n, s with
  | S n', String c s' =>
      if Ascii.eqb c LF then (EmptyString, s', true)
      else let '(l, rest, found) := readSlice n' s' in (String c l, rest, found)
  | _, _ => (EmptyString, s, false)
  end.

Definition ends_cr (l : string) : bool :=
  match reverse l with
  | String c _ => Ascii.eqb c CR
  | EmptyString => false
  end.

(** [l] without the carriage return it ends with, if any. *)
Definition strip_cr (l : string) : string :=
  match reverse l with
  | String c r => if Ascii.eqb c CR then reverse r else l
  | EmptyString => l
  end.

(** [ReadLine] on the unread bytes [s], after which the underlying reader
    fails: the line returned and the bytes left unread, or [None] when the
    read fails (no byte is left; [ReadLine] then returns the error and no
    data).  A line is returned without its line feed, and without the
    carriage return before the line feed.  When the buffer is full and holds
    no line feed, its 4096 bytes are returned, but for a carriage return at
    its end, which stays unread.  Bytes that no line feed follows are
    returned as they are; the error of the underlying reader is then
    returned by the next call. *)
Definition ReadLine (s : string) : option (string * string) :=
  match s with
  | EmptyString => None
  | _ =>
      let '(line, rest, found) := readSlice bufferSize s in
      if found then Some (strip_cr line, rest)
      else if (String.length line =? bufferSize)%nat && ends_cr line
      then Some (strip_cr line, String CR rest)
      else Some (line, rest)
  end.

(** The bytes still unread after [k] calls of [ReadLine]. *)
Fixpoint unread (input : string) (k : nat) : string :=
  match k with
  | O => input
  | S k' =>
      match ReadLine (unread input k') with
      | Some (_, rest) => rest
      | None => EmptyString
      end
  end.

(** The bytes of [lines], each followed by a line feed. *)
Fixpoint stream_of (lines : list string) : string :=
  match lines with
  | [] => EmptyString
  | l :: lines' => l +:+ String LF (stream_of lines')
  end.

Fixpoint has_lf (l : string) : bool :=
  match l with
  | EmptyString => false
  | String c l' => Ascii.eqb c LF || has_lf l'
  end.

(** A line that [ReadLine] returns whole: it holds no line feed and, with
    its line feed, fits the buffer. *)
Definition fits (l : string) : Prop :=
  has_lf l = false ∧ (String.length l < bufferSize)%nat.

(** [strings.Contains]. *)
Fixpoint Contains (s substr : string) : bool :=
  if String.prefix substr s then true
  else match s with
       | EmptyString => false
       | String _ s' => Contains s' substr
       end.

(** [expectedErr], lines 223-231. *)
Definition expectedErr (err : option error) : bool :=
  match err with
  | None => true
  | Some es =>
      Contains es "signal:"
      || Contains es "/dev/ptmx: input/output error"
      || Contains es "/dev/ptmx: file already closed"
  end.

(** [substr] occurs in [s]. *)
Definition occurs_in (substr s : string) : Prop :=
  ∃ a b, s = a +:+ substr +:+ b.

Lemma append_nil_l (s : string) : EmptyString +:+ s = s.
Proof. reflexivity. Qed.

Lemma append_cons (c : ascii) (p s : string) :
  String c p +:+ s = String c (p +:+ s).
Proof. reflexivity. Qed.

Lemma prefix_app p s : String.prefix p s = true ↔ ∃ b, s = p +:+ b.
Proof.
  revert s. induction p as [|c p IH]; intros s.
  - split; [intros _; by exists s | by destruct s].
  - destruct s as [|d s]; simpl.
    + split; [done | by intros [b ?]].
    + destruct (ascii_dec c d) as [->|Hne].
      * rw IH. split; intros [b Hb]; exists b.
        -- by rw append_cons -Hb.
        -- rw append_cons in Hb. by injection Hb.
      * split; [done|]. intros [b Hb]. rw append_cons in Hb. by injection Hb.
Qed.

Lemma Contains_unfold s substr :
  Contains s substr
  = if String.prefix substr s then true
    else match s with
         | EmptyString => false
         | String _ s' => Contains s' substr
         end.
Proof. by destruct s. Qed.

(** [Contains] decides the occurrence of a substring. *)
Lemma Contains_spec s substr : Contains s substr = true ↔ occurs_in substr s.
Proof.
  induction s as [|c s IH]; rw Contains_unfold.
  - destruct (String.prefix substr EmptyString) eqn:Hp.
    + split; [|done]. intros _. apply prefix_app in Hp as [b Hb].
      exists EmptyString, b. by rw append_nil_l.
    + split; [done|]. intros (a & b & Hab).
      destruct a; [|done]. rw append_nil_l in Hab.
      assert (String.prefix substr EmptyString = true); [|congruence].
      apply prefix_app. by exists b.
  - destruct (String.prefix substr (String c s)) eqn:Hp.
    + split; [|done]. intros _. apply prefix_app in Hp as [b Hb].
      exists EmptyString, b. by rw append_nil_l.
    + rw IH. split.
      * intros (a & b & ->). exists (String c a), b. by rw append_cons.
      * intros (a & b & Hab). destruct a as [|d a].
        -- rw append_nil_l in Hab.
           assert (String.prefix substr (String c s) = true); [|congruence].
           apply prefix_app. by exists b.
        -- rw append_cons in Hab. injection Hab as _ ->. by exists a, b.
Qed.

Lemma Contains_false s substr :
  Contains s substr = false ↔ ¬ occurs_in substr s.
Proof.
  rw -Contains_spec. by destruct (Contains s substr).
Qed.

(** The messages that [expectedErr] accepts. *)
Definition expected_message (es : error) : Prop :=
  occurs_in "signal:" es
  ∨ occurs_in "/dev/ptmx: input/output error" es
  ∨ occurs_in "/dev/ptmx: file already closed" es.

Lemma expectedErr_spec es : expectedErr (Some es) = true ↔ expected_message es.
Proof.
  unfold expectedErr, expected_message.
  rw !orb_true_iff !Contains_spec. tauto.
Qed.

Example TrimSpace_ex : TrimSpace "  1 2.0 1.0 	" = "1 2.0 1.0"%string.
Proof. reflexivity. Qed.

Example Fields_ex : Fields " 1  2.0	1.0 " = ["1"; "2.0"; "1.0"]%string.
Proof. reflexivity. Qed.

Example Contains_ex :
  Contains "wait: signal: killed" "signal:" = true
  ∧ Contains "exit status 1" "signal:" = false
  ∧ Contains "x" "" = true.
Proof. repeat split. Qed.

(** White space of more than one byte: the no-break space U+00A0 (bytes 194
    160), the em space U+2003 (226 128 131) and the ideographic space U+3000
    (227 128 128) separate fields and are trimmed; the dagger U+2020 (226 128
    160) and a lone byte 160 are not white space. *)
Definition nbsp : string := String "194" (String "160" EmptyString).
Definition emsp : string :=
  String "226" (String "128" (String "131" EmptyString)).
Definition idsp : string :=
  String "227" (String "128" (String "128" EmptyString)).
Definition dagger : string :=
  String "226" (String "128" (String "160" EmptyString)).

Example Fields_unicode :
  Fields ("1" +:+ nbsp +:+ "2.0" +:+ emsp +:+ "1.0") = ["1"; "2.0"; "1.0"]%string
  ∧ Fields ("1 2.0 a" +:+ nbsp +:+ "b") = ["1"; "2.0"; "a"; "b"]%string
  ∧ Fields ("a" +:+ dagger +:+ "b") = ["a" +:+ dagger +:+ "b"]
  ∧ Fields (String "160" "a b") = [String "160" "a"; "b"]%string.
Proof. repeat split. Qed.

Example TrimSpace_unicode :
  TrimSpace (nbsp +:+ " 1 2.0" +:+ idsp +:+ String CR EmptyString)
  = "1 2.0"%string
  ∧ TrimSpace (emsp +:+ nbsp) = EmptyString
  ∧ TrimSpace ("a" +:+ dagger) = "a" +:+ dagger
  ∧ TrimSpace ("a" +:+ String "160" " ") = String "a" (String "160" EmptyString).
Proof. repeat split. Qed.

(** A line of two bytes, an empty line and a last line without line feed;
    after them the read fails. *)
Example ReadLine_ex :
  let input := String "a" (String "b" (String CR (String LF
                 (String LF (String "c" EmptyString))))) in
  ReadLine input = Some ("ab"%string, String LF (String "c" EmptyString))
  ∧ ReadLine (unread input 1) = Some (EmptyString, "c"%string)
  ∧ ReadLine (unread input 2) = Some ("c"%string, EmptyString)
  ∧ ReadLine (unread input 3) = None.
Proof. repeat split. Qed.

Lemma readSlice_line n l rest :
  has_lf l = false → (String.length l < n)%nat →
  readSlice n (l +:+ String LF rest) = (l, rest, true).
Proof.
  revert n. induction l as [|c l IH]; intros [|n] Hlf Hlen; simpl in *;
    try lia.
  - done.
  - apply orb_false_iff in Hlf as [Hc Hlf]. rw Hc IH //. lia.
Qed.

(** [ReadLine] returns a line that fits whole, and leaves what follows its
    line feed. *)
Lemma ReadLine_line l rest :
  fits l → ReadLine (l +:+ String LF rest) = Some (strip_cr l, rest).
Proof.
  intros [Hlf Hlen]. unfold ReadLine.
  rw (readSlice_line bufferSize l rest Hlf Hlen).
  by destruct l.
Qed.

Lemma unread_S input k :
  unread input (S k)
  = unread (match ReadLine input with
            | Some (_, rest) => rest
            | None => EmptyString
            end) k.
Proof.
  induction k as [|k IH]; [done|].
  change (unread input (S (S k)))
    with (match ReadLine (unread input (S k)) with
          | Some (_, rest) => rest
          | None => EmptyString
          end).
  by rw IH.
Qed.

Lemma unread_empty k : unread EmptyString k = EmptyString.
Proof. induction k as [|k IH]; [done|]. by rw /= IH. Qed.

(** The reads of a stream of lines that fit: the [k]-th read returns the
    [k]-th line, and the read after the last line fails. *)
Lemma unread_stream_of lines k :
  Forall fits lines → unread (stream_of lines) k = stream_of (drop k lines).
Proof.
  intros Hf. revert k. induction Hf as [|l lines Hl _ IH]; intros k.
  - by rw drop_nil unread_empty.
  - destruct k as [|k]; [done|].
    rw unread_S /stream_of -/stream_of (ReadLine_line _ _ Hl). apply IH.
Qed.

(** ** The stream collector: [TopStream], [enqueue], [dequeue], [Latest] *)

Module Stream.

(** Go maps are references.  A [loc] names a map object of the store. *)
Definition loc := positive.

Section Collector.

(** Declared outside [src/top_stream.go] and taken as parameters: the row
    type with its [PID] field, the banner predicate [topRowToSkip], the row
    parser [parseTopRow] (a row, or the error [rerr]) and
    [len(TopRowHeaders)]. *)
Context {TopCommandRow : Type}.
Variable PID : TopCommandRow → Z.
Variable topRowToSkip : string → bool.
Variable parseTopRow : list string → TopCommandRow + error.
Variable nTopRowHeaders : nat.

(** The fields of [TopStream] that the goroutines share (lines 15-34).
    [cmd] is [true] while [str.cmd != nil]; [pid2TopCommandRow] is the
    reference to the snapshot map; [errc] lists what was sent on the error
    channel; [readyc] counts the executions of [close(str.readyc)]: Go
    panics on the second one. *)
Record TopStream := mkTopStream {
  cmd : bool;
  queue : list TopCommandRow;
  pid2TopCommandRow : loc;
  err : option error;
  errc : list error;
  ready : bool;
  readyc : nat
}.

Definition set_queue (q : list TopCommandRow) (str : TopStream) : TopStream :=
  mkTopStream (cmd str) q (pid2TopCommandRow str) (err str) (errc str)
              (ready str) (readyc str).

Definition set_err (e : option error) (str : TopStream) : TopStream :=
  mkTopStream (cmd str) (queue str) (pid2TopCommandRow str) e (errc str)
              (ready str) (readyc str).

Definition set_cmd (c : bool) (str : TopStream) : TopStream :=
  mkTopStream c (queue str) (pid2TopCommandRow str) (err str) (errc str)
              (ready str) (readyc str).

(** [noError], lines 100-105. *)
Definition noError (str : TopStream) : bool :=
  match err str with None => true | Some _ => false end.

(** The part of one iteration of [enqueue] that runs under [str.rmu.Lock()],
    lines 124-150, for the trimmed [line] and the read error [lerr].  The
    boolean tells whether [str.rcond.Signal()] of line 148 was called. *)
Definition enqueue_locked (line : string) (lerr : option error)
    (str : TopStream) : TopStream * bool :=
  let str := set_err lerr str in
  if decide (line = EmptyString) then (str, false)
  else
    let row := Fields line in
    if decide (length row ≠ nTopRowHeaders) then (str, false)
    else
      match parseTopRow row with
      | inr rerr => (set_err (Some rerr) str, false)
      | inl r =>
          let str := set_queue (queue str ++ [r]) str in
          (str, bool_decide (length (queue str) = 1%nat))
      end.

(** Lines 175-185 on the shared fields: the one-shot readiness flag. *)
Definition mark_ready (str : TopStream) : TopStream :=
  if ready str then str
  else mkTopStream (cmd str) (queue str) (pid2TopCommandRow str) (err str)
                   (errc str) true (S (readyc str)).

(** Lines 187-192: the terminal error is reclassified and, when it is still
    an error, sent on [errc]. *)
Definition dequeue_finish (str : TopStream) : TopStream :=
  let e := if expectedErr (err str) then None else err str in
  mkTopStream (cmd str) (queue str) (pid2TopCommandRow str) e
              (match e with Some x => errc str ++ [x] | None => errc str end)
              (ready str) (readyc str).

(** Where the producer goroutine [enqueue] is: at the loop guard
    [str.noError()], at [reader.ReadLine()], about to take [rmu] with the
    line it read, at the final [Signal], or returned ([wg.Done()] done). *)
Inductive enqueue_pc :=
  | PGuard
  | PRead
  | PLock (line : string) (lerr : option error)
  | PExit
  | PDone.

(** Where the consumer goroutine [dequeue] is: before [str.rmu.Lock()], in
    its loop holding [rmu], suspended in [rcond.Wait()], signalled and
    waiting to take [rmu] again, or returned. *)
Inductive dequeue_pc := CStart | CRun | CWait | CWoken | CDone.

#[global] Instance enqueue_pc_eq_dec : EqDecision enqueue_pc.
Proof. solve_decision. Defined.
#[global] Instance dequeue_pc_eq_dec : EqDecision dequeue_pc.
Proof. solve_decision. Defined.

(** The state of a running collector.  [heap] is the store of map objects;
    [nread] counts the calls of [ReadLine] so far; [handed] lists the maps
    that [Latest] returned to callers.  [nsignal] (calls of [Signal]) and
    [consumed] (the rows taken from the queue, oldest first) are history
    variables: no step reads them. *)
Record Sys := mkSys {
  heap : gmap loc (gmap Z TopCommandRow);
  str : TopStream;
  pp : enqueue_pc;
  cp : dequeue_pc;
  nread : nat;
  nsignal : nat;
  consumed : list TopCommandRow;
  handed : list loc
}.

(** The snapshot: the map object [str.pid2TopCommandRow] refers to. *)
Definition snapshot (s : Sys) : gmap Z TopCommandRow :=
  default ∅ (heap s !! pid2TopCommandRow (str s)).

(** [rcond.Signal()]: wakes the goroutine suspended in [Wait], if any. *)
Definition Signal (s : Sys) : Sys :=
  mkSys (heap s) (str s) (pp s)
        (match cp s with CWait => CWoken | c => c end)
        (nread s) (S (nsignal s)) (consumed s) (handed s).

Definition set_pp (p : enqueue_pc) (s : Sys) : Sys :=
  mkSys (heap s) (str s) p (cp s) (nread s) (nsignal s) (consumed s) (handed s).

Definition set_cp (c : dequeue_pc) (s : Sys) : Sys :=
  mkSys (heap s) (str s) (pp s) c (nread s) (nsignal s) (consumed s) (handed s).

Definition set_str (st : TopStream) (s : Sys) : Sys :=
  mkSys (heap s) st (pp s) (cp s) (nread s) (nsignal s) (consumed s) (handed s).

(** [rmu] is held between steps only by [dequeue] in its loop. *)
Definition rmu_held (s : Sys) : bool := bool_decide (cp s = CRun).

(** What the pseudo-terminal will answer: the [i]-th call of
    [reader.ReadLine()] returns [pty i], the data and the error. *)
Definition Pty := nat → string * option error.

(** The pseudo-terminal delivers the bytes [input], and then fails every
    read with [e]: the [i]-th call of [reader.ReadLine()] returns what
    [ReadLine] finds in the bytes that the calls before it left unread. *)
Definition pty_of (input : string) (e : error) : Pty :=
  λ i, match ReadLine (unread input i) with
       | Some (l, _) => (l, None)
       | None => (EmptyString, Some e)
       end.

(** One step of [enqueue], lines 108-155. *)
Definition enqueue_step (pty : Pty) (s : Sys) : option Sys :=
  match pp s with
  | PGuard =>
      if rmu_held s then None
      else Some (set_pp (if noError (str s) then PRead else PExit) s)
  | PRead =>
      let '(data, lerr) := pty (nread s) in
      let data := TrimSpace data in
      Some (mkSys (heap s) (str s)
                  (if topRowToSkip data then PGuard else PLock data lerr)
                  (cp s) (S (nread s)) (nsignal s) (consumed s) (handed s))
  | PLock line lerr =>
      if rmu_held s then None
      else
        let '(st, sig) := enqueue_locked line lerr (str s) in
        let s := set_pp PGuard (set_str st s) in
        Some (if sig then Signal s else s)
  | PExit => Some (set_pp PDone (Signal s))
  | PDone => None
  end.

(** One step of [dequeue], lines 159-194. *)
Definition dequeue_step (s : Sys) : option Sys :=
  match cp s with
  | CStart | CWoken => Some (set_cp CRun s)
  | CRun =>
      match queue (str s) with
      | [] =>
          match err (str s) with
          | None => Some (set_cp CWait s)
          | Some _ => Some (set_cp CDone (set_str (dequeue_finish (str s)) s))
          end
      | row :: q =>
          Some (mkSys (alter (insert (PID row) row)
                             (pid2TopCommandRow (str s)) (heap s))
                      (mark_ready (set_queue q (str s)))
                      (pp s) CRun (nread s) (nsignal s)
                      (consumed s ++ [row]) (handed s))
      end
  | CWait | CDone => None
  end.

(** The loop of [Latest], lines 92-95, over the entries of the snapshot. *)
Definition copy_map (m : gmap Z TopCommandRow) : gmap Z TopCommandRow :=
  map_fold (λ k v cm, <[k:=v]> cm) ∅ m.

(** [Latest], lines 90-98: under [rmu.RLock()], a new map object gets the
    entries of the snapshot; the result is the reference to it. *)
Definition Latest (s : Sys) : option (Sys * loc) :=
  if rmu_held s then None
  else
    let cm := fresh (dom (heap s)) in
    Some (mkSys (<[cm := copy_map (snapshot s)]> (heap s)) (str s) (pp s)
                (cp s) (nread s) (nsignal s) (consumed s) (cm :: handed s),
          cm).

(** What can happen next: a step of a goroutine, a call of [Latest], or a
    caller writing to, or deleting from, a map that [Latest] gave it. *)
Inductive label :=
  | Enqueue
  | Dequeue
  | CallLatest
  | CallerStore (cm : loc) (k : Z) (v : TopCommandRow)
  | CallerDelete (cm : loc) (k : Z).

Definition caller_update (f : gmap Z TopCommandRow → gmap Z TopCommandRow)
    (cm : loc) (s : Sys) : option Sys :=
  if decide (cm ∈ handed s) then
    Some (mkSys (alter f cm (heap s)) (str s) (pp s) (cp s) (nread s)
                (nsignal s) (consumed s) (handed s))
  else None.

Definition step_fn (pty : Pty) (a : label) (s : Sys) : option Sys :=
  match a with
  | Enqueue => enqueue_step pty s
  | Dequeue => dequeue_step s
  | CallLatest => fst <$> Latest s
  | CallerStore cm k v => caller_update (insert k v) cm s
  | CallerDelete cm k => caller_update (delete k) cm s
  end.

Definition step (pty : Pty) (s s' : Sys) : Prop :=
  ∃ a, step_fn pty a s = Some s'.

(** A schedule run from a state. *)
Fixpoint run (pty : Pty) (sched : list label) (s : Sys) : option Sys :=
  match sched with
  | [] => Some s
  | a :: sched' =>
      match step_fn pty a s with
      | Some s' => run pty sched' s'
      | None => None
      end
  end.

(** The collector as [StartStream] leaves it at line 68, lines 46-68: both
    goroutines started, the queue and the snapshot empty. *)
Definition init : Sys :=
  mkSys {[ 1%positive := ∅ ]}
        (mkTopStream true [] 1%positive None [] false 0)
        PGuard CStart 0 0 [] [].

Definition reachable (pty : Pty) (s : Sys) : Prop := rtc (step pty) init s.

(** [<-str.readyc] at line 70 returns once the channel is closed. *)
Definition StartStream_returned (s : Sys) : bool :=
  bool_decide (0 < readyc (str s))%nat.

(** [close], lines 196-221, called by [Stop] with [kill = true] and by
    [Wait] with [kill = false].  [werr] is what [str.cmd.Wait()] returns at
    line 204.  [str.wg.Wait()] at line 210 returns once [enqueue] has
    returned; until then [close] is blocked ([None]).  The result is the new
    state and the error returned. *)
Definition close (kill : bool) (werr : option error) (s : Sys)
    : option (Sys * option error) :=
  if cmd (str s) then
    if decide (pp s = PDone) then
      let err :=
        match werr with
        | Some es =>
            if negb kill && Contains es "exit status" then None
            else if kill && expectedErr werr then None
            else werr
        | None => None
        end in
      Some (set_str (set_cmd false (str s)) s, err)
    else None
  else Some (s, err (str s)).

Definition Stop : option error → Sys → option (Sys * option error) :=
  close true.

Definition Wait : option error → Sys → option (Sys * option error) :=
  close false.

(** *** What one iteration of [enqueue] does to the shared fields *)

(** The row that lines 127-145 append for the trimmed [line], if any. *)
Definition parsed (line : string) : option TopCommandRow :=
  if decide (line = EmptyString) then None
  else if decide (length (Fields line) ≠ nTopRowHeaders) then None
  else match parseTopRow (Fields line) with
       | inl r => Some r
       | inr _ => None
       end.

(** The value of [str.err] when the lock is released: [lerr] of line 126,
    or [rerr] of line 140. *)
Definition err_after (line : string) (lerr : option error) : option error :=
  if decide (line = EmptyString) then lerr
  else if decide (length (Fields line) ≠ nTopRowHeaders) then lerr
  else match parseTopRow (Fields line) with
       | inl _ => lerr
       | inr rerr => Some rerr
       end.

(** The row that the iteration reading [rd] appends to the queue, if any. *)
Definition row_of (rd : string * option error) : option TopCommandRow :=
  if topRowToSkip (TrimSpace rd.1) then None else parsed (TrimSpace rd.1).

(** The rows appended by the first [k] reads, oldest first. *)
Definition parsed_rows (pty : Pty) (k : nat) : list TopCommandRow :=
  omap (λ i, row_of (pty i)) (seq 0 k).

(** The number of reads whose iteration is over. *)
Definition done_reads (s : Sys) : nat :=
  match pp s with
  | PLock _ _ => pred (nread s)
  | _ => nread s
  end.

(** The iteration reading [rd] leaves [str.err] set. *)
Definition sets_err (rd : string * option error) : Prop :=
  topRowToSkip (TrimSpace rd.1) = false
  ∧ is_Some (err_after (TrimSpace rd.1) rd.2).

(** The map that holds, for each process id, the last row of [rows]. *)
Definition store_all (rows : list TopCommandRow) : gmap Z TopCommandRow :=
  foldl (λ m r, <[PID r := r]> m) ∅ rows.

(** The last row of [rows] for the process [pid]. *)
Definition last_row (pid : Z) (rows : list TopCommandRow) : option TopCommandRow :=
  last (filter (λ r, PID r = pid) rows).

Lemma enqueue_locked_queue line lerr st :
  queue (enqueue_locked line lerr st).1 = queue st ++ option_list (parsed line).
Proof.
  unfold enqueue_locked, parsed.
  repeat case_decide; simpl; rw ?app_nil_r; try done.
  destruct (parseTopRow _); simpl; by rw ?app_nil_r.
Qed.

Lemma enqueue_locked_err line lerr st :
  err (enqueue_locked line lerr st).1 = err_after line lerr.
Proof.
  unfold enqueue_locked, err_after.
  repeat case_decide; simpl; try done.
  by destruct (parseTopRow _).
Qed.

Lemma enqueue_locked_frame line lerr st :
  let st' := (enqueue_locked line lerr st).1 in
  cmd st' = cmd st ∧ pid2TopCommandRow st' = pid2TopCommandRow st
  ∧ errc st' = errc st ∧ ready st' = ready st ∧ readyc st' = readyc st.
Proof.
  unfold enqueue_locked.
  repeat case_decide; simpl; try done.
  by destruct (parseTopRow _).
Qed.

(** [Signal] at line 148 is called exactly when the append made the queue
    non-empty. *)
Lemma enqueue_locked_signal line lerr st :
  (enqueue_locked line lerr st).2 = true ↔ queue st = [] ∧ is_Some (parsed line).
Proof.
  unfold enqueue_locked, parsed.
  repeat case_decide; simpl.
  1,2: split; [done | by intros [_ [? ?]]].
  destruct (parseTopRow _); simpl.
  - rw bool_decide_eq_true length_app /=. split.
    + intros Hl. split; [|by eexists].
      destruct (queue st); [done | simpl in Hl; lia].
    + by intros [-> _].
  - split; [done | by intros [_ [? ?]]].
Qed.

Lemma parsed_rows_S pty k :
  parsed_rows pty (S k) = parsed_rows pty k ++ option_list (row_of (pty k)).
Proof.
  unfold parsed_rows. rw seq_S omap_app /=.
  by destruct (row_of (pty k)).
Qed.

Lemma store_all_snoc rows r :
  store_all (rows ++ [r]) = <[PID r := r]> (store_all rows).
Proof. unfold store_all. by rw foldl_app. Qed.

(** Last write wins: the map built from [rows] holds for each process id its
    last row, and nothing for an id that no row has. *)
Lemma store_all_lookup rows pid :
  store_all rows !! pid = last_row pid rows.
Proof.
  induction rows as [|r rows IH] using rev_ind.
  - done.
  - rw store_all_snoc. unfold last_row in *. rw filter_app.
    destruct (decide (PID r = pid)) as [Heq|Hne].
    + rw filter_cons_True // filter_nil last_snoc -Heq.
      by rw lookup_insert_eq.
    + rw filter_cons_False // filter_nil app_nil_r.
      by rw lookup_insert_ne.
Qed.

Lemma copy_map_id (m : gmap Z TopCommandRow) : copy_map m = m.
Proof.
  unfold copy_map.
  induction m as [|k v m Hk Hfold IH] using map_first_key_ind.
  - by rw map_fold_empty.
  - by rw map_fold_insert_first_key // IH.
Qed.

(** *** The invariant of the collector *)

Record Inv (pty : Pty) (s : Sys) : Prop := mkInv {
  inv_loc : pid2TopCommandRow (str s) = 1%positive;
  inv_alloc : is_Some (heap s !! 1%positive);
  inv_handed : ∀ l, l ∈ handed s → l ≠ 1%positive ∧ is_Some (heap s !! l);
  inv_snapshot : snapshot s = store_all (consumed s);
  inv_ready : ready (str s) = bool_decide (consumed s ≠ []);
  inv_readyc : readyc (str s) = if ready (str s) then 1%nat else 0%nat;
  inv_fifo : consumed s ++ queue (str s) = parsed_rows pty (done_reads s);
  inv_lock : ∀ l e, pp s = PLock l e →
    (0 < nread s)%nat ∧ topRowToSkip l = false
    ∧ ∃ d, pty (pred (nread s)) = (d, e) ∧ l = TrimSpace d;
  inv_noerr : (pp s = PRead ∨ ∃ l e, pp s = PLock l e) → err (str s) = None;
  inv_exit : pp s = PExit ∨ pp s = PDone → is_Some (err (str s)) ∨ cp s = CDone;
  inv_wait : cp s = CWait → pp s ≠ PDone ∧ queue (str s) = [];
  inv_errc : (length (errc (str s)) ≤ 1)%nat ∧ (cp s ≠ CDone → errc (str s) = []);
  inv_seterr : is_Some (err (str s)) ∨ cp s = CDone →
    ∃ i, (i < done_reads s)%nat ∧ sets_err (pty i)
}.

Lemma Inv_init pty : Inv pty init.
Proof.
  split; simpl; try done.
  - intros l Hl. by apply elem_of_nil in Hl.
  - intros [?|?]; done.
  - split; [lia | done].
  - intros [[? ?]|?]; done.
Qed.

Ltac case_held :=
  match goal with
  | |- context [bool_decide (cp ?s = CRun)] =>
      destruct (bool_decide_reflect (cp s = CRun)) as [Hcp|Hcp]
  end.

Lemma Inv_enqueue pty s s' :
  Inv pty s → enqueue_step pty s = Some s' → Inv pty s'.
Proof.
  intros [Hloc Hal Hha Hsn Hrd Hrc Hfi Hlk Hne Hex Hwa Hec Hse].
  unfold enqueue_step, rmu_held. destruct (pp s) eqn:Hpp.
  - (* the guard *)
    case_held; [done|]. intros [= <-].
    split; simpl; try done.
    + rw Hfi /done_reads /= Hpp. by destruct (noError _).
    + intros l e. by destruct (noError _).
    + unfold noError. destruct (err (str s)); [|done].
      intros [?|(?&?&?)]; done.
    + unfold noError. destruct (err (str s)); [by left; eexists|].
      intros [?|?]; done.
    + intros Hc. split; [by destruct (noError _) | by apply Hwa].
    + intros Hs. destruct (Hse Hs) as (i & Hi & Hsi). exists i. split; [|done].
      rw /done_reads /=. rw /done_reads Hpp in Hi. by destruct (noError _).
  - (* ReadLine *)
    destruct (pty (nread s)) as [data lerr] eqn:Hrd'. intros [= <-].
    split; simpl; try done.
    + rw /done_reads /=. destruct (topRowToSkip (TrimSpace data)) eqn:Hsk.
      * rw parsed_rows_S /row_of Hrd' /= Hsk app_nil_r Hfi /done_reads Hpp //.
      * rw Hfi /done_reads Hpp //.
    + intros l e. destruct (topRowToSkip (TrimSpace data)) eqn:Hsk; [done|].
      intros [= <- <-]. split; [lia|]. split; [done|]. by exists data.
    + intros _. apply Hne. by left.
    + destruct (topRowToSkip _); intros [?|?]; done.
    + intros Hc. split; [by destruct (topRowToSkip _) | by apply Hwa].
    + intros Hs. destruct (Hse Hs) as (i & Hi & Hsi). exists i. split; [|done].
      rw /done_reads /=. rw /done_reads Hpp in Hi.
      destruct (topRowToSkip _); simpl; lia.
  - (* the locked part *)
    case_held; [done|].
    destruct (enqueue_locked line lerr (str s)) as [st sig] eqn:Hel.
    intros [= <-].
    pose proof (enqueue_locked_queue line lerr (str s)) as Hq.
    pose proof (enqueue_locked_frame line lerr (str s)) as (Hf1&Hf2&Hf3&Hf4&Hf5).
    pose proof (enqueue_locked_signal line lerr (str s)) as Hsig.
    rw Hel /= in Hq, Hf1, Hf2, Hf3, Hf4, Hf5, Hsig.
    destruct (Hlk _ _ eq_refl) as (Hn & Hsk & d & Hd & ->).
    assert (Hfifo : consumed s ++ queue st = parsed_rows pty (nread s)).
    { rw Hq app_assoc Hfi /done_reads Hpp.
      destruct (nread s) as [|n]; [lia|]. simpl in *.
      rw parsed_rows_S /row_of Hd /= Hsk //. }
    assert (Hserr : is_Some (err st) ∨ cp s = CDone →
              ∃ i, (i < nread s)%nat ∧ sets_err (pty i)).
    { pose proof (enqueue_locked_err (TrimSpace d) lerr (str s)) as He.
      rw Hel /= in He. intros [Hs|Hc].
      - exists (pred (nread s)). split; [lia|].
        rw /sets_err Hd /= -He //.
      - destruct (Hse (or_intror Hc)) as (i & Hi & Hsi). exists i.
        split; [|done]. rw /done_reads Hpp in Hi. lia. }
    destruct sig; split; simpl; rw /snapshot /= ?Hf1 ?Hf2 ?Hf3 ?Hf4 ?Hf5;
      try done; try congruence.
    all: try (intros [?|(?&?&?)]; done).
    all: try (intros [?|?]; done).
    + by destruct (cp s).
    + destruct Hec as [? Hec]. split; [done|].
      intros Hc. apply Hec. by destruct (cp s).
    + intros [Hs|Hc]; apply Hserr; [by left|]. right. by destruct (cp s).
    + intros Hc. destruct (Hwa Hc) as [? Hqe]. split; [done|].
      rw Hq Hqe /=. destruct (parsed (TrimSpace d)) eqn:Hp; [|done].
      assert (false = true); [|done].
      apply Hsig. split; [done | by eexists].
  - (* the last Signal *)
    intros [= <-]. split; simpl; try done.
    + by rw Hfi /done_reads Hpp.
    + intros [?|(?&?&?)]; done.
    + intros _. destruct (Hex (or_introl eq_refl)) as [?|Hc]; [by left|].
      right. by rw Hc.
    + by destruct (cp s).
    + destruct Hec as [? Hec]. split; [done|]. intros Hc. apply Hec.
      by destruct (cp s).
    + intros Hs. rw /done_reads /=. rw /done_reads Hpp in Hse. apply Hse.
      destruct Hs as [?|Hc]; [by left|]. right. by destruct (cp s).
  - done.
Qed.

Lemma Inv_dequeue pty s s' :
  Inv pty s → dequeue_step s = Some s' → Inv pty s'.
Proof.
  intros [Hloc Hal Hha Hsn Hrd Hrc Hfi Hlk Hne Hex Hwa Hec Hse].
  unfold dequeue_step. destruct (cp s) eqn:Hcp; try done.
  - (* rmu.Lock() *)
    intros [= <-]. split; simpl; try done.
    + intros Hp. destruct (Hex Hp) as [?|?]; [by left | done].
    + destruct Hec as [? Hec]. split; [done|]. intros _. by apply Hec.
    + intros [Hs|?]; [|done]. apply Hse. by left.
  - destruct (queue (str s)) as [|row q] eqn:Hq.
    + destruct (err (str s)) as [e|] eqn:He.
      * (* break: the queue is empty and the error is set *)
        intros [= <-]. split; simpl; try done.
        -- by rw Hq.
        -- intros Hp. by specialize (Hne Hp).
        -- by right.
        -- destruct Hec as [_ Hec]. rw Hec // He.
           destruct (expectedErr (Some e)); simpl; split; done || lia.
        -- intros _. apply Hse. by left.
      * (* rcond.Wait() *)
        intros [= <-]. split; simpl; try done.
        -- by rw Hq.
        -- intros Hp. destruct (Hex Hp) as [[? ?]|?]; done.
        -- intros _. split; [|done]. intros Hp.
           destruct (Hex (or_intror Hp)) as [[? ?]|?]; done.
        -- destruct Hec as [? Hec]. split; [done|]. intros _. by apply Hec.
        -- rw He. intros [[? ?]|?]; done.
    + (* a row is taken from the queue and stored *)
      intros [= <-].
      assert (Hm : mark_ready (set_queue q (str s))
                   = mkTopStream (cmd (str s)) q 1%positive (err (str s))
                                 (errc (str s)) true 1).
      { unfold mark_ready, set_queue. simpl.
        destruct (ready (str s)) eqn:Hr; rw ?Hr ?Hrc ?Hloc //. }
      rw Hm. split; simpl; try done.
      * rw Hloc lookup_alter_eq. by apply fmap_is_Some.
      * intros l Hl. destruct (Hha l Hl) as [Hne1 Hsl]. split; [done|].
        by rw Hloc lookup_alter_ne.
      * rw /snapshot /= Hloc lookup_alter_eq store_all_snoc -Hsn /snapshot Hloc.
        destruct Hal as [m Hm1]. by rw Hm1.
      * symmetry. apply bool_decide_eq_true. by destruct (consumed s).
      * rw -app_assoc /= Hfi /done_reads /=. done.
  - (* woken: rmu is taken again *)
    intros [= <-]. split; simpl; try done.
    + intros Hp. destruct (Hex Hp) as [?|?]; [by left | done].
    + destruct Hec as [? Hec]. split; [done|]. intros _. by apply Hec.
    + intros [Hs|?]; [|done]. apply Hse. by left.
Qed.

Lemma Inv_Latest pty s s' cm :
  Inv pty s → Latest s = Some (s', cm) → Inv pty s'.
Proof.
  intros [Hloc Hal Hha Hsn Hrd Hrc Hfi Hlk Hne Hex Hwa Hec Hse].
  unfold Latest, rmu_held. case_held; [done|]. intros [= <- <-].
  pose proof (is_fresh (dom (heap s))) as Hfresh.
  assert (Hne1 : fresh (dom (heap s)) ≠ 1%positive).
  { intros Heq. apply Hfresh. rw Heq. by apply elem_of_dom. }
  split; simpl; try done.
  - by rw lookup_insert_ne.
  - intros l [->|Hl]%elem_of_cons.
    + split; [done|]. by rw lookup_insert_eq.
    + destruct (Hha l Hl) as [? ?]. split; [done|].
      destruct (decide (fresh (dom (heap s)) = l)) as [<-|?].
      * by rw lookup_insert_eq.
      * by rw lookup_insert_ne.
  - rw /snapshot /= Hloc lookup_insert_ne // -Hsn /snapshot Hloc //.
Qed.

Lemma Inv_caller pty f cm s s' :
  Inv pty s → caller_update f cm s = Some s' → Inv pty s'.
Proof.
  intros [Hloc Hal Hha Hsn Hrd Hrc Hfi Hlk Hne Hex Hwa Hec Hse].
  unfold caller_update. case_decide as Hcm; [|done]. intros [= <-].
  destruct (Hha cm Hcm) as [Hne1 _].
  split; simpl; try done.
  - by rw lookup_alter_ne.
  - intros l Hl. destruct (Hha l Hl) as [? [m Hm]]. split; [done|].
    destruct (decide (cm = l)) as [->|?].
    + rw lookup_alter_eq Hm. by eexists.
    + by rw lookup_alter_ne.
  - rw /snapshot /= Hloc lookup_alter_ne // -Hsn /snapshot Hloc //.
Qed.

Lemma Inv_step pty s s' : Inv pty s → step pty s s' → Inv pty s'.
Proof.
  intros HI [a Ha]. destruct a; simpl in Ha.
  - by eapply Inv_enqueue.
  - by eapply Inv_dequeue.
  - destruct (Latest s) as [[s1 cm]|] eqn:HL; [|done].
    simpl in Ha. injection Ha as <-. by eapply Inv_Latest.
  - by eapply Inv_caller.
  - by eapply Inv_caller.
Qed.

Lemma Inv_steps pty s s' : Inv pty s → rtc (step pty) s s' → Inv pty s'.
Proof. intros HI Hs. induction Hs; eauto using Inv_step. Qed.

Lemma Inv_reachable pty s : reachable pty s → Inv pty s.
Proof. apply Inv_steps, Inv_init. Qed.

(** *** Steps and the history of consumed rows *)

Lemma run_steps pty sched s s' :
  run pty sched s = Some s' → rtc (step pty) s s'.
Proof.
  revert s. induction sched as [|a sched IH]; intros s; simpl.
  - intros [= <-]. apply rtc_refl.
  - destruct (step_fn pty a s) as [s1|] eqn:Ha; [|done].
    intros Hr. eapply rtc_l; [by exists a | by apply IH].
Qed.

Lemma run_reachable pty sched s : run pty sched init = Some s → reachable pty s.
Proof. apply run_steps. Qed.

(** Only the storing step of [dequeue] (lines 172-175) extends the history,
    and it stores the row it took into the snapshot. *)
Lemma step_consumed pty s s' :
  Inv pty s → step pty s s' →
  consumed s' = consumed s
  ∨ ∃ row q, dequeue_step s = Some s' ∧ cp s = CRun
      ∧ queue (str s) = row :: q ∧ queue (str s') = q
      ∧ consumed s' = consumed s ++ [row]
      ∧ snapshot s' = <[PID row := row]> (snapshot s).
Proof.
  intros HI [a Ha]. destruct a; simpl in Ha.
  - left. revert Ha. unfold enqueue_step.
    destruct (pp s); try done.
    + destruct (rmu_held s); [done|]. by intros [= <-].
    + destruct (pty (nread s)). by intros [= <-].
    + destruct (rmu_held s); [done|].
      destruct (enqueue_locked _ _ _) as [st [|]]; by intros [= <-].
    + by intros [= <-].
  - pose proof Ha as Ha'. revert Ha. unfold dequeue_step.
    destruct (cp s) eqn:Hcp; try done.
    + intros [= <-]. by left.
    + destruct (queue (str s)) as [|row q] eqn:Hq.
      * destruct (err (str s)); intros [= <-]; by left.
      * intros [= <-]. right. exists row, q. simpl.
        repeat split; try done.
        -- unfold mark_ready. by destruct (ready _).
        -- destruct HI as [Hloc [m Hm] _ _ _ _ _ _ _ _ _ _ _].
           rw /snapshot /=. assert (Hl : pid2TopCommandRow
             (mark_ready (set_queue q (str s))) = 1%positive).
           { unfold mark_ready. by destruct (ready _). }
           rw Hl Hloc lookup_alter_eq Hm //.
    + intros [= <-]. by left.
  - left. revert Ha. unfold Latest. destruct (rmu_held s); [done|].
    by intros [= <-].
  - left. revert Ha. unfold caller_update. case_decide; [|done].
    by intros [= <-].
  - left. revert Ha. unfold caller_update. case_decide; [|done].
    by intros [= <-].
Qed.

Lemma steps_consumed pty s s' :
  Inv pty s → rtc (step pty) s s' → ∃ rows, consumed s' = consumed s ++ rows.
Proof.
  intros HI Hs. induction Hs as [s|s s1 s2 H1 _ IH].
  - exists []. by rw app_nil_r.
  - destruct (IH (Inv_step _ _ _ HI H1)) as [rows Hrows].
    destruct (step_consumed _ _ _ HI H1) as [Hc|(row&q&_&_&_&_&Hc&_)].
    + exists rows. by rw Hrows Hc.
    + exists (row :: rows). by rw Hrows Hc -app_assoc.
Qed.

(** C2: the readiness gate.  In every state that the collector reaches,
    [readyc] has been closed once if a row has been consumed and never
    otherwise, and the flag [ready] says which; the only step that closes it
    is the step of [dequeue] that stores the first row into the snapshot;
    once [ready] is set it stays set, and no later step closes [readyc]
    again. *)
Theorem readiness_gate_fires_once pty s :
  reachable pty s →
  readyc (str s) = (if decide (consumed s = []) then 0 else 1)%nat
  ∧ ready (str s) = bool_decide (consumed s ≠ [])
  ∧ (∀ s', step pty s s' → readyc (str s') ≠ readyc (str s) →
       ∃ row, dequeue_step s = Some s' ∧ head (queue (str s)) = Some row
         ∧ consumed s = [] ∧ consumed s' = [row]
         ∧ snapshot s' = {[ PID row := row ]}
         ∧ readyc (str s') = 1%nat)
  ∧ (∀ s', rtc (step pty) s s' → ready (str s) = true →
       ready (str s') = true ∧ readyc (str s') = 1%nat).
Proof.
  intros Hr. pose proof (Inv_reachable _ _ Hr) as HI.
  assert (Hrc : ∀ s0, Inv pty s0 →
            readyc (str s0) = (if decide (consumed s0 = []) then 0 else 1)%nat).
  { intros s0 H0. rw (inv_readyc _ _ H0) (inv_ready _ _ H0).
    by destruct (consumed s0). }
  split; [by apply Hrc|]. split; [by apply (inv_ready pty)|]. split.
  - intros s' Hst Hne. pose proof (Inv_step _ _ _ HI Hst) as HI'.
    rw (Hrc _ HI) (Hrc _ HI') in Hne.
    destruct (step_consumed _ _ _ HI Hst) as [Hc|(row&q&Hd&_&Hq&_&Hc&Hsn)].
    { rw Hc in Hne. done. }
    exists row. rw Hc in Hne. rw (Hrc _ HI') Hc Hq.
    destruct (consumed s) as [|r0 rs] eqn:Hcs.
    + repeat split; try done.
      rw Hsn (inv_snapshot _ _ HI) Hcs insert_empty //.
    + by destruct rs.
  - intros s' Hst Hrd. pose proof (Inv_steps _ _ _ HI Hst) as HI'.
    destruct (steps_consumed _ _ _ HI Hst) as [rows Hrows].
    rw (inv_ready _ _ HI) in Hrd. apply bool_decide_eq_true in Hrd.
    assert (Hc : consumed s' ≠ []).
    { rw Hrows. by destruct (consumed s). }
    rw (inv_readyc _ _ HI') (inv_ready _ _ HI').
    by rw bool_decide_eq_true_2.
Qed.

(** *** A stream that fails before its first row *)

(** No row was consumed, and none will be: [dequeue] has returned, or the
    queue is empty with the terminal error set and [enqueue] past its last
    iteration. *)
Definition doomed (s : Sys) : Prop :=
  consumed s = []
  ∧ (cp s = CDone
     ∨ (queue (str s) = [] ∧ is_Some (err (str s))
        ∧ (pp s = PGuard ∨ pp s = PExit ∨ pp s = PDone))).

Lemma doomed_step pty s s' : doomed s → step pty s s' → doomed s'.
Proof.
  intros [Hc Hd] [a Ha]. destruct a; simpl in Ha.
  - revert Ha. unfold enqueue_step. destruct (pp s) eqn:Hpp.
    + destruct (rmu_held s); [done|]. intros [= <-]. split; [done|]. simpl.
      destruct Hd as [?|(?&[e He]&_)]; [by left|right].
      rw /noError He. eauto.
    + destruct (pty (nread s)). intros [= <-]. split; [done|]. simpl.
      destruct Hd as [?|(_&_&[?|[?|?]])]; [by left|done..].
    + destruct (rmu_held s); [done|].
      destruct (enqueue_locked _ _ _) as [st sig]. intros [= <-].
      destruct Hd as [Hd|(_&_&[?|[?|?]])]; try done.
      destruct sig; (split; [done|]); simpl; left; by rw ?Hd.
    + intros [= <-]. split; [done|]. simpl.
      destruct Hd as [Hd|(?&?&_)]; [left; by rw Hd | right; eauto].
    + done.
  - revert Ha. unfold dequeue_step. destruct (cp s) eqn:Hcp; try done.
    + intros [= <-]. split; [done|]. simpl.
      destruct Hd as [?|?]; [done | by right].
    + destruct Hd as [?|(Hq&[e He]&Hp)]; [done|]. rw Hq He.
      intros [= <-]. split; [done | by left].
    + intros [= <-]. split; [done|]. simpl.
      destruct Hd as [?|?]; [done | by right].
  - revert Ha. unfold Latest. destruct (rmu_held s); [done|].
    by intros [= <-].
  - revert Ha. unfold caller_update. case_decide; [|done]. by intros [= <-].
  - revert Ha. unfold caller_update. case_decide; [|done]. by intros [= <-].
Qed.

Lemma doomed_steps pty s s' : doomed s → rtc (step pty) s s' → doomed s'.
Proof. intros Hd Hs. induction Hs; eauto using doomed_step. Qed.

(** From such a state [dequeue] can run to its end. *)
Lemma doomed_dequeue_returns pty s :
  Inv pty s → doomed s → ∃ s', rtc (step pty) s s' ∧ cp s' = CDone.
Proof.
  intros HI [Hc [Hd|(Hq&[e He]&Hp)]]; [by exists s|].
  assert (Hrun : ∀ s0, cp s0 = CRun → queue (str s0) = [] →
            is_Some (err (str s0)) → ∃ s', rtc (step pty) s0 s' ∧ cp s' = CDone).
  { intros s0 H1 H2 [e0 H3]. eexists. split; [|shelve].
    apply rtc_once. exists Dequeue. rw /= /dequeue_step H1 H2 H3 //.
    Unshelve. done. }
  assert (Hlock : ∀ s0, cp s0 = CStart ∨ cp s0 = CWoken → queue (str s0) = [] →
            is_Some (err (str s0)) → ∃ s', rtc (step pty) s0 s' ∧ cp s' = CDone).
  { intros s0 H1 H2 H3.
    destruct (Hrun (set_cp CRun s0)) as (s' & Hs' & Hd'); try done.
    exists s'. split; [|done]. eapply rtc_l; [|done].
    exists Dequeue. rw /= /dequeue_step. by destruct H1 as [-> | ->]. }
  destruct (cp s) eqn:Hcp.
  - apply Hlock; eauto.
  - apply Hrun; eauto.
  - (* suspended in Wait: the last Signal of [enqueue] wakes it *)
    assert (Hexit : ∀ s0, cp s0 = CWait → pp s0 = PExit → queue (str s0) = [] →
              is_Some (err (str s0)) → ∃ s', rtc (step pty) s0 s' ∧ cp s' = CDone).
    { intros s0 H1 H2 H3 H4.
      destruct (Hlock (set_pp PDone (Signal s0))) as (s' & Hs' & Hd');
        rw /= ?H1; eauto.
      exists s'. split; [|done]. eapply rtc_l; [|done].
      exists Enqueue. rw /= /enqueue_step H2 //. }
    destruct Hp as [Hp|[Hp|Hp]].
    + destruct (Hexit (set_pp PExit s)) as (s' & Hs' & Hd'); try done.
      exists s'. split; [|done]. eapply rtc_l; [|done].
      exists Enqueue. rw /= /enqueue_step Hp /rmu_held Hcp /= /noError He //.
    + by apply Hexit.
    + by destruct (inv_wait _ _ HI Hcp).
  - apply Hlock; eauto.
  - by exists s.
Qed.

(** C10: [readyc] is closed only by the step of [dequeue] that stores a row
    into the snapshot.  When the terminal error is set while no row has been
    enqueued (the queue is empty and nothing was consumed: an immediate read
    or parse failure), [dequeue] can only leave its loop without closing
    [readyc], and it can indeed leave it; in every later state [readyc] is
    still open, so [StartStream] is still blocked at line 70. *)
Theorem no_row_no_readiness pty s :
  reachable pty s →
  (∀ s', step pty s s' → readyc (str s') ≠ readyc (str s) →
     ∃ row q, dequeue_step s = Some s' ∧ cp s = CRun
       ∧ queue (str s) = row :: q
       ∧ snapshot s' = <[PID row := row]> (snapshot s))
  ∧ (is_Some (err (str s)) → queue (str s) = [] → consumed s = [] →
     (∀ s', rtc (step pty) s s' →
        consumed s' = [] ∧ readyc (str s') = 0%nat
        ∧ StartStream_returned s' = false)
     ∧ ∃ s', rtc (step pty) s s' ∧ cp s' = CDone ∧ readyc (str s') = 0%nat).
Proof.
  intros Hr. pose proof (Inv_reachable _ _ Hr) as HI.
  assert (Hrc : ∀ s0, Inv pty s0 → consumed s0 = [] → readyc (str s0) = 0%nat).
  { intros s0 H0 H1.
    by rw (inv_readyc _ _ H0) (inv_ready _ _ H0) H1. }
  split.
  - intros s' Hst Hne.
    destruct (step_consumed _ _ _ HI Hst) as [Hc|(row&q&Hd&Hcp&Hq&_&Hc&Hsn)].
    + exfalso. apply Hne. pose proof (Inv_step _ _ _ HI Hst) as HI'.
      by rw (inv_readyc _ _ HI') (inv_ready _ _ HI') Hc
            (inv_readyc _ _ HI) (inv_ready _ _ HI).
    + by exists row, q.
  - intros He Hq Hc.
    assert (Hd : doomed s).
    { split; [done|]. right. split; [done|]. split; [done|].
      destruct (pp s) eqn:Hpp; eauto.
      - assert (Hn : err (str s) = None) by (apply (inv_noerr pty); eauto).
        rw Hn in He. by destruct He.
      - assert (Hn : err (str s) = None) by (apply (inv_noerr pty); eauto).
        rw Hn in He. by destruct He. }
    split.
    + intros s' Hst. destruct (doomed_steps _ _ _ Hd Hst) as [Hc' _].
      pose proof (Hrc _ (Inv_steps _ _ _ HI Hst) Hc') as H0.
      rw /StartStream_returned H0. done.
    + destruct (doomed_dequeue_returns _ _ HI Hd) as (s' & Hst & Hcp).
      exists s'. repeat split; try done.
      destruct (doomed_steps _ _ _ Hd Hst) as [Hc' _].
      by apply Hrc; [eapply Inv_steps|].
Qed.

(** *** Lines that [enqueue] drops, and read errors *)

(** A trimmed line that [enqueue] drops: a banner line (line 118), a blank
    line (line 127) or a line whose number of fields is not that of the
    header (line 133). *)
Definition ignorable (line : string) : Prop :=
  topRowToSkip line = true ∨ line = EmptyString
  ∨ length (Fields line) ≠ nTopRowHeaders.

Lemma set_err_same st : set_err (err st) st = st.
Proof. by destruct st. Qed.

(** What [enqueue] does with data that it drops, read without error. *)
Lemma ignored_read_has_no_effect pty s s' :
  reachable pty s → enqueue_step pty s = Some s' →
  (pp s = PRead
   ∧ ∃ data, pty (nread s) = (data, None) ∧ ignorable (TrimSpace data))
  ∨ (∃ line, pp s = PLock line None ∧ ignorable line) →
  str s' = str s ∧ heap s' = heap s ∧ snapshot s' = snapshot s
  ∧ cp s' = cp s ∧ consumed s' = consumed s ∧ nsignal s' = nsignal s
  ∧ err (str s') = None
  ∧ (pp s' = PGuard ∨ ∃ line, pp s' = PLock line None ∧ ignorable line).
Proof.
  intros Hr Hst Hcase. pose proof (Inv_reachable _ _ Hr) as HI.
  assert (He : err (str s) = None).
  { apply (inv_noerr pty); [done|].
    destruct Hcase as [[? _]|(line & ? & _)]; eauto. }
  revert Hst. unfold enqueue_step.
  destruct Hcase as [(Hpp & data & Hd & Hig)|(line & Hpp & Hig)]; rw Hpp.
  - rw Hd. intros [= <-]. simpl. repeat split; try done.
    destruct (topRowToSkip (TrimSpace data)) eqn:Hsk; [by left|].
    right. by exists (TrimSpace data).
  - destruct (rmu_held s); [done|].
    destruct (inv_lock _ _ HI _ _ Hpp) as (_ & Hsk & _).
    assert (Hel : enqueue_locked line None (str s) = (str s, false)).
    { unfold enqueue_locked. rw -He set_err_same.
      destruct Hig as [Hig|[Hig|Hig]]; [congruence|..].
      - by rw decide_True.
      - case_decide; [done|]. by rw decide_True. }
    rw Hel. intros [= <-]. simpl. repeat split; try done. by left.
Qed.

(** C6, with what the reader adds: an input line that [ReadLine] returns
    whole (it is shorter than the buffer of 4096 bytes) and that is blank, a
    banner or of the wrong arity has no effect.  [k] calls of [ReadLine] have
    left the line at the head of the unread input; the two steps of the
    iteration of [enqueue] that handles it (the read, and the locked part
    when the line is no banner) change neither the shared fields (queue,
    terminal error, readiness flag and channel), nor the store of maps (so
    the snapshot), nor the consumer, nor the signal count; the terminal error
    is still unset afterwards; and the iteration ends at the loop guard. *)
Theorem ignored_line_has_no_effect input e k line rest s s' :
  fits line → unread input k = line +:+ String LF rest →
  ignorable (TrimSpace (strip_cr line)) →
  reachable (pty_of input e) s → enqueue_step (pty_of input e) s = Some s' →
  (pp s = PRead ∧ nread s = k) ∨ (nread s = S k ∧ ∃ l lerr, pp s = PLock l lerr) →
  str s' = str s ∧ heap s' = heap s ∧ snapshot s' = snapshot s
  ∧ cp s' = cp s ∧ consumed s' = consumed s ∧ nsignal s' = nsignal s
  ∧ err (str s') = None
  ∧ (pp s' = PGuard
     ∨ (pp s' = PLock (TrimSpace (strip_cr line)) None ∧ nread s' = S k
        ∧ topRowToSkip (TrimSpace (strip_cr line)) = false)).
Proof.
  intros Hfit Hun Hig Hr Hst Hcase.
  pose proof (Inv_reachable _ _ Hr) as HI.
  assert (Hk : pty_of input e k = (strip_cr line, None)).
  { by rw /pty_of Hun ReadLine_line. }
  destruct Hcase as [[Hpp Hn]|(Hn & l & lerr & Hpp)].
  - destruct (ignored_read_has_no_effect _ s s' Hr Hst)
      as (H1 & H2 & H3 & H4 & H5 & H6 & H7 & _).
    { left. split; [done|]. exists (strip_cr line). by rw Hn. }
    do 7 (split; [done|]).
    revert Hst. rw /enqueue_step Hpp Hn Hk. intros [= <-]. simpl.
    destruct (topRowToSkip _) eqn:Hsk; [by left | by right].
  - destruct (inv_lock _ _ HI _ _ Hpp) as (_ & _ & d & Hd & ->).
    rw Hn /= Hk in Hd. injection Hd as <- <-.
    destruct (ignored_read_has_no_effect _ s s' Hr Hst)
      as (H1 & H2 & H3 & H4 & H5 & H6 & H7 & _).
    { right. by exists (TrimSpace (strip_cr line)). }
    do 7 (split; [done|]). left.
    revert Hst. rw /enqueue_step Hpp. destruct (rmu_held s); [done|].
    destruct (enqueue_locked _ _ _) as [st sig]. intros [= <-].
    by destruct sig.
Qed.


(** *** Shutdown *)

(** C4: when the wait on the subprocess returns the error [es], [Wait]
    returns nil if [es] contains "exit status", [Stop] returns nil if [es]
    is an expected error (it contains "signal:" or one of the two messages
    of the closed pseudo-terminal), and in every other case the error is
    returned as it is. *)
Theorem close_squashes_expected_errors (s : Sys) (es : error) :
  cmd (str s) = true → pp s = PDone →
  (occurs_in "exit status" es →
     Wait (Some es) s = Some (set_str (set_cmd false (str s)) s, None))
  ∧ (¬ occurs_in "exit status" es →
       Wait (Some es) s = Some (set_str (set_cmd false (str s)) s, Some es))
  ∧ (expected_message es →
       Stop (Some es) s = Some (set_str (set_cmd false (str s)) s, None))
  ∧ (¬ expected_message es →
       Stop (Some es) s = Some (set_str (set_cmd false (str s)) s, Some es)).
Proof.
  intros Hcmd Hpp. unfold Wait, Stop, close. rw Hcmd !decide_True //.
  simpl negb. rw !andb_true_l !andb_false_l.
  repeat split.
  - intros H%Contains_spec. by rw H.
  - intros H%Contains_false. by rw H.
  - intros H%expectedErr_spec. by rw H.
  - intros H. destruct (expectedErr (Some es)) eqn:E; [|done].
    by apply expectedErr_spec in E.
Qed.

(** *** [Latest] *)

(** C8: [Latest] returns a reference to a map object that did not exist
    before, distinct from the snapshot's, holding the entries the snapshot
    has at that moment; it changes no other map object and no field of the
    collector.  Whatever a caller later stores into or deletes from the map
    it received, in whatever state the collector is then, the snapshot, every
    other map object and the rest of the collector's state stay as they
    are. *)
Theorem Latest_returns_independent_copy pty s s' cm :
  reachable pty s → Latest s = Some (s', cm) →
  heap s !! cm = None
  ∧ cm ≠ pid2TopCommandRow (str s)
  ∧ heap s' !! cm = Some (snapshot s)
  ∧ (∀ l, l ≠ cm → heap s' !! l = heap s !! l)
  ∧ snapshot s' = snapshot s
  ∧ (str s', pp s', cp s', nread s', nsignal s', consumed s')
    = (str s, pp s, cp s, nread s, nsignal s, consumed s)
  ∧ (∀ f s1 s2, rtc (step pty) s' s1 → caller_update f cm s1 = Some s2 →
       snapshot s2 = snapshot s1
       ∧ (∀ l, l ≠ cm → heap s2 !! l = heap s1 !! l)
       ∧ (str s2, pp s2, cp s2, nread s2, nsignal s2, consumed s2)
         = (str s1, pp s1, cp s1, nread s1, nsignal s1, consumed s1)).
Proof.
  intros Hr HL. pose proof (Inv_reachable _ _ Hr) as HI.
  pose proof (Inv_Latest _ _ _ _ HI HL) as HI'.
  revert HL. unfold Latest. destruct (rmu_held s); [done|]. intros [= <- <-].
  pose proof (is_fresh (dom (heap s))) as Hfresh.
  assert (Hnone : heap s !! fresh (dom (heap s)) = None).
  { by apply not_elem_of_dom. }
  assert (Hne : fresh (dom (heap s)) ≠ pid2TopCommandRow (str s)).
  { intros Heq. destruct (inv_alloc _ _ HI) as [m Hm].
    rw Heq (inv_loc _ _ HI) Hm in Hnone. done. }
  split; [done|]. split; [done|]. simpl. split.
  { by rw lookup_insert_eq copy_map_id. }
  split. { intros l Hl. by rw lookup_insert_ne. }
  split. { rw /snapshot /= lookup_insert_ne //. }
  split; [done|].
  intros f s1 s2 Hst. pose proof (Inv_steps _ _ _ HI' Hst) as HI1.
  unfold caller_update. case_decide as Hcm; [|done]. intros [= <-].
  destruct (inv_handed _ _ HI1 _ Hcm) as [Hne1 _]. simpl.
  split; [|split; [|done]].
  - rw /snapshot /= (inv_loc _ _ HI1) lookup_alter_ne //.
  - intros l Hl. by rw lookup_alter_ne.
Qed.

(** *** Reads that all give a row *)

(** The calls of [ReadLine] return the data [lines], one per call and
    without error, and from then on every call fails with [e] and no
    data. *)
Definition reads_of (lines : list string) (e : error) : Pty :=
  λ i, match lines !! i with
       | Some l => (l, None)
       | None => (EmptyString, Some e)
       end.

(** What [ReadLine] returned is parsed by [enqueue], which appends its
    row. *)
Definition accepted (l : string) : Prop := is_Some (row_of (l, None)).

(** The rows of what the calls of [ReadLine] returned, in order. *)
Definition read_rows (lines : list string) : list TopCommandRow :=
  omap (λ l, row_of (l, None)) lines.

Lemma row_of_no_data e : row_of (EmptyString, Some e) = None.
Proof. unfold row_of. simpl. by destruct (topRowToSkip _). Qed.

Lemma parsed_rows_reads_of lines e k :
  parsed_rows (reads_of lines e) k = read_rows (take k lines).
Proof.
  induction k as [|k IH]; [done|].
  rw parsed_rows_S IH /reads_of. destruct (lines !! k) as [l|] eqn:Hl.
  - rw (take_S_r _ _ _ Hl) /read_rows omap_app /=. by destruct (row_of _).
  - rw row_of_no_data app_nil_r.
    apply lookup_ge_None in Hl. rw !take_ge //; lia.
Qed.

Lemma accepted_no_err l : accepted l → ¬ sets_err (l, None).
Proof.
  unfold accepted, sets_err, row_of, parsed, err_after. simpl.
  intros [r Hr] [Hsk [e He]]. rw Hsk in Hr.
  repeat case_decide; try done. by destruct (parseTopRow _).
Qed.

Lemma sets_err_reads_of lines e i :
  Forall accepted lines → sets_err (reads_of lines e i) →
  (length lines ≤ i)%nat.
Proof.
  intros Hwf Hs. destruct (lines !! i) as [l|] eqn:Hl.
  - exfalso. rw /reads_of Hl in Hs.
    apply (accepted_no_err l); [|done].
    rw Forall_forall in Hwf. apply Hwf. by eapply list_elem_of_lookup_2.
  - by apply lookup_ge_None.
Qed.

(** [dequeue] returns only from its loop with the queue empty and the error
    set, and no step undoes that it has returned. *)
Lemma step_to_done pty s s' :
  step pty s s' → cp s' = CDone →
  (cp s = CDone ∧ consumed s' = consumed s)
  ∨ (cp s = CRun ∧ queue (str s) = [] ∧ is_Some (err (str s))
     ∧ consumed s' = consumed s).
Proof.
  intros [a Ha]. destruct a; simpl in Ha.
  - revert Ha. unfold enqueue_step. destruct (pp s); try done.
    + destruct (rmu_held s); [done|]. intros [= <-]. by left.
    + destruct (pty (nread s)). intros [= <-]. by left.
    + destruct (rmu_held s); [done|].
      destruct (enqueue_locked _ _ _) as [st [|]]; intros [= <-]; simpl;
        [|by left]. destruct (cp s); by left.
    + intros [= <-]. simpl. destruct (cp s); by left.
  - revert Ha. unfold dequeue_step. destruct (cp s) eqn:Hcp; try done.
    + by intros [= <-].
    + destruct (queue (str s)) as [|row q].
      * destruct (err (str s)) eqn:He; intros [= <-]; [|done].
        intros _. right. eauto.
      * by intros [= <-].
    + by intros [= <-].
  - revert Ha. unfold Latest. destruct (rmu_held s); [done|].
    intros [= <-]. by left.
  - revert Ha. unfold caller_update. case_decide; [|done].
    intros [= <-]. by left.
  - revert Ha. unfold caller_update. case_decide; [|done].
    intros [= <-]. by left.
Qed.

Lemma done_consumed_all lines e s :
  Forall accepted lines → reachable (reads_of lines e) s →
  cp s = CDone → consumed s = read_rows lines.
Proof.
  intros Hwf. revert s.
  apply (rtc_ind_r (λ s, cp s = CDone → consumed s = read_rows lines)); [done|].
  intros s1 s2 Hr1 Hst IH Hc. pose proof (Inv_reachable _ _ Hr1) as HI.
  destruct (step_to_done _ _ _ Hst Hc) as [[Hc1 ->]|(Hc1&Hq&He&->)]; [auto|].
  destruct (inv_seterr _ _ HI (or_introl He)) as (i & Hi & Hs).
  apply sets_err_reads_of in Hs; [|done].
  pose proof (inv_fifo _ _ HI) as Hf.
  rw Hq app_nil_r parsed_rows_reads_of in Hf. rw Hf take_ge //. lia.
Qed.

Lemma last_row_None pid rows :
  last_row pid rows = None ↔ Forall (λ r, PID r ≠ pid) rows.
Proof.
  unfold last_row. rw last_None. split.
  - intros Hf. apply Forall_forall. intros r Hr Hp.
    assert (r ∈ filter (λ r, PID r = pid) rows) as Hin
      by by apply list_elem_of_filter.
    rw Hf in Hin. by apply elem_of_nil in Hin.
  - intros Hf. induction Hf as [|r rows Hr _ IH]; [done|].
    by rw filter_cons_False.
Qed.

Lemma last_row_Some pid rows r :
  last_row pid rows = Some r ↔
  ∃ l1 l2, rows = l1 ++ r :: l2 ∧ PID r = pid ∧ Forall (λ x, PID x ≠ pid) l2.
Proof.
  split.
  - induction rows as [|x rows IH] using rev_ind; [done|].
    unfold last_row in *. rw filter_app.
    destruct (decide (PID x = pid)) as [Hx|Hx].
    + rw filter_cons_True // filter_nil last_snoc. intros [= <-].
      exists rows, []. by repeat split.
    + rw filter_cons_False // filter_nil app_nil_r. intros Hl.
      destruct (IH Hl) as (l1 & l2 & -> & Hp & Hf).
      exists l1, (l2 ++ [x]). rw -app_assoc /=. repeat split; try done.
      apply Forall_app. split; [done|]. by apply Forall_singleton.
  - intros (l1 & l2 & -> & Hp & Hf). unfold last_row.
    rw filter_app filter_cons_True //.
    assert (Hn : filter (λ r, PID r = pid) l2 = []).
    { induction Hf as [|y l2 Hy _ IH]; [done|]. by rw filter_cons_False. }
    by rw Hn last_snoc.
Qed.

(** *** A schedule that runs the collector to its end *)

(** One line: [enqueue] checks the guard, reads, appends and signals; then
    [dequeue] takes the lock again, stores the row, and waits. *)
Definition feed_one : list label :=
  [Enqueue; Enqueue; Enqueue; Dequeue; Dequeue; Dequeue].

Fixpoint feed (n : nat) : list label :=
  match n with
  | O => []
  | S n' => feed_one ++ feed n'
  end.

(** [dequeue] starts and waits; the lines are fed one by one; the failing
    read ends [enqueue], whose last [Signal] lets [dequeue] return. *)
Definition full_schedule (n : nat) : list label :=
  [Dequeue; Dequeue] ++ feed n
  ++ [Enqueue; Enqueue; Enqueue; Enqueue; Enqueue; Dequeue; Dequeue].

Lemma run_app pty a b s :
  run pty (a ++ b) s = run pty a s ≫= run pty b.
Proof.
  revert s. induction a as [|x a IH]; intros s; simpl; [done|].
  by destruct (step_fn pty x s).
Qed.

Lemma enqueue_locked_parsed line lerr st r :
  parsed line = Some r →
  enqueue_locked line lerr st
  = (set_queue (queue st ++ [r]) (set_err lerr st),
     bool_decide (length (queue st ++ [r]) = 1%nat)).
Proof.
  unfold parsed, enqueue_locked.
  destruct (decide (line = EmptyString)); [done|].
  destruct (decide (length (Fields line) ≠ nTopRowHeaders)); [done|].
  destruct (parseTopRow _); [|done]. by intros [= ->].
Qed.

(** [dequeue] waiting with nothing to do, [enqueue] at its guard. *)
Definition idle (k : nat) (s : Sys) : Prop :=
  pp s = PGuard ∧ cp s = CWait ∧ queue (str s) = [] ∧ err (str s) = None
  ∧ nread s = k.

Lemma feed_one_run pty s l r :
  idle (nread s) s → pty (nread s) = (l, None) → row_of (l, None) = Some r →
  ∃ s', run pty feed_one s = Some s' ∧ idle (S (nread s)) s'.
Proof.
  intros (Hpp & Hcp & Hq & He & _) Hl Hrow.
  destruct s as [h [c q lc er ec rd rc] p cpc n sg cons hd].
  simpl in *. subst.
  unfold row_of in Hrow. simpl in Hrow.
  destruct (topRowToSkip (TrimSpace l)) eqn:Hsk; [done|].
  destruct rd; (eexists; split;
    [rw /feed_one /= /enqueue_step /= Hl Hsk /=;
     rw (enqueue_locked_parsed _ _ _ _ Hrow) /=; done | done]).
Qed.

Lemma feed_run lines e s :
  Forall accepted lines → idle (nread s) s →
  ∃ s', run (reads_of lines e) (feed (length lines - nread s)) s = Some s'
        ∧ idle (max (nread s) (length lines)) s'.
Proof.
  intros Hwf. remember (length lines - nread s)%nat as n eqn:Hn.
  revert s Hn. induction n as [|n IH]; intros s Hn Hid.
  - exists s. split; [done|]. by replace (_ `max` _)%nat with (nread s) by lia.
  - destruct (lines !! nread s) as [l|] eqn:Hl;
      [|apply lookup_ge_None in Hl; lia].
    assert (Hw : accepted l).
    { rw Forall_forall in Hwf. apply Hwf. by eapply list_elem_of_lookup_2. }
    destruct Hw as [r Hrow].
    destruct (feed_one_run (reads_of lines e) s l r) as (s1 & Hr1 & Hid1);
      [done | by rw /reads_of Hl | done |].
    assert (Hn1 : nread s1 = S (nread s)) by by destruct Hid1 as (_&_&_&_&?).
    destruct (IH s1) as (s' & Hr' & Hid'); [lia | by rw Hn1 |].
    exists s'. split.
    + change (feed (S n)) with (feed_one ++ feed n). by rw run_app Hr1.
    + apply lookup_lt_Some in Hl.
      by replace (nread s `max` _)%nat with (nread s1 `max` length lines)%nat
        by lia.
Qed.

(** With the queue drained and the next read failing without data that
    [topRowToSkip] would recognize, both goroutines return. *)
Lemma finish_run pty s e :
  idle (nread s) s → pty (nread s) = (EmptyString, Some e) →
  topRowToSkip EmptyString = false →
  ∃ s', run pty [Enqueue; Enqueue; Enqueue; Enqueue; Enqueue; Dequeue; Dequeue] s
        = Some s'
        ∧ pp s' = PDone ∧ cp s' = CDone ∧ consumed s' = consumed s.
Proof.
  intros (Hpp & Hcp & Hq & He & _) Hl Hsk.
  destruct s as [h [c q lc er ec rd rc] p cpc n sg cons hd].
  simpl in *. subst.
  eexists. split; [|shelve].
  rw /= /enqueue_step /= Hl /= Hsk /=. done.
  Unshelve. done.
Qed.

Lemma read_rows_take_drop lines k :
  read_rows lines = read_rows (take k lines) ++ read_rows (drop k lines).
Proof. by rw /read_rows -omap_app take_drop. Qed.

(** X9: the two goroutines never block each other for good: unless both
    have returned, one of them can take a step.  In particular [dequeue] is
    never left suspended in [Wait] once [enqueue] has returned. *)
Lemma no_deadlock pty s :
  reachable pty s →
  (pp s = PDone ∧ cp s = CDone)
  ∨ is_Some (enqueue_step pty s) ∨ is_Some (dequeue_step s).
Proof.
  intros Hr. pose proof (Inv_reachable _ _ Hr) as HI.
  destruct (cp s) eqn:Hcp.
  - right. right. rw /dequeue_step Hcp. by eexists.
  - right. right. rw /dequeue_step Hcp.
    destruct (queue (str s)); [destruct (err (str s))|]; by eexists.
  - right. left. destruct (inv_wait _ _ HI Hcp) as [Hp _].
    rw /enqueue_step /rmu_held Hcp /=.
    destruct (pp s); try done;
      [destruct (pty (nread s)) | destruct (enqueue_locked _ _ _)];
      by eexists.
  - right. right. rw /dequeue_step Hcp. by eexists.
  - destruct (pp s) eqn:Hpp; [right; left..|by left];
      rw /enqueue_step /rmu_held Hpp ?Hcp /=; try done;
      [destruct (pty (nread s)) | destruct (enqueue_locked _ _ _)];
      by eexists.
Qed.

(** The collector on reads that all give a row. *)
Lemma reads_snapshot lines e s :
  Forall accepted lines → reachable (reads_of lines e) s →
  consumed s ++ queue (str s) = read_rows (take (done_reads s) lines)
  ∧ (∀ s', step (reads_of lines e) s s' → consumed s' ≠ consumed s →
       ∃ row q, queue (str s) = row :: q ∧ queue (str s') = q
         ∧ consumed s' = consumed s ++ [row])
  ∧ snapshot s = store_all (consumed s)
  ∧ (cp s = CDone ∨ ((length lines ≤ done_reads s)%nat ∧ queue (str s) = []) →
       consumed s = read_rows lines ∧ queue (str s) = []
       ∧ (∀ pid, snapshot s !! pid = last_row pid (read_rows lines))
       ∧ (∀ pid, Forall (λ r, PID r ≠ pid) (read_rows lines) →
            snapshot s !! pid = None))
  ∧ (∃ s', run (reads_of lines e) ([Dequeue; Dequeue] ++ feed (length lines)) init
           = Some s'
           ∧ (length lines ≤ done_reads s')%nat ∧ queue (str s') = [])
  ∧ (topRowToSkip EmptyString = false →
       ∃ s', run (reads_of lines e) (full_schedule (length lines)) init = Some s'
             ∧ pp s' = PDone ∧ cp s' = CDone).
Proof.
  intros Hwf Hr. pose proof (Inv_reachable _ _ Hr) as HI.
  assert (Hfifo : consumed s ++ queue (str s)
                  = read_rows (take (done_reads s) lines)).
  { by rw (inv_fifo _ _ HI) parsed_rows_reads_of. }
  assert (Hfeed : ∃ s', run (reads_of lines e)
                            ([Dequeue; Dequeue] ++ feed (length lines)) init
                        = Some s' ∧ idle (length lines) s').
  { destruct (feed_run lines e (set_cp CWait init) Hwf) as (s' & Hrun & Hid);
      [done|]. exists s'. split.
    - rw run_app /=. rw /= Nat.sub_0_r in Hrun. done.
    - by rw /= in Hid. }
  split; [done|]. split; [|split; [by apply (inv_snapshot _ _ HI)|split; [|split]]].
  - intros s' Hst Hne.
    destruct (step_consumed _ _ _ HI Hst) as [?|(row&q&_&_&?&?&?&_)]; [done|].
    by exists row, q.
  - intros Hfin.
    assert (Hall : consumed s = read_rows lines ∧ queue (str s) = []).
    { destruct Hfin as [Hc|[Hlen Hq]].
      - pose proof (done_consumed_all _ _ _ Hwf Hr Hc) as Hall.
        split; [done|].
        rw (read_rows_take_drop lines (done_reads s)) -Hfifo -app_assoc in Hall.
        apply (f_equal length) in Hall. rw !length_app in Hall.
        destruct (queue (str s)); [done | simpl in Hall; lia].
      - split; [|done]. rw Hq app_nil_r take_ge // in Hfifo. }
    destruct Hall as [Hcons Hq]. repeat split; try done.
    + intros pid. by rw (inv_snapshot _ _ HI) Hcons store_all_lookup.
    + intros pid Hf. rw (inv_snapshot _ _ HI) Hcons store_all_lookup.
      by apply last_row_None.
  - destruct Hfeed as (s' & Hrun & Hpp & _ & Hq & _ & Hn).
    exists s'. repeat split; try done. rw /done_reads Hpp. lia.
  - intros Hsk. destruct Hfeed as (s' & Hrun & Hid).
    assert (Hn : nread s' = length lines) by by destruct Hid as (_&_&_&_&?).
    destruct (finish_run (reads_of lines e) s' e) as (s2 & Hrun2 & ? & ? & _).
    + by rw Hn.
    + rw /reads_of Hn. by rw (proj2 (lookup_ge_None lines (length lines))).
    + done.
    + exists s2. repeat split; try done.
      rw /full_schedule app_assoc run_app Hrun /=. done.
Qed.

(** *** A stream of well-formed lines *)

(** A well-formed input line (the bytes between two line feeds): [ReadLine]
    returns it whole, and [enqueue] parses it and appends its row. *)
Definition well_formed (l : string) : Prop :=
  fits l ∧ is_Some (row_of (strip_cr l, None)).

(** The rows of input lines that [ReadLine] returns whole, in input
    order. *)
Definition rows_of (lines : list string) : list TopCommandRow :=
  omap (λ l, row_of (strip_cr l, None)) lines.

Lemma step_fn_ext pty pty' a s :
  (∀ i, pty i = pty' i) → step_fn pty a s = step_fn pty' a s.
Proof.
  intros H. destruct a; try done. simpl. unfold enqueue_step.
  destruct (pp s); try done. by rw H.
Qed.

Lemma run_ext pty pty' sched s :
  (∀ i, pty i = pty' i) → run pty sched s = run pty' sched s.
Proof.
  intros H. revert s. induction sched as [|a sched IH]; intros s; [done|].
  simpl. rw (step_fn_ext pty pty' a s H). by destruct (step_fn pty' a s).
Qed.

Lemma step_ext pty pty' s s' :
  (∀ i, pty i = pty' i) → step pty s s' → step pty' s s'.
Proof. intros H [a Ha]. exists a. by rw -(step_fn_ext pty pty' a s H). Qed.

Lemma steps_ext pty pty' s s' :
  (∀ i, pty i = pty' i) → rtc (step pty) s s' → rtc (step pty') s s'.
Proof.
  intros H Hs. induction Hs as [|s s1 s2 H1 _ IH]; [done|].
  eapply rtc_l; [by eapply step_ext | done].
Qed.

(** The reads of a stream of lines that fit are the lines. *)
Lemma pty_of_stream_of lines e i :
  Forall fits lines →
  pty_of (stream_of lines) e i = reads_of (strip_cr <$> lines) e i.
Proof.
  intros Hf. rw /pty_of /reads_of (unread_stream_of _ _ Hf) list_lookup_fmap.
  destruct (lines !! i) as [l|] eqn:Hl.
  - rw (drop_S _ _ _ Hl) /= ReadLine_line //.
    by apply (proj1 (Forall_lookup _ _) Hf i).
  - rw drop_ge //. by apply lookup_ge_None.
Qed.

Lemma read_rows_strip_cr lines : read_rows (strip_cr <$> lines) = rows_of lines.
Proof.
  unfold read_rows, rows_of. induction lines as [|l lines IH]; [done|].
  rw fmap_cons /=. destruct (row_of (strip_cr l, None)); [f_equal|];
    exact IH.
Qed.

(** C1, with what the reader adds: for a stream of well-formed lines, each
    of which [ReadLine] returns whole (it is shorter than the buffer of 4096
    bytes), in every state the collector reaches, the rows consumed so far
    followed by the rows still queued are the rows of the lines read so far,
    in input order, and a step that consumes takes the head of the queue
    (FIFO); the snapshot holds the rows consumed so far, a later row
    replacing an earlier one of the same process.  Once [dequeue] has
    returned, or all lines are read and the queue is empty, every row of the
    input has been consumed, and the snapshot holds for each process id the
    last row of the input with that id, and nothing for an id that no line
    has.  Such a state is reached, and when [topRowToSkip] does not
    recognize the empty line both goroutines return. *)
Theorem snapshot_holds_last_row_per_pid lines e s :
  Forall well_formed lines → reachable (pty_of (stream_of lines) e) s →
  (∀ k, parsed_rows (pty_of (stream_of lines) e) k = rows_of (take k lines))
  ∧ consumed s ++ queue (str s) = rows_of (take (done_reads s) lines)
  ∧ (∀ s', step (pty_of (stream_of lines) e) s s' → consumed s' ≠ consumed s →
       ∃ row q, queue (str s) = row :: q ∧ queue (str s') = q
         ∧ consumed s' = consumed s ++ [row])
  ∧ snapshot s = store_all (consumed s)
  ∧ (cp s = CDone ∨ ((length lines ≤ done_reads s)%nat ∧ queue (str s) = []) →
       consumed s = rows_of lines ∧ queue (str s) = []
       ∧ (∀ pid, snapshot s !! pid = last_row pid (rows_of lines))
       ∧ (∀ pid, Forall (λ r, PID r ≠ pid) (rows_of lines) →
            snapshot s !! pid = None))
  ∧ (∃ s', run (pty_of (stream_of lines) e)
               ([Dequeue; Dequeue] ++ feed (length lines)) init
           = Some s'
           ∧ (length lines ≤ done_reads s')%nat ∧ queue (str s') = [])
  ∧ (topRowToSkip EmptyString = false →
       ∃ s', run (pty_of (stream_of lines) e) (full_schedule (length lines))
                 init = Some s'
             ∧ pp s' = PDone ∧ cp s' = CDone).
Proof.
  intros Hwf Hr.
  assert (Hfit : Forall fits lines).
  { eapply Forall_impl; [exact Hwf|]. by intros l [? _]. }
  assert (Hacc : Forall accepted (strip_cr <$> lines)).
  { apply Forall_fmap. eapply Forall_impl; [exact Hwf|]. by intros l [_ ?]. }
  assert (Hext : ∀ i, pty_of (stream_of lines) e i
                      = reads_of (strip_cr <$> lines) e i).
  { intros i. by apply pty_of_stream_of. }
  assert (Hr' : reachable (reads_of (strip_cr <$> lines) e) s).
  { by apply (steps_ext (pty_of (stream_of lines) e)). }
  destruct (reads_snapshot _ e s Hacc Hr') as (H1 & H2 & H3 & H4 & H5 & H6).
  rw length_fmap in H4. rw length_fmap in H5. rw length_fmap in H6.
  rw -fmap_take read_rows_strip_cr in H1. rw !read_rows_strip_cr in H4.
  split; [|split; [done|split; [|split; [done|split; [done|split]]]]].
  - intros k.
    assert (Hk : parsed_rows (pty_of (stream_of lines) e) k
                 = parsed_rows (reads_of (strip_cr <$> lines) e) k).
    { induction k as [|k IH]; [done|]. by rw !parsed_rows_S IH Hext. }
    by rw Hk parsed_rows_reads_of -fmap_take read_rows_strip_cr.
  - intros s' Hst. apply H2.
    by apply (step_ext (pty_of (stream_of lines) e)).
  - destruct H5 as (s' & Hrun & ?). exists s'. split; [|done].
    by rw (run_ext _ _ _ _ Hext).
  - intros Hsk. destruct (H6 Hsk) as (s' & Hrun & ?). exists s'.
    split; [|done]. by rw (run_ext _ _ _ _ Hext).
Qed.

(** *** The steps, by what they change *)

(** A step is the locked part of [enqueue], the storing step of [dequeue],
    the return of [dequeue], or a step that leaves the shared fields and the
    history as they are. *)
Lemma step_cases pty s s' :
  step pty s s' →
  (str s' = str s ∧ consumed s' = consumed s
   ∧ (cp s' = CDone ↔ cp s = CDone) ∧ (done_reads s ≤ done_reads s')%nat)
  ∨ (∃ line lerr, pp s = PLock line lerr ∧ cp s ≠ CRun
       ∧ str s' = (enqueue_locked line lerr (str s)).1
       ∧ pp s' = PGuard ∧ consumed s' = consumed s
       ∧ (cp s' = CDone ↔ cp s = CDone)
       ∧ (cp s = CWait ∧ (enqueue_locked line lerr (str s)).2 = true →
            cp s' = CWoken)
       ∧ nread s' = nread s)
  ∨ (∃ row q, cp s = CRun ∧ queue (str s) = row :: q
       ∧ str s' = mark_ready (set_queue q (str s))
       ∧ consumed s' = consumed s ++ [row]
       ∧ cp s' = CRun ∧ pp s' = pp s ∧ nread s' = nread s)
  ∨ (cp s = CRun ∧ queue (str s) = [] ∧ is_Some (err (str s))
     ∧ str s' = dequeue_finish (str s) ∧ consumed s' = consumed s
     ∧ cp s' = CDone ∧ pp s' = pp s ∧ nread s' = nread s).
Proof.
  intros [a Ha]. destruct a; simpl in Ha.
  - revert Ha. unfold enqueue_step, rmu_held. destruct (pp s) eqn:Hpp.
    + case_held; [done|]. intros [= <-]. left.
      rw /done_reads /= Hpp. by destruct (noError _).
    + destruct (pty (nread s)). intros [= <-]. left.
      rw /done_reads /= Hpp. repeat split; try done.
      destruct (topRowToSkip _); simpl; lia.
    + case_held; [done|].
      destruct (enqueue_locked line lerr (str s)) as [st sig] eqn:Hel.
      intros [= <-]. right. left. exists line, lerr. simpl.
      destruct sig; simpl; rw Hel /=; repeat split; try done;
        try (by destruct (cp s)); try (by intros [Hw _]; rw Hw);
        by intros [_ ?].
    + intros [= <-]. left. rw /done_reads /= Hpp.
      repeat split; try done; by destruct (cp s).
    + done.
  - revert Ha. unfold dequeue_step. destruct (cp s) eqn:Hcp; try done.
    + intros [= <-]. by left.
    + destruct (queue (str s)) as [|row q] eqn:Hq.
      * destruct (err (str s)) eqn:He; intros [= <-].
        -- right. right. right. by repeat split.
        -- by left.
      * intros [= <-]. right. right. left. by exists row, q.
    + intros [= <-]. by left.
  - revert Ha. unfold Latest. destruct (rmu_held s); [done|].
    intros [= <-]. by left.
  - revert Ha. unfold caller_update. case_decide; [|done].
    intros [= <-]. by left.
  - revert Ha. unfold caller_update. case_decide; [|done].
    intros [= <-]. by left.
Qed.

(** *** The error channel *)

(** The iteration of one of the first [k] reads left [e] in [str.err]. *)
Definition recorded_by (pty : Pty) (k : nat) (e : error) : Prop :=
  ∃ i, (i < k)%nat ∧ topRowToSkip (TrimSpace (pty i).1) = false
       ∧ err_after (TrimSpace (pty i).1) (pty i).2 = Some e.

Lemma recorded_by_mono pty k k' e :
  (k ≤ k')%nat → recorded_by pty k e → recorded_by pty k' e.
Proof. intros Hk (i & Hi & H). exists i. split; [lia | done]. Qed.

(** The terminal error and what was sent on [errc] come from the reads. *)
Definition err_origin (pty : Pty) (s : Sys) : Prop :=
  (∀ e, err (str s) = Some e → recorded_by pty (done_reads s) e)
  ∧ (∀ e, e ∈ errc (str s) →
       expectedErr (Some e) = false ∧ recorded_by pty (done_reads s) e).

Lemma err_origin_reachable pty s : reachable pty s → err_origin pty s.
Proof.
  revert s. apply (rtc_ind_r (err_origin pty)).
  { split; [done|]. intros e He. by apply elem_of_nil in He. }
  intros s s' Hr Hst [IH1 IH2]. pose proof (Inv_reachable _ _ Hr) as HI.
  destruct (step_cases _ _ _ Hst)
    as [(Hs & _ & _ & Hd)
       |[(line & lerr & Hpp & _ & Hs & Hpp' & _ & _ & _ & Hn)
        |[(row & q & _ & _ & Hs & _ & _ & Hpp' & Hn)
         |(_ & _ & [e0 He0] & Hs & _ & _ & Hpp' & Hn)]]].
  - rw /err_origin Hs. split; intros e He.
    + eapply recorded_by_mono; [done | by apply IH1].
    + destruct (IH2 e He). split; [done|]. by eapply recorded_by_mono.
  - destruct (inv_lock _ _ HI _ _ Hpp) as (Hpos & Hsk & d & Hd & ->).
    assert (Hdr : done_reads s' = nread s) by by rw /done_reads Hpp' Hn.
    assert (Hdr0 : (done_reads s ≤ nread s)%nat) by (rw /done_reads Hpp; lia).
    destruct (enqueue_locked_frame (TrimSpace d) lerr (str s))
      as (_ & _ & Hec & _).
    rw /err_origin Hs Hdr enqueue_locked_err Hec. split; intros e He.
    + exists (pred (nread s)). split; [lia|]. by rw Hd.
    + destruct (IH2 e He). split; [done|]. by eapply recorded_by_mono.
  - assert (Hdr : done_reads s' = done_reads s) by by rw /done_reads Hpp' Hn.
    rw /err_origin Hs Hdr. unfold mark_ready.
    by destruct (ready _).
  - assert (Hdr : done_reads s' = done_reads s) by by rw /done_reads Hpp' Hn.
    rw /err_origin Hs Hdr /dequeue_finish /= He0.
    destruct (expectedErr (Some e0)) eqn:Hex; simpl; split; try done.
    + intros e [= <-]. by apply IH1.
    + intros e [He|He]%elem_of_app; [by apply IH2|].
      apply list_elem_of_singleton in He as ->. split; [done|]. by apply IH1.
Qed.

(** X1: the error channel.  At most one error is ever sent on [errc], and
    none before [dequeue] returns; an error that was sent is not an expected
    one, and it is the error that the iteration of some read left in
    [str.err].  The step in which [dequeue] returns sends the terminal error
    when it is not expected, and resets it without sending when it is. *)
Theorem errc_gets_one_unexpected_error pty s :
  reachable pty s →
  (length (errc (str s)) ≤ 1)%nat
  ∧ (cp s ≠ CDone → errc (str s) = [])
  ∧ (∀ e, e ∈ errc (str s) →
       expectedErr (Some e) = false ∧ recorded_by pty (done_reads s) e)
  ∧ (∀ s', step pty s s' → cp s ≠ CDone → cp s' = CDone →
       ∃ e, err (str s) = Some e
            ∧ if expectedErr (Some e)
              then errc (str s') = [] ∧ err (str s') = None
              else errc (str s') = [e] ∧ err (str s') = Some e).
Proof.
  intros Hr. pose proof (Inv_reachable _ _ Hr) as HI.
  destruct (inv_errc _ _ HI) as [Hlen Hnil].
  split; [done|]. split; [done|].
  split; [apply (err_origin_reachable _ _ Hr)|].
  intros s' Hst Hc Hc'.
  destruct (step_cases _ _ _ Hst)
    as [(_ & _ & Hd & _)
       |[(line & lerr & _ & _ & _ & _ & _ & Hd & _)
        |[(row & q & _ & _ & _ & _ & Hrun & _)
         |(_ & _ & [e He] & Hs & _)]]].
  - by apply Hd in Hc'.
  - by apply Hd in Hc'.
  - by rw Hrun in Hc'.
  - exists e. split; [done|].
    rw Hs /dequeue_finish He (Hnil Hc).
    by destruct (expectedErr (Some e)).
Qed.

(** *** The keys of the snapshot *)

Lemma dom_store_all rows :
  dom (store_all rows) = list_to_set (PID <$> rows).
Proof.
  induction rows as [|r rows IH] using rev_ind.
  - by rw /store_all /= dom_empty_L.
  - rw store_all_snoc dom_insert_L IH fmap_app list_to_set_app_L /=.
    by rw (right_id_L ∅ (∪)) (comm_L (∪)).
Qed.

Lemma size_store_all rows : (size (store_all rows) ≤ length rows)%nat.
Proof.
  induction rows as [|r rows IH] using rev_ind; [done|].
  rw store_all_snoc length_app /=.
  destruct (store_all rows !! PID r) eqn:Hl.
  - rw map_size_insert_Some //. lia.
  - rw map_size_insert_None //. lia.
Qed.

(** X2: the snapshot holds exactly the process ids of the rows consumed so
    far, each mapped to a consumed row with that id; no step removes a key;
    and once [StartStream] has returned the snapshot is not empty. *)
Theorem snapshot_keys_are_consumed_pids pty s :
  reachable pty s →
  dom (snapshot s) = list_to_set (PID <$> consumed s)
  ∧ (∀ pid r, snapshot s !! pid = Some r → PID r = pid ∧ r ∈ consumed s)
  ∧ (size (snapshot s) ≤ length (consumed s))%nat
  ∧ (StartStream_returned s = true → snapshot s ≠ ∅)
  ∧ (∀ s', rtc (step pty) s s' → dom (snapshot s) ⊆ dom (snapshot s')).
Proof.
  intros Hr. pose proof (Inv_reachable _ _ Hr) as HI.
  pose proof (inv_snapshot _ _ HI) as Hsn.
  split; [by rw Hsn dom_store_all|]. split; [|split; [|split]].
  - intros pid r. rw Hsn store_all_lookup.
    intros (l1 & l2 & Hc & Hp & _)%last_row_Some. split; [done|].
    rw Hc. apply elem_of_app. right. by left.
  - rw Hsn. apply size_store_all.
  - rw /StartStream_returned (inv_readyc _ _ HI) (inv_ready _ _ HI).
    intros Hret Hem.
    destruct (consumed s) as [|r rows] eqn:Hc; [done|].
    assert (Hin : PID r ∈ dom (snapshot s)).
    { rw Hsn dom_store_all /=. by apply elem_of_union_l, elem_of_singleton. }
    rw Hem dom_empty_L in Hin. by apply not_elem_of_empty in Hin.
  - intros s' Hst. pose proof (Inv_steps _ _ _ HI Hst) as HI'.
    destruct (steps_consumed _ _ _ HI Hst) as [rows Hrows].
    rw Hsn (inv_snapshot _ _ HI') !dom_store_all Hrows fmap_app
       list_to_set_app_L.
    apply union_subseteq_l.
Qed.

(** *** After [dequeue] has returned *)

Lemma done_steps pty s s' :
  cp s = CDone → rtc (step pty) s s' →
  cp s' = CDone ∧ consumed s' = consumed s ∧ errc (str s') = errc (str s)
  ∧ ready (str s') = ready (str s) ∧ readyc (str s') = readyc (str s)
  ∧ pid2TopCommandRow (str s') = pid2TopCommandRow (str s).
Proof.
  intros Hc Hst. induction Hst as [s|s s1 s2 H1 _ IH]; [done|].
  destruct (step_cases _ _ _ H1)
    as [(Hs & Hco & Hd & _)
       |[(line & lerr & _ & _ & Hs & _ & Hco & Hd & _)
        |[(row & q & Hrun & _)|(Hrun & _)]]];
    try (by rw Hrun in Hc).
  - destruct IH as (? & ? & ? & ? & ? & ?); [by apply Hd|].
    rw -Hs -Hco. by repeat split.
  - destruct IH as (H1' & H2 & H3 & H4 & H5 & H6); [by apply Hd|].
    destruct (enqueue_locked_frame line lerr (str s)) as (_ & F2 & F3 & F4 & F5).
    rw -Hs in F2, F3, F4, F5.
    rw H2 H3 H4 H5 H6 Hco F2 F3 F4 F5. by repeat split.
Qed.

(** X3: once [dequeue] has returned, the snapshot never changes again,
    whatever [enqueue], [Latest] and the callers still do: the rows consumed,
    the readiness channel and the error channel stay as they are, [Latest]
    is never blocked, and every later call of it returns a copy of that same
    final snapshot. *)
Theorem snapshot_final_after_dequeue_returns pty s s' :
  reachable pty s → cp s = CDone → rtc (step pty) s s' →
  cp s' = CDone ∧ consumed s' = consumed s ∧ snapshot s' = snapshot s
  ∧ errc (str s') = errc (str s) ∧ readyc (str s') = readyc (str s)
  ∧ ∃ s'' cm, Latest s' = Some (s'', cm)
              ∧ heap s'' !! cm = Some (snapshot s)
              ∧ snapshot s'' = snapshot s.
Proof.
  intros Hr Hc Hst. pose proof (Inv_reachable _ _ Hr) as HI.
  pose proof (Inv_steps _ _ _ HI Hst) as HI'.
  destruct (done_steps _ _ _ Hc Hst) as (Hc' & Hco & Hec & _ & Hrc & _).
  assert (Hsn : snapshot s' = snapshot s).
  { by rw (inv_snapshot _ _ HI') (inv_snapshot _ _ HI) Hco. }
  repeat (split; [done|]).
  destruct (Latest s') as [[s'' cm]|] eqn:HL.
  - exists s'', cm. split; [done|].
    pose proof (Inv_Latest _ _ _ _ HI' HL) as HI''.
    revert HL. unfold Latest. destruct (rmu_held s'); [done|].
    intros [= <- <-]. simpl. split.
    + by rw lookup_insert_eq copy_map_id Hsn.
    + etrans; [apply (inv_snapshot _ _ HI'')|]. simpl.
      by rw -(inv_snapshot _ _ HI') Hsn.
  - revert HL. rw /Latest /rmu_held Hc'. done.
Qed.

(** *** [Latest] and the lock *)

Lemma dequeue_drains pty q : ∀ s,
  cp s = CRun → queue (str s) = q →
  ∃ s', run pty (replicate (S (length q)) Dequeue) s = Some s'
        ∧ (cp s' = CWait ∨ cp s' = CDone)
        ∧ queue (str s') = [] ∧ consumed s' = consumed s ++ q
        ∧ pp s' = pp s ∧ nread s' = nread s.
Proof.
  induction q as [|row q IH]; intros s Hc Hq.
  - rw /= /dequeue_step Hc Hq. destruct (err (str s)) eqn:He.
    + eexists. split; [done|]. simpl. rw app_nil_r Hq. by repeat split; eauto.
    + eexists. split; [done|]. simpl. rw app_nil_r Hq. by repeat split; eauto.
  - set (s1 := mkSys (alter (insert (PID row) row)
                            (pid2TopCommandRow (str s)) (heap s))
                     (mark_ready (set_queue q (str s)))
                     (pp s) CRun (nread s) (nsignal s)
                     (consumed s ++ [row]) (handed s)).
    destruct (IH s1) as (s' & Hrun & Hcp & Hq' & Hco & Hpp & Hn); [done|..].
    { rw /s1 /= /mark_ready. by destruct (ready _). }
    exists s'. split.
    + change (replicate (S (length (row :: q))) Dequeue)
        with (Dequeue :: replicate (S (length q)) Dequeue).
      rw /= /dequeue_step Hc Hq. exact Hrun.
    + rw Hco /= -app_assoc. by repeat split.
Qed.

(** X4: while [dequeue] is in its loop it holds [rmu] and [Latest] is
    blocked; [dequeue] gives the lock up after as many of its own steps as
    there are queued rows, plus one.  By then it has stored every queued row
    in the snapshot, in the order of the queue, a later row replacing an
    earlier one of the same process, and has left the queue empty; [Latest]
    then goes through and returns a copy of that snapshot. *)
Theorem Latest_waits_only_for_the_drain pty s :
  reachable pty s → cp s = CRun →
  Latest s = None
  ∧ ∃ s', run pty (replicate (S (length (queue (str s)))) Dequeue) s = Some s'
      ∧ queue (str s') = []
      ∧ snapshot s'
        = foldl (λ m r, <[PID r := r]> m) (snapshot s) (queue (str s))
      ∧ ∃ s'' cm, Latest s' = Some (s'', cm)
          ∧ heap s'' !! cm = Some (snapshot s')
          ∧ snapshot s'' = snapshot s'.
Proof.
  intros Hr Hc. pose proof (Inv_reachable _ _ Hr) as HI.
  split; [by rw /Latest /rmu_held Hc|].
  destruct (dequeue_drains pty _ s Hc eq_refl)
    as (s' & Hrun & Hend & Hq & Hco & _).
  pose proof (Inv_steps _ _ _ HI (run_steps _ _ _ _ Hrun)) as HI'.
  exists s'. split; [done|]. split; [done|]. split.
  { by rw (inv_snapshot _ _ HI') Hco /store_all foldl_app
          -/(store_all (consumed s)) -(inv_snapshot _ _ HI). }
  destruct (Latest s') as [[s'' cm]|] eqn:HL.
  - exists s'', cm. split; [done|].
    pose proof (Inv_Latest _ _ _ _ HI' HL) as HI''.
    revert HL. unfold Latest. destruct (rmu_held s'); [done|].
    intros [= <- <-]. simpl. split.
    + by rw lookup_insert_eq copy_map_id.
    + etrans; [apply (inv_snapshot _ _ HI'')|]. simpl.
      by rw -(inv_snapshot _ _ HI').
  - revert HL. rw /Latest /rmu_held.
    destruct Hend as [Hend|Hend]; by rw Hend.
Qed.

(** *** Shutting down twice *)

(** X5: a second call of [Stop] or [Wait] does nothing and does not wait:
    whatever the first call returned, and whatever the second is called
    with, the second returns the terminal error recorded in [str.err],
    leaves the collector as the first call left it, and is never blocked. *)
Theorem close_again_returns_stream_error kill1 werr1 kill2 werr2 s s1 r1 :
  close kill1 werr1 s = Some (s1, r1) →
  close kill2 werr2 s1 = Some (s1, err (str s))
  ∧ cmd (str s1) = false
  ∧ (queue (str s1), err (str s1), errc (str s1), ready (str s1),
     readyc (str s1), heap s1, pp s1, cp s1)
    = (queue (str s), err (str s), errc (str s), ready (str s),
       readyc (str s), heap s, pp s, cp s).
Proof.
  unfold close. destruct (cmd (str s)) eqn:Hcmd.
  - case_decide; [|done]. intros [= <- _]. by simpl.
  - intros [= <- _]. by rw Hcmd.
Qed.

(** *** The terminal error stops the reads *)

(** X6: once the terminal error is set, and as long as [dequeue] has not
    returned, [enqueue] reads no further line and appends no further row: the
    number of reads stays, the error stays, and the consumed rows followed by
    the queued rows stay what they were; [enqueue] is past its last
    iteration. *)
Theorem error_stops_the_reads pty s s' :
  reachable pty s → is_Some (err (str s)) → rtc (step pty) s s' →
  cp s' ≠ CDone →
  nread s' = nread s ∧ err (str s') = err (str s)
  ∧ consumed s' ++ queue (str s') = consumed s ++ queue (str s)
  ∧ (pp s' = PGuard ∨ pp s' = PExit ∨ pp s' = PDone).
Proof.
  intros Hr He Hst Hc.
  assert (Hgen : cp s' = CDone
            ∨ (nread s' = nread s ∧ err (str s') = err (str s)
               ∧ consumed s' ++ queue (str s') = consumed s ++ queue (str s)
               ∧ (pp s' = PGuard ∨ pp s' = PExit ∨ pp s' = PDone))).
  { clear Hc. pose proof (Inv_reachable _ _ Hr) as HI.
    assert (Hpp : pp s = PGuard ∨ pp s = PExit ∨ pp s = PDone).
    { destruct (pp s) eqn:Hpp; eauto.
      - assert (Hn : err (str s) = None) by (apply (inv_noerr pty); eauto).
        rw Hn in He. by destruct He.
      - assert (Hn : err (str s) = None) by (apply (inv_noerr pty); eauto).
        rw Hn in He. by destruct He. }
    revert s' Hst.
    apply (rtc_ind_r (λ s', cp s' = CDone
            ∨ (nread s' = nread s ∧ err (str s') = err (str s)
               ∧ consumed s' ++ queue (str s') = consumed s ++ queue (str s)
               ∧ (pp s' = PGuard ∨ pp s' = PExit ∨ pp s' = PDone))));
      [by right|].
    intros s1 s2 Hst1 [a Ha] [Hd|(Hn & He1 & Hq & Hp)].
    { left. destruct (done_steps pty s1 s2 Hd) as [? _]; [|done].
      apply rtc_once. by exists a. }
    rw -He1 in He. destruct He as [e He].
    destruct a; simpl in Ha.
    - revert Ha. unfold enqueue_step.
      destruct Hp as [Hp|[Hp|Hp]]; rw Hp; [| |done].
      + destruct (rmu_held s1); [done|]. rw /noError He. intros [= <-].
        right. simpl. repeat split; eauto.
      + intros [= <-]. right. simpl. repeat split; eauto.
    - revert Ha. unfold dequeue_step. destruct (cp s1) eqn:Hcp; try done.
      + intros [= <-]. right. by rw -He1 He.
      + destruct (queue (str s1)) as [|row q] eqn:Hq1.
        * rw He. intros [= <-]. by left.
        * intros [= <-]. right. simpl. rw -Hq -He1 /mark_ready.
          destruct (ready _); simpl; by rw -app_assoc.
      + intros [= <-]. right. by rw -He1 He.
    - revert Ha. unfold Latest. destruct (rmu_held s1); [done|].
      intros [= <-]. right. by rw -He1 He.
    - revert Ha. unfold caller_update. case_decide; [|done].
      intros [= <-]. right. by rw -He1 He.
    - revert Ha. unfold caller_update. case_decide; [|done].
      intros [= <-]. right. by rw -He1 He. }
  by destruct Hgen.
Qed.

(** *** Waking the consumer *)

(** X7: no wake-up is lost.  While [dequeue] is suspended in [Wait] the
    queue is empty and [enqueue] has not returned; the step of [enqueue] that
    appends a row wakes it, and so does the step in which [enqueue]
    returns. *)
Theorem waiting_dequeue_is_woken pty s :
  reachable pty s → cp s = CWait →
  queue (str s) = [] ∧ pp s ≠ PDone
  ∧ ∀ s', enqueue_step pty s = Some s' →
          queue (str s') ≠ [] ∨ pp s' = PDone → cp s' = CWoken.
Proof.
  intros Hr Hc. pose proof (Inv_reachable _ _ Hr) as HI.
  destruct (inv_wait _ _ HI Hc) as [Hp Hq]. split; [done|]. split; [done|].
  intros s'. unfold enqueue_step, rmu_held. rw Hc /=.
  destruct (pp s) eqn:Hpp; try done.
  - intros [= <-]. simpl. rw Hq. intros [?|?]; [done|].
    by destruct (noError _).
  - destruct (pty (nread s)). intros [= <-]. simpl. rw Hq.
    intros [?|?]; [done|]. by destruct (topRowToSkip _).
  - pose proof (enqueue_locked_queue line lerr (str s)) as Hq'.
    pose proof (enqueue_locked_signal line lerr (str s)) as Hsig.
    destruct (enqueue_locked line lerr (str s)) as [st sig].
    simpl in Hq', Hsig. intros [= <-].
    destruct sig; simpl; rw ?Hc //.
    rw Hq' Hq /=. intros [Hne|?]; [|done].
    destruct (parsed line) eqn:Hpa; [|done].
    assert (false = true); [|done]. apply Hsig. split; [done | by eexists].
  - intros [= <-]. simpl. by rw Hc.
Qed.

(** *** What [dequeue] has consumed when it returns *)

(** X8: [dequeue] returns only after it has consumed every row that
    [enqueue] had appended: once it has returned, the rows consumed are the
    rows of the first [k] reads, for some [k] such that one of those reads
    left the terminal error; the rows of the later reads are in the
    queue. *)
Theorem dequeue_returns_after_consuming_all pty s :
  reachable pty s → cp s = CDone →
  ∃ k, (k ≤ done_reads s)%nat
       ∧ consumed s = parsed_rows pty k
       ∧ (∃ i, (i < k)%nat ∧ sets_err (pty i))
       ∧ consumed s ++ queue (str s) = parsed_rows pty (done_reads s).
Proof.
  intros Hr Hc.
  assert (Hgen : cp s = CDone →
            ∃ k, (k ≤ done_reads s)%nat ∧ consumed s = parsed_rows pty k
                 ∧ ∃ i, (i < k)%nat ∧ sets_err (pty i)).
  { clear Hc. revert s Hr.
    apply (rtc_ind_r (λ s, cp s = CDone →
            ∃ k, (k ≤ done_reads s)%nat ∧ consumed s = parsed_rows pty k
                 ∧ ∃ i, (i < k)%nat ∧ sets_err (pty i))); [done|].
    intros s1 s2 Hr1 Hst IH Hc2. pose proof (Inv_reachable _ _ Hr1) as HI.
    destruct (step_cases _ _ _ Hst)
      as [(_ & Hco & Hd & Hle)
         |[(line & lerr & Hpp & _ & _ & Hpp' & Hco & Hd & _ & Hn)
          |[(row & q & _ & _ & _ & _ & Hrun & _)
           |(_ & Hq & He & _ & Hco & _ & Hpp' & Hn)]]].
    - destruct IH as (k & Hk & Hck & Hi); [by apply Hd|].
      exists k. rw Hco. split; [lia | done].
    - destruct IH as (k & Hk & Hck & Hi); [by apply Hd|].
      exists k. rw Hco. split; [|done].
      rw /done_reads Hpp in Hk. rw /done_reads Hpp' Hn. lia.
    - by rw Hrun in Hc2.
    - exists (done_reads s1).
      assert (Hdr : done_reads s2 = done_reads s1) by by rw /done_reads Hpp' Hn.
      rw Hdr Hco. split; [done|]. split.
      + pose proof (inv_fifo _ _ HI) as Hf. by rw Hq app_nil_r in Hf.
      + by apply (inv_seterr _ _ HI); left. }
  destruct (Hgen Hc) as (k & Hk & Hck & Hi). exists k.
  repeat split; try done. apply (inv_fifo pty), Inv_reachable. done.
Qed.

End Collector.

(** *** A sample instance: a 'top' with three columns

    The parameters instantiated for the examples below: rows of three
    fields, the first a decimal process id; banner lines recognized by
    their prefix. *)

Record SampleRow := mkSampleRow { spid : Z; scpu : string; smem : string }.

Fixpoint parse_digits (acc : Z) (s : string) : option Z :=
  match s with
  | EmptyString => Some acc
  | String c s' =>
      match Ascii.is_nat c with
      | Some d => parse_digits (10 * acc + Z.of_nat d) s'
      | None => None
      end
  end.

Definition sample_parse (row : list string) : SampleRow + error :=
  match row with
  | [p; c; m] =>
      match p with
      | EmptyString => inr "invalid syntax"%string
      | _ => match parse_digits 0 p with
             | Some z => inl (mkSampleRow z c m)
             | None => inr "invalid syntax"%string
             end
      end
  | _ => inr "unexpected number of fields"%string
  end.

Definition sample_skip (data : string) : bool :=
  String.prefix "top - " data || String.prefix "Tasks: " data
  || String.prefix "PID " data.

Abbreviation sample_run := (run spid sample_skip sample_parse 3).
(** The three lines of the scenario, each ended by a carriage return and a
    line feed, then a closed pseudo-terminal. *)
Definition three_lines : list string :=
  [String.append "1 2.0 1.0" (String CR EmptyString);
   String.append "2 5.0 3.0" (String CR EmptyString);
   String.append "1 9.0 4.0" (String CR EmptyString)].

Definition pty_three : Pty := pty_of (stream_of three_lines) "EOF".

Definition after_three : Sys :=
  default init (sample_run pty_three (full_schedule 3) init).

Example after_three_run :
  sample_run pty_three (full_schedule 3) init = Some after_three.
Proof. vm_compute. reflexivity. Qed.

Example after_three_snapshot :
  size (snapshot after_three) = 2%nat
  ∧ snapshot after_three !! 1 = Some (mkSampleRow 1 "9.0" "4.0")
  ∧ snapshot after_three !! 2 = Some (mkSampleRow 2 "5.0" "3.0")
  ∧ errc (str after_three) = ["EOF"%string]
  ∧ readyc (str after_three) = 1%nat.
Proof. vm_compute. done. Qed.

Lemma after_three_reachable :
  reachable spid sample_skip sample_parse 3 pty_three after_three.
Proof. apply (run_reachable _ _ _ _ _ (full_schedule 3)). by vm_compute. Defined.

Lemma three_lines_well_formed :
  Forall (well_formed sample_skip sample_parse 3) three_lines.
Proof.
  assert (Hwf : ∀ l, has_lf l = false → (String.length l <? bufferSize)%nat = true →
            is_Some (row_of sample_skip sample_parse 3 (strip_cr l, None)) →
            well_formed sample_skip sample_parse 3 l).
  { intros l H1 H2 H3. split; [split; [exact H1 | by apply Nat.ltb_lt]|exact H3]. }
  apply Forall_cons. split; [apply Hwf; [by vm_compute..|eexists; by vm_compute]|].
  apply Forall_cons. split; [apply Hwf; [by vm_compute..|eexists; by vm_compute]|].
  apply Forall_cons. split; [apply Hwf; [by vm_compute..|eexists; by vm_compute]|].
  by apply Forall_nil.
Defined.

(** The scenario of the specification, obtained from the theorem: after the
    three lines the snapshot has the third line for process 1, the second for
    process 2, and nothing for process 3. *)
Lemma snapshot_holds_last_row_per_pid_witness :
  Forall (well_formed sample_skip sample_parse 3) three_lines
  ∧ reachable spid sample_skip sample_parse 3 pty_three after_three
  ∧ consumed after_three
    = [mkSampleRow 1 "2.0" "1.0"; mkSampleRow 2 "5.0" "3.0";
       mkSampleRow 1 "9.0" "4.0"]
  ∧ snapshot after_three !! 1 = Some (mkSampleRow 1 "9.0" "4.0")
  ∧ snapshot after_three !! 2 = Some (mkSampleRow 2 "5.0" "3.0")
  ∧ snapshot after_three !! 3 = None.
Proof.
  split; [exact three_lines_well_formed|].
  split; [exact after_three_reachable|].
  destruct (snapshot_holds_last_row_per_pid spid sample_skip sample_parse 3
              three_lines "EOF" after_three three_lines_well_formed
              after_three_reachable) as (_ & _ & _ & _ & Hfin & _).
  destruct Hfin as (Hc & _ & Hl & _); [left; by vm_compute|].
  split; [etrans; [exact Hc | by vm_compute]|].
  split; [etrans; [exact (Hl 1) | by vm_compute]|].
  split; [etrans; [exact (Hl 2) | by vm_compute]|].
  etrans; [exact (Hl 3) | by vm_compute].
Defined.

Lemma readiness_gate_fires_once_witness :
  reachable spid sample_skip sample_parse 3 pty_three after_three
  ∧ readyc (str after_three) = 1%nat
  ∧ ready (str after_three) = true.
Proof.
  split; [exact after_three_reachable|].
  destruct (readiness_gate_fires_once spid sample_skip sample_parse 3
              pty_three after_three after_three_reachable) as (H1 & H2 & _).
  split; (etrans; [eassumption | by vm_compute]).
Defined.

Lemma close_squashes_expected_errors_witness :
  cmd (str after_three) = true ∧ pp after_three = PDone
  ∧ snd <$> Wait (Some "exit status 1"%string) after_three = Some None
  ∧ snd <$> Stop (Some "exit status 1"%string) after_three
    = Some (Some "exit status 1"%string).
Proof.
  assert (Hcmd : cmd (str after_three) = true) by by vm_compute.
  assert (Hpp : pp after_three = PDone) by by vm_compute.
  split; [exact Hcmd|]. split; [exact Hpp|].
  assert (Hocc : occurs_in "exit status" "exit status 1").
  { apply Contains_spec. by vm_compute. }
  assert (Hnex : ¬ expected_message "exit status 1").
  { intros H%expectedErr_spec. by vm_compute in H. }
  destruct (close_squashes_expected_errors after_three "exit status 1"
              Hcmd Hpp) as (Hw & _ & _ & Hs).
  split.
  - etrans; [exact (f_equal (fmap snd) (Hw Hocc)) | by vm_compute].
  - etrans; [exact (f_equal (fmap snd) (Hs Hnex)) | by vm_compute].
Defined.

(** A pseudo-terminal whose every read fails without data. *)
Definition pty_closed : Pty :=
  pty_of EmptyString "read /dev/ptmx: input/output error".


(** [enqueue] has recorded the error; nothing was ever enqueued. *)
Definition after_failed_read : Sys :=
  default init (sample_run pty_closed [Enqueue; Enqueue; Enqueue] init).


(** After the failed read: [dequeue] runs to its return, which resets the
    expected error, and [enqueue] starts another iteration. *)
Definition long_after_failed_read : Sys :=
  default init
    (sample_run pty_closed [Dequeue; Dequeue; Enqueue; Enqueue]
                after_failed_read).

Lemma no_row_no_readiness_witness :
  reachable spid sample_skip sample_parse 3 pty_closed after_failed_read
  ∧ is_Some (err (str after_failed_read))
  ∧ queue (str after_failed_read) = []
  ∧ consumed after_failed_read = []
  ∧ rtc (step spid sample_skip sample_parse 3 pty_closed)
        after_failed_read long_after_failed_read
  ∧ cp long_after_failed_read = CDone
  ∧ StartStream_returned long_after_failed_read = false.
Proof.
  assert (Hr : reachable spid sample_skip sample_parse 3 pty_closed
                 after_failed_read).
  { apply (run_reachable _ _ _ _ _ [Enqueue; Enqueue; Enqueue]).
    by vm_compute. }
  assert (He : is_Some (err (str after_failed_read))).
  { exists "read /dev/ptmx: input/output error"%string. by vm_compute. }
  assert (Hq : queue (str after_failed_read) = []) by by vm_compute.
  assert (Hc : consumed after_failed_read = []) by by vm_compute.
  assert (Hst : rtc (step spid sample_skip sample_parse 3 pty_closed)
                    after_failed_read long_after_failed_read).
  { apply (run_steps _ _ _ _ _ [Dequeue; Dequeue; Enqueue; Enqueue]).
    by vm_compute. }
  split; [exact Hr|]. split; [exact He|]. split; [exact Hq|].
  split; [exact Hc|]. split; [exact Hst|]. split; [by vm_compute|].
  destruct (no_row_no_readiness spid sample_skip sample_parse 3
              pty_closed after_failed_read Hr) as (_ & H2).
  destruct (H2 He Hq Hc) as [H3 _].
  by destruct (H3 _ Hst) as (_ & _ & ?).
Defined.

(** A line with one field fewer than the header. *)
Definition short_input : string := stream_of ["7 0.3"%string].

Definition pty_short : Pty := pty_of short_input "EOF".

Definition at_short_line : Sys :=
  default init (sample_run pty_short [Enqueue; Enqueue] init).

Definition after_short_line : Sys :=
  default init (sample_run pty_short [Enqueue; Enqueue; Enqueue] init).

Lemma ignored_line_has_no_effect_witness :
  fits "7 0.3"
  ∧ unread short_input 0 = "7 0.3" +:+ String LF EmptyString
  ∧ length (Fields (TrimSpace (strip_cr "7 0.3"))) = 2%nat
  ∧ reachable spid sample_skip sample_parse 3 pty_short at_short_line
  ∧ enqueue_step sample_skip sample_parse 3 pty_short at_short_line
    = Some after_short_line
  ∧ nread at_short_line = 1%nat
  ∧ pp at_short_line = PLock "7 0.3" None
  ∧ str after_short_line = str at_short_line
  ∧ heap after_short_line = heap at_short_line
  ∧ err (str after_short_line) = None.
Proof.
  assert (Hfit : fits "7 0.3").
  { split; [done | by apply Nat.ltb_lt; vm_compute]. }
  assert (Hun : unread short_input 0 = "7 0.3" +:+ String LF EmptyString)
    by done.
  assert (Hlen : length (Fields (TrimSpace (strip_cr "7 0.3"))) = 2%nat)
    by by vm_compute.
  assert (Hr : reachable spid sample_skip sample_parse 3 pty_short
                 at_short_line).
  { apply (run_reachable _ _ _ _ _ [Enqueue; Enqueue]). by vm_compute. }
  assert (Hpp : pp at_short_line = PLock "7 0.3" None) by by vm_compute.
  assert (Hn : nread at_short_line = 1%nat) by by vm_compute.
  assert (Hst : enqueue_step sample_skip sample_parse 3 pty_short
                  at_short_line = Some after_short_line) by by vm_compute.
  split; [exact Hfit|]. split; [exact Hun|]. split; [exact Hlen|].
  split; [exact Hr|]. split; [exact Hst|]. split; [exact Hn|].
  split; [exact Hpp|].
  destruct (ignored_line_has_no_effect spid sample_skip sample_parse 3
              short_input "EOF" 0 "7 0.3" EmptyString at_short_line
              after_short_line Hfit Hun)
    as (H1 & H2 & _ & _ & _ & _ & H7 & _).
  - right. right. rw Hlen. done.
  - exact Hr.
  - exact Hst.
  - right. split; [exact Hn|]. eexists _, _. exact Hpp.
  - split; [exact H1|]. split; [exact H2 | exact H7].
Defined.

(** The first line has been consumed and [dequeue] waits. *)
Definition after_one : Sys :=
  default init (sample_run pty_three ([Dequeue; Dequeue] ++ feed 1) init).

Definition after_one_Latest : Sys * loc :=
  default (init, 1%positive) (Latest after_one).

Lemma Latest_returns_independent_copy_witness :
  reachable spid sample_skip sample_parse 3 pty_three after_one
  ∧ Latest after_one = Some after_one_Latest
  ∧ heap after_one_Latest.1 !! after_one_Latest.2
    = Some {[ 1 := mkSampleRow 1 "2.0" "1.0" ]}
  ∧ ∀ s2, caller_update (delete 1) after_one_Latest.2 after_one_Latest.1
          = Some s2 →
          snapshot s2 = snapshot after_one.
Proof.
  assert (Hr : reachable spid sample_skip sample_parse 3 pty_three after_one).
  { apply (run_reachable _ _ _ _ _ ([Dequeue; Dequeue] ++ feed 1)).
    by vm_compute. }
  assert (HL : Latest after_one
               = Some (after_one_Latest.1, after_one_Latest.2))
    by by vm_compute.
  split; [exact Hr|]. split; [by vm_compute|].
  destruct (Latest_returns_independent_copy spid sample_skip sample_parse 3
              pty_three after_one _ _ Hr HL)
    as (_ & _ & H3 & _ & H5 & _ & H7).
  split.
  - etrans; [exact H3 | by vm_compute].
  - intros s2 Hs2.
    destruct (H7 (delete 1) _ s2 (rtc_refl _ _) Hs2) as (H8 & _).
    etrans; [exact H8 | exact H5].
Defined.

(** One line, then a closed pseudo-terminal. *)
Definition one_line_input : string := stream_of ["1 2.0 1.0"%string].

Definition pty_one : Pty :=
  pty_of one_line_input "read /dev/ptmx: input/output error".


(** The terminal error set before any row is consumed does not keep
    [readyc] open when a row is in the queue: after the first line and the
    failing read the error is set, one row is queued and none is consumed;
    [dequeue] then stores the row and closes [readyc], and [StartStream]
    returns. *)
Lemma queued_row_fires_readiness_after_error :
  ∃ s1 s2,
    sample_run pty_one
      [Enqueue; Enqueue; Enqueue; Enqueue; Enqueue; Enqueue] init = Some s1
    ∧ err (str s1) = Some "read /dev/ptmx: input/output error"%string
    ∧ consumed s1 = [] ∧ readyc (str s1) = 0%nat
    ∧ sample_run pty_one [Dequeue; Dequeue] s1 = Some s2
    ∧ consumed s2 = [mkSampleRow 1 "2.0" "1.0"]
    ∧ readyc (str s2) = 1%nat ∧ StartStream_returned s2 = true.
Proof.
  eexists _, _. split; [by vm_compute|]. do 3 (split; [by vm_compute|]).
  split; [by vm_compute|]. repeat split; by vm_compute.
Qed.

(** *** Lines longer than the buffer *)

Fixpoint blanks (n : nat) : string :=
  match n with
  | O => EmptyString
  | S n' => String " " (blanks n')
  end.

(** A line of three fields and 4099 bytes: the process id and the first
    column, 4091 blanks, and the second column. *)
Definition long_line : string := "1 2.0" +:+ blanks 4091 +:+ "1.0".

(** Such a line is well-formed as far as its fields go, and [enqueue]
    appends no row for it: [ReadLine] returns its first 4096 bytes, which
    hold two fields, and then its last three bytes, which hold one.  When
    both goroutines have returned, nothing was consumed and the snapshot is
    empty. *)
Lemma long_line_is_dropped :
  sample_skip (TrimSpace long_line) = false
  ∧ Fields (TrimSpace long_line) = ["1"; "2.0"; "1.0"]%string
  ∧ sample_parse (Fields (TrimSpace long_line))
    = inl (mkSampleRow 1 "2.0" "1.0")
  ∧ (pty_of (stream_of [long_line]) "EOF" 0%nat).1 = "1 2.0" +:+ blanks 4091
  ∧ (pty_of (stream_of [long_line]) "EOF" 1%nat).1 = "1.0"%string
  ∧ ∃ s, sample_run (pty_of (stream_of [long_line]) "EOF")
           ([Dequeue; Dequeue]
            ++ [Enqueue; Enqueue; Enqueue; Enqueue; Enqueue; Enqueue]
            ++ [Enqueue; Enqueue; Enqueue; Enqueue; Enqueue; Dequeue; Dequeue])
           init = Some s
         ∧ pp s = PDone ∧ cp s = CDone
         ∧ consumed s = [] ∧ snapshot s = ∅ ∧ readyc (str s) = 0%nat.
Proof.
  do 5 (split; [by vm_compute|]).
  eexists. split; [by vm_compute|]. repeat split; by vm_compute.
Qed.

(** A line of six fields and 4105 bytes: three fields, 4087 blanks, and
    three fields more. *)
Definition long_line6 : string := "1 2.0 1.0" +:+ blanks 4087 +:+ "2 5.0 3.0".

(** Such a line has not the arity of the header, and [enqueue] appends two
    rows for it: [ReadLine] returns its first 4096 bytes, which hold three
    fields, and then its last nine bytes, which hold three.  [dequeue]
    stores both rows and closes [readyc]. *)
Lemma long_line_of_wrong_arity_gives_rows :
  length (Fields (TrimSpace long_line6)) = 6%nat
  ∧ unread (stream_of [long_line6]) 0 = long_line6 +:+ String LF EmptyString
  ∧ ∃ s, sample_run (pty_of (stream_of [long_line6]) "EOF")
           ([Enqueue; Enqueue; Enqueue; Enqueue; Enqueue; Enqueue]
            ++ [Dequeue; Dequeue; Dequeue]) init = Some s
         ∧ nread s = 2%nat ∧ err (str s) = None
         ∧ consumed s = [mkSampleRow 1 "2.0" "1.0"; mkSampleRow 2 "5.0" "3.0"]
         ∧ snapshot s !! 2 = Some (mkSampleRow 2 "5.0" "3.0")
         ∧ readyc (str s) = 1%nat ∧ StartStream_returned s = true.
Proof.
  split; [by vm_compute|]. split; [done|].
  eexists. split; [by vm_compute|]. repeat split; by vm_compute.
Qed.

(** *** The further properties at the sample instance *)

Lemma after_three_done : cp after_three = CDone.
Proof. by vm_compute. Defined.

Lemma errc_gets_one_unexpected_error_witness :
  reachable spid sample_skip sample_parse 3 pty_three after_three
  ∧ errc (str after_three) = ["EOF"%string]
  ∧ expectedErr (Some "EOF"%string) = false.
Proof.
  split; [exact after_three_reachable|].
  assert (He : errc (str after_three) = ["EOF"%string]) by by vm_compute.
  split; [exact He|].
  destruct (errc_gets_one_unexpected_error spid sample_skip sample_parse 3
              pty_three after_three after_three_reachable) as (_ & _ & H3 & _).
  assert (Hin : "EOF"%string ∈ errc (str after_three)).
  { apply (eq_ind_r (λ l, "EOF"%string ∈ l) (list_elem_of_here _ _) He). }
  exact (proj1 (H3 _ Hin)).
Defined.

Lemma snapshot_keys_are_consumed_pids_witness :
  reachable spid sample_skip sample_parse 3 pty_three after_three
  ∧ StartStream_returned after_three = true
  ∧ snapshot after_three ≠ ∅
  ∧ (size (snapshot after_three) ≤ length (consumed after_three))%nat.
Proof.
  split; [exact after_three_reachable|].
  assert (Hret : StartStream_returned after_three = true) by by vm_compute.
  split; [exact Hret|].
  destruct (snapshot_keys_are_consumed_pids spid sample_skip sample_parse 3
              pty_three after_three after_three_reachable)
    as (_ & _ & H3 & H4 & _).
  split; [exact (H4 Hret) | exact H3].
Defined.

(** After the collector has stopped, a caller takes the snapshot. *)
Definition after_three_Latest : Sys :=
  default init (sample_run pty_three [CallLatest] after_three).

Lemma snapshot_final_after_dequeue_returns_witness :
  reachable spid sample_skip sample_parse 3 pty_three after_three
  ∧ cp after_three = CDone
  ∧ rtc (step spid sample_skip sample_parse 3 pty_three)
        after_three after_three_Latest
  ∧ snapshot after_three_Latest = snapshot after_three
  ∧ errc (str after_three_Latest) = errc (str after_three).
Proof.
  assert (Hst : rtc (step spid sample_skip sample_parse 3 pty_three)
                    after_three after_three_Latest).
  { apply (run_steps _ _ _ _ _ [CallLatest]). by vm_compute. }
  split; [exact after_three_reachable|]. split; [exact after_three_done|].
  split; [exact Hst|].
  destruct (snapshot_final_after_dequeue_returns spid sample_skip sample_parse
              3 pty_three after_three after_three_Latest
              after_three_reachable after_three_done Hst)
    as (_ & _ & H3 & H4 & _).
  split; [exact H3 | exact H4].
Defined.

(** Two rows are queued and [dequeue] has just taken the lock. *)
Definition draining : Sys :=
  default init
    (sample_run pty_three
       [Enqueue; Enqueue; Enqueue; Enqueue; Enqueue; Enqueue; Dequeue] init).

Lemma Latest_waits_only_for_the_drain_witness :
  reachable spid sample_skip sample_parse 3 pty_three draining
  ∧ cp draining = CRun
  ∧ queue (str draining)
    = [mkSampleRow 1 "2.0" "1.0"; mkSampleRow 2 "5.0" "3.0"]
  ∧ Latest draining = None
  ∧ ∃ s', sample_run pty_three [Dequeue; Dequeue; Dequeue] draining = Some s'
      ∧ queue (str s') = []
      ∧ snapshot s'
        = <[2 := mkSampleRow 2 "5.0" "3.0"]>
            (<[1 := mkSampleRow 1 "2.0" "1.0"]> (snapshot draining))
      ∧ ∃ s'' cm, Latest s' = Some (s'', cm)
          ∧ heap s'' !! cm = Some (snapshot s')
          ∧ snapshot s'' = snapshot s'.
Proof.
  assert (Hr : reachable spid sample_skip sample_parse 3 pty_three draining).
  { apply (run_reachable _ _ _ _ _
             [Enqueue; Enqueue; Enqueue; Enqueue; Enqueue; Enqueue; Dequeue]).
    by vm_compute. }
  assert (Hc : cp draining = CRun) by by vm_compute.
  assert (Hq : queue (str draining)
               = [mkSampleRow 1 "2.0" "1.0"; mkSampleRow 2 "5.0" "3.0"])
    by by vm_compute.
  split; [exact Hr|]. split; [exact Hc|]. split; [exact Hq|].
  destruct (Latest_waits_only_for_the_drain spid sample_skip sample_parse 3
              pty_three draining Hr Hc) as (H1 & s' & H2 & H3 & H4 & H5).
  split; [exact H1|]. exists s'.
  split; [exact (eq_ind _ (λ q, sample_run pty_three
                                  (replicate (S (length q)) Dequeue) draining
                                = Some s') H2 _ Hq)|].
  split; [exact H3|]. split; [|exact H5].
  exact (eq_ind _ (λ q, snapshot s'
                        = foldl (λ m r, <[spid r := r]> m) (snapshot draining) q)
           H4 _ Hq).
Defined.

(** The collector after [Stop] has returned. *)
Definition stopped_three : Sys * option error :=
  default (after_three, None) (Stop None after_three).

Lemma close_again_returns_stream_error_witness :
  Stop None after_three = Some (stopped_three.1, stopped_three.2)
  ∧ Wait (Some "exit status 1"%string) stopped_three.1
    = Some (stopped_three.1, err (str after_three))
  ∧ cmd (str stopped_three.1) = false.
Proof.
  assert (H1 : Stop None after_three = Some (stopped_three.1, stopped_three.2))
    by by vm_compute.
  split; [exact H1|].
  destruct (close_again_returns_stream_error true None false
              (Some "exit status 1"%string) after_three _ _ H1)
    as (H2 & H3 & _).
  split; [exact H2 | exact H3].
Defined.

(** After the failed read, [enqueue] finds the error at its guard. *)
Definition leaving_after_failed_read : Sys :=
  default init (sample_run pty_closed [Enqueue] after_failed_read).

Lemma error_stops_the_reads_witness :
  reachable spid sample_skip sample_parse 3 pty_closed after_failed_read
  ∧ is_Some (err (str after_failed_read))
  ∧ rtc (step spid sample_skip sample_parse 3 pty_closed)
        after_failed_read leaving_after_failed_read
  ∧ cp leaving_after_failed_read ≠ CDone
  ∧ nread leaving_after_failed_read = nread after_failed_read
  ∧ (pp leaving_after_failed_read = PGuard
     ∨ pp leaving_after_failed_read = PExit
     ∨ pp leaving_after_failed_read = PDone).
Proof.
  assert (Hr : reachable spid sample_skip sample_parse 3 pty_closed
                 after_failed_read).
  { apply (run_reachable _ _ _ _ _ [Enqueue; Enqueue; Enqueue]).
    by vm_compute. }
  assert (He : is_Some (err (str after_failed_read))).
  { exists "read /dev/ptmx: input/output error"%string. by vm_compute. }
  assert (Hst : rtc (step spid sample_skip sample_parse 3 pty_closed)
                    after_failed_read leaving_after_failed_read).
  { apply (run_steps _ _ _ _ _ [Enqueue]). by vm_compute. }
  assert (Hc : cp leaving_after_failed_read ≠ CDone) by by vm_compute.
  split; [exact Hr|]. split; [exact He|]. split; [exact Hst|].
  split; [exact Hc|].
  destruct (error_stops_the_reads spid sample_skip sample_parse 3 pty_closed
              after_failed_read leaving_after_failed_read Hr He Hst Hc)
    as (H1 & _ & _ & H4).
  split; [exact H1 | exact H4].
Defined.

Lemma after_one_reachable :
  reachable spid sample_skip sample_parse 3 pty_three after_one.
Proof.
  apply (run_reachable _ _ _ _ _ ([Dequeue; Dequeue] ++ feed 1)).
  by vm_compute.
Defined.

Lemma waiting_dequeue_is_woken_witness :
  reachable spid sample_skip sample_parse 3 pty_three after_one
  ∧ cp after_one = CWait
  ∧ queue (str after_one) = []
  ∧ pp after_one ≠ PDone.
Proof.
  assert (Hc : cp after_one = CWait) by by vm_compute.
  split; [exact after_one_reachable|]. split; [exact Hc|].
  destruct (waiting_dequeue_is_woken spid sample_skip sample_parse 3 pty_three
              after_one after_one_reachable Hc) as (H1 & H2 & _).
  split; [exact H1 | exact H2].
Defined.

Lemma dequeue_returns_after_consuming_all_witness :
  reachable spid sample_skip sample_parse 3 pty_three after_three
  ∧ cp after_three = CDone
  ∧ ∃ k, (k ≤ done_reads after_three)%nat
         ∧ consumed after_three
           = parsed_rows sample_skip sample_parse 3 pty_three k
         ∧ (∃ i, (i < k)%nat
                 ∧ sets_err sample_skip sample_parse 3 (pty_three i))
         ∧ consumed after_three ++ queue (str after_three)
           = parsed_rows sample_skip sample_parse 3 pty_three
               (done_reads after_three).
Proof.
  split; [exact after_three_reachable|]. split; [exact after_three_done|].
  exact (dequeue_returns_after_consuming_all spid sample_skip sample_parse 3
           pty_three after_three after_three_reachable after_three_done).
Defined.

Lemma no_deadlock_witness :
  reachable spid sample_skip sample_parse 3 pty_three after_one
  ∧ ((pp after_one = PDone ∧ cp after_one = CDone)
     ∨ is_Some (enqueue_step sample_skip sample_parse 3 pty_three after_one)
     ∨ is_Some (dequeue_step spid after_one)).
Proof.
  split; [exact after_one_reachable|].
  exact (no_deadlock spid sample_skip sample_parse 3 pty_three after_one
           after_one_reachable).
Defined.

End Stream.

(** ** The socket query: [GetSS] and [getSSEntry] *)

Module SS.

Inductive TransportProtocol := TypeTCP | TypeTCP6.

(** The fields of [NetTCP] that [getSSEntry] reads. *)
Record NetTCP := mkNetTCP {
  Type_ : string;
  Uid : Z;
  StParsedStatus : string;
  LocalAddressParsedIPHost : string;
  LocalAddressParsedIPPort : Z;
  RemAddressParsedIPHost : string;
  RemAddressParsedIPPort : Z
}.

Section Query.

(** Declared outside [src/top_stream.go] and taken as parameters:
    [user.User], the uptime and the process status with its [Comm] field,
    and what the host answers to [ListPIDs], [GetUptime], [GetStat],
    [GetNetTCP], [GetProgram] and [user.LookupId]: a value, or an error. *)
Context {User Uptime Stat : Type}.
Variable Comm : Stat → string.
Variable ListPIDs : list Z + error.
Variable GetUptime : Uptime + error.
Variable GetStat : Z → Uptime → Stat + error.
Variable GetNetTCP : Z → TransportProtocol → list NetTCP + error.
Variable GetProgram : Z → string + error.
Variable LookupId : Z → User + error.

(** [SSEntry], lines 247-261. *)
Record SSEntry := mkSSEntry {
  Protocol : string;
  Program : string;
  State : string;
  PID : Z;
  LocalIP : string;
  LocalPort : Z;
  RemoteIP : string;
  RemotePort : Z;
  User_ : User
}.

(** The fields of [EntryFilter] that [GetSS] reads, after [applyOpts]. *)
Record EntryFilter := mkEntryFilter {
  ftProgramMatchFunc : option (string → bool);
  ftPID : Z;
  ftTopLimit : Z;
  ftLocalPort : Z;
  ftRemotePort : Z;
  ftTCP : bool;
  ftTCP6 : bool
}.

(** The loop of [getSSEntry], lines 441-468. *)
Fixpoint getSSEntry_loop (pid : Z) (pname : string) (lport rport : Z)
    (nss : list NetTCP) (sss : list SSEntry) : list SSEntry + error :=
  match nss with
  | [] => inl sss
  | elem :: nss' =>
      match LookupId (Uid elem) with
      | inr uerr => inr uerr
      | inl u =>
          if (0 <? lport) && negb (lport =? LocalAddressParsedIPPort elem)
          then getSSEntry_loop pid pname lport rport nss' sss
          else if (0 <? rport) && negb (rport =? RemAddressParsedIPPort elem)
          then getSSEntry_loop pid pname lport rport nss' sss
          else
            getSSEntry_loop pid pname lport rport nss'
              (sss ++ [mkSSEntry (Type_ elem) pname (StParsedStatus elem) pid
                         (LocalAddressParsedIPHost elem)
                         (LocalAddressParsedIPPort elem)
                         (RemAddressParsedIPHost elem)
                         (RemAddressParsedIPPort elem) u])
      end
  end.

(** [getSSEntry], lines 431-471. *)
Definition getSSEntry (pid : Z) (tp : TransportProtocol) (lport rport : Z)
    : list SSEntry + error :=
  match GetNetTCP pid tp with
  | inr nerr => inr nerr
  | inl nss =>
      match GetProgram pid with
      | inr perr => inr perr
      | inl pname => getSSEntry_loop pid pname lport rport nss []
      end
  end.

(** Where a worker goroutine of [GetSS] is.  With the candidates known
    (lines 299-318): [WStart], then [WGot] with the entries of
    [getSSEntry], then [WAppend] once the cap check has passed.  With the
    candidates found by program name (lines 360-388): [WStart], then
    [WMatched] once the name matches, then [WPassed] once the cap check has
    passed, then [WAppend] with the entries.  [WReturned]: the goroutine has
    returned and its deferred [wg.Done()] has run. *)
Inductive worker_pc :=
  | WStart
  | WGot (ents : list SSEntry)
  | WMatched
  | WPassed
  | WAppend (ents : list SSEntry)
  | WReturned.

(** A goroutine started at line 299/321 ([wup = None]) or at line 360/391
    ([wup] the uptime it captured). *)
Record Worker := mkWorker {
  wpid : Z;
  wtp : TransportProtocol;
  wup : option Uptime;
  wpc : worker_pc
}.

(** Where [GetSS] itself is: in one of the two [for] loops with the
    candidates still to handle, in [wg.Wait()], or returned. *)
Inductive main_pc :=
  | MSpawn (up : option Uptime) (rest : list Z)
  | MWait
  | MReturned (sss : list SSEntry) (err : option error).

Record QState := mkQState {
  sss : list SSEntry;
  wg : Z;
  workers : list Worker;
  main : main_pc
}.

(** The [switch] of lines 269-286: the candidates, or the error of
    [ListPIDs]. *)
Definition candidates (ft : EntryFilter) : list Z + error :=
  match ftProgramMatchFunc ft with
  | None =>
      if ftPID ft <? 1 then ListPIDs
      else inl [ftPID ft]
  | Some _ =>
      if 0 <? ftPID ft then inl [ftPID ft] else inl []
  end.

(** What [wg.Add] has counted before the loop, lines 293-296 and 354-357. *)
Definition wg_added (ft : EntryFilter) (pids : list Z) : Z :=
  Z.of_nat (length pids)
  + (if ftTCP ft && ftTCP6 ft then Z.of_nat (length pids) else 0).

(** [GetSS] up to its [for] loop, lines 264-296 and 343-357. *)
Definition GetSS_start (ft : EntryFilter) : QState :=
  match candidates ft with
  | inr err => mkQState [] 0 [] (MReturned [] (Some err))
  | inl pids =>
      if (0 <? Z.of_nat (length pids)) then
        mkQState [] (wg_added ft pids) [] (MSpawn None pids)
      else
        match ListPIDs with
        | inr err => mkQState [] 0 [] (MReturned [] (Some err))
        | inl pids' =>
            match GetUptime with
            | inr err => mkQState [] 0 [] (MReturned [] (Some err))
            | inl up =>
                mkQState [] (wg_added ft pids') [] (MSpawn (Some up) pids')
            end
        end
  end.

(** The cap check of lines 309, 331, 373 and 404. *)
Definition cap_reached (ft : EntryFilter) (sss : list SSEntry) : bool :=
  (0 <? ftTopLimit ft) && (ftTopLimit ft <=? Z.of_nat (length sss)).

(** The final truncation, lines 425-427. *)
Definition truncate (ft : EntryFilter) (sss : list SSEntry) : list SSEntry :=
  if (0 <? ftTopLimit ft) && (ftTopLimit ft <? Z.of_nat (length sss))
  then take (Z.to_nat (ftTopLimit ft)) sss
  else sss.

(** One step of a worker: its new program counter and the new result list;
    [None] when it has nothing left to do, or calls a nil
    [ProgramMatchFunc]. *)
Definition worker_step (ft : EntryFilter) (w : Worker) (sss : list SSEntry)
    : option (worker_pc * list SSEntry) :=
  match wpc w, wup w with
  | WStart, None =>
      match getSSEntry (wpid w) (wtp w) (ftLocalPort ft) (ftRemotePort ft) with
      | inr _ => Some (WReturned, sss)
      | inl ents => Some (WGot ents, sss)
      end
  | WGot ents, _ =>
      if cap_reached ft sss then Some (WReturned, sss)
      else Some (WAppend ents, sss)
  | WStart, Some up =>
      match GetStat (wpid w) up with
      | inr _ => Some (WReturned, sss)
      | inl stat =>
          match ftProgramMatchFunc ft with
          | Some f =>
              if f (Comm stat) then Some (WMatched, sss)
              else Some (WReturned, sss)
          | None => None
          end
      end
  | WMatched, _ =>
      if cap_reached ft sss then Some (WReturned, sss)
      else Some (WPassed, sss)
  | WPassed, _ =>
      match getSSEntry (wpid w) (wtp w) (ftLocalPort ft) (ftRemotePort ft) with
      | inr _ => Some (WReturned, sss)
      | inl ents => Some (WAppend ents, sss)
      end
  | WAppend ents, _ => Some (WReturned, sss ++ ents)
  | WReturned, _ => None
  end.

(** The goroutines that one iteration of the [for] loop starts. *)
Definition spawned (ft : EntryFilter) (up : option Uptime) (pid : Z)
    : list Worker :=
  (if ftTCP ft then [mkWorker pid TypeTCP up WStart] else [])
  ++ (if ftTCP6 ft then [mkWorker pid TypeTCP6 up WStart] else []).

(** What can happen next: a step of [GetSS] itself or of its [i]-th
    goroutine. *)
Inductive label := Main | Work (i : nat).

Definition step_fn (ft : EntryFilter) (a : label) (st : QState)
    : option QState :=
  match a with
  | Main =>
      match main st with
      | MSpawn up (pid :: rest) =>
          Some (mkQState (sss st) (wg st) (workers st ++ spawned ft up pid)
                         (MSpawn up rest))
      | MSpawn up [] => Some (mkQState (sss st) (wg st) (workers st) MWait)
      | MWait =>
          if wg st =? 0
          then Some (mkQState (sss st) (wg st) (workers st)
                              (MReturned (truncate ft (sss st)) None))
          else None
      | MReturned _ _ => None
      end
  | Work i =>
      match workers st !! i with
      | Some w =>
          match worker_step ft w (sss st) with
          | Some (pc, sss') =>
              Some (mkQState sss'
                      (match pc with WReturned => wg st - 1 | _ => wg st end)
                      (<[i := mkWorker (wpid w) (wtp w) (wup w) pc]> (workers st))
                      (main st))
          | None => None
          end
      | None => None
      end
  end.

Definition step (ft : EntryFilter) (st st' : QState) : Prop :=
  ∃ a, step_fn ft a st = Some st'.

Fixpoint run (ft : EntryFilter) (sched : list label) (st : QState)
    : option QState :=
  match sched with
  | [] => Some st
  | a :: sched' =>
      match step_fn ft a st with
      | Some st' => run ft sched' st'
      | None => None
      end
  end.

Definition reachable (ft : EntryFilter) (st : QState) : Prop :=
  rtc (step ft) (GetSS_start ft) st.

(** *** The port filters *)

(** An entry that passes the port filters: a filter that is set (positive)
    is the entry's port. *)
Definition port_ok (lport rport : Z) (e : SSEntry) : Prop :=
  (0 < lport → LocalPort e = lport) ∧ (0 < rport → RemotePort e = rport).

Lemma getSSEntry_loop_ports pid pname lport rport nss acc r :
  Forall (port_ok lport rport) acc →
  getSSEntry_loop pid pname lport rport nss acc = inl r →
  Forall (port_ok lport rport) r.
Proof.
  revert acc. induction nss as [|elem nss IH]; intros acc Hacc; simpl.
  - by intros [= <-].
  - destruct (LookupId (Uid elem)) as [u|]; [|done].
    destruct (0 <? lport) eqn:Hl; simpl.
    + destruct (lport =? LocalAddressParsedIPPort elem) eqn:Hle; simpl;
        [|by apply IH].
      destruct (0 <? rport) eqn:Hr; simpl.
      * destruct (rport =? RemAddressParsedIPPort elem) eqn:Hre; simpl;
          [|by apply IH].
        apply IH, Forall_app. split; [done|]. apply Forall_singleton.
        split; simpl; intros _; symmetry; by apply Z.eqb_eq.
      * apply IH, Forall_app. split; [done|]. apply Forall_singleton.
        split; simpl; [intros _; symmetry; by apply Z.eqb_eq|].
        apply Z.ltb_ge in Hr. lia.
    + destruct (0 <? rport) eqn:Hr; simpl.
      * destruct (rport =? RemAddressParsedIPPort elem) eqn:Hre; simpl;
          [|by apply IH].
        apply IH, Forall_app. split; [done|]. apply Forall_singleton.
        split; simpl; [|intros _; symmetry; by apply Z.eqb_eq].
        apply Z.ltb_ge in Hl. lia.
      * apply IH, Forall_app. split; [done|]. apply Forall_singleton.
        apply Z.ltb_ge in Hl, Hr. split; simpl; lia.
Qed.

Lemma getSSEntry_ports pid tp lport rport r :
  getSSEntry pid tp lport rport = inl r → Forall (port_ok lport rport) r.
Proof.
  unfold getSSEntry. destruct (GetNetTCP pid tp) as [nss|]; [|done].
  destruct (GetProgram pid) as [pname|]; [|done].
  by apply getSSEntry_loop_ports.
Qed.

(** The entries held anywhere in a state of [GetSS] pass the filters. *)
Definition holds_ok (ft : EntryFilter) (st : QState) : Prop :=
  let ok := port_ok (ftLocalPort ft) (ftRemotePort ft) in
  Forall ok (sss st)
  ∧ (∀ w ents, w ∈ workers st → wpc w = WGot ents ∨ wpc w = WAppend ents →
       Forall ok ents)
  ∧ (∀ r e, main st = MReturned r e → Forall ok r).

Lemma truncate_Forall (P : SSEntry → Prop) ft l :
  Forall P l → Forall P (truncate ft l).
Proof. unfold truncate. destruct (_ && _); [apply Forall_take | done]. Qed.

Lemma holds_ok_start ft : holds_ok ft (GetSS_start ft).
Proof.
  unfold GetSS_start.
  destruct (candidates ft) as [pids|];
    [destruct (0 <? _); [|destruct ListPIDs; [destruct GetUptime|]]|];
    (split; [done|split]); simpl; try done.
  all: try (intros w ents Hw; by apply elem_of_nil in Hw).
  all: by intros r0 e0 [= <- _].
Qed.

Lemma holds_ok_step ft st st' : holds_ok ft st → step ft st st' → holds_ok ft st'.
Proof.
  intros (Hs & Hw & Hm) [a Ha]. destruct a as [|i]; simpl in Ha.
  - destruct (main st) as [up [|pid rest]| |] eqn:Hmain; try done.
    + injection Ha as <-. split; [done|]. split; [done|]. done.
    + injection Ha as <-. split; [done|]. split; [|done]. simpl.
      intros w ents [Hin|Hin]%elem_of_app; [by eauto|].
      unfold spawned in Hin.
      intros [Hp|Hp]; destruct (ftTCP ft), (ftTCP6 ft); simpl in Hin;
        repeat (apply elem_of_cons in Hin as [->|Hin]; [done|]);
        by apply elem_of_nil in Hin.
    + destruct (wg st =? 0); [|done]. injection Ha as <-.
      split; [done|]. split; [done|]. simpl. intros r e [= <- _].
      by apply truncate_Forall.
  - destruct (workers st !! i) as [w|] eqn:Hi; [|done].
    destruct (worker_step ft w (sss st)) as [[pc sss']|] eqn:Hws; [|done].
    injection Ha as <-.
    assert (Hin : w ∈ workers st) by by eapply list_elem_of_lookup_2.
    assert (Hnew : Forall (port_ok (ftLocalPort ft) (ftRemotePort ft)) sss'
              ∧ ∀ ents, pc = WGot ents ∨ pc = WAppend ents →
                  Forall (port_ok (ftLocalPort ft) (ftRemotePort ft)) ents).
    { revert Hws. unfold worker_step.
      destruct (wpc w) as [|ents0| | |ents0|] eqn:Hpc;
        destruct (wup w) as [up|]; try done.
      - destruct (GetStat _ _); [|by intros [= <- <-]; split; [|intros ? [|]]].
        destruct (ftProgramMatchFunc ft) as [f|]; [|done].
        destruct (f _); intros [= <- <-]; (split; [done|]); by intros ? [|].
      - destruct (getSSEntry _ _ _ _) as [ents|] eqn:Hg; intros [= <- <-];
          (split; [done|]); intros ? [[= <-]|?]; try done.
        by eapply getSSEntry_ports.
      - destruct (cap_reached ft (sss st)); intros [= <- <-];
          (split; [done|]); intros ? [?|[= <-]]; try done. eauto.
      - destruct (cap_reached ft (sss st)); intros [= <- <-];
          (split; [done|]); intros ? [?|[= <-]]; try done. eauto.
      - destruct (cap_reached ft (sss st)); intros [= <- <-];
          (split; [done|]); by intros ? [|].
      - destruct (cap_reached ft (sss st)); intros [= <- <-];
          (split; [done|]); by intros ? [|].
      - destruct (getSSEntry _ _ _ _) as [ents|] eqn:Hg; intros [= <- <-];
          (split; [done|]); intros ? [?|[= <-]]; try done.
        by eapply getSSEntry_ports.
      - destruct (getSSEntry _ _ _ _) as [ents|] eqn:Hg; intros [= <- <-];
          (split; [done|]); intros ? [?|[= <-]]; try done.
        by eapply getSSEntry_ports.
      - intros [= <- <-]. split; [|by intros ? [|]].
        apply Forall_app. split; [done|]. eauto.
      - intros [= <- <-]. split; [|by intros ? [|]].
        apply Forall_app. split; [done|]. eauto. }
    destruct Hnew as [Hsss Hpc]. split; [done|]. split; [|done]. simpl.
    intros w' ents Hw' Hents.
    apply list_elem_of_lookup in Hw' as [j Hj].
    destruct (decide (i = j)) as [<-|Hij].
    + assert (Hlt : (i < length (workers st))%nat) by by eapply lookup_lt_Some.
      rw (list_lookup_insert_eq _ _ _ Hlt) in Hj.
      injection Hj as <-. by apply Hpc.
    + rw list_lookup_insert_ne // in Hj.
      eapply Hw; [by eapply list_elem_of_lookup_2 | done].
Qed.

Lemma holds_ok_reachable ft st : reachable ft st → holds_ok ft st.
Proof.
  revert st. apply (rtc_ind_r (holds_ok ft)); [apply holds_ok_start|].
  intros st1 st2 _ Hst IH. by eapply holds_ok_step.
Qed.

Lemma run_rtc ft sched st st' :
  run ft sched st = Some st' → rtc (step ft) st st'.
Proof.
  revert st. induction sched as [|a sched IH]; intros st; simpl.
  - intros [= <-]. apply rtc_refl.
  - destruct (step_fn ft a st) as [st1|] eqn:Ha; [|done].
    intros Hr. eapply rtc_l; [by exists a | by apply IH].
Qed.

(** C7: [getSSEntry] returns only entries whose local port is the
    local-port filter when that filter is set, and whose remote port is the
    remote-port filter when that one is set; and so does [GetSS], whatever
    the interleaving of its goroutines: such are all entries it ever holds,
    in the shared list and in the goroutines. *)
Theorem GetSS_entries_match_port_filters ft st r e :
  reachable ft st → main st = MReturned r e →
  (∀ pid tp lport rport ents, getSSEntry pid tp lport rport = inl ents →
     Forall (λ x, (0 < lport → LocalPort x = lport)
                  ∧ (0 < rport → RemotePort x = rport)) ents)
  ∧ Forall (λ x, (0 < ftLocalPort ft → LocalPort x = ftLocalPort ft)
                 ∧ (0 < ftRemotePort ft → RemotePort x = ftRemotePort ft)) r
  ∧ Forall (λ x, (0 < ftLocalPort ft → LocalPort x = ftLocalPort ft)
                 ∧ (0 < ftRemotePort ft → RemotePort x = ftRemotePort ft))
           (sss st).
Proof.
  intros Hr Hm. destruct (holds_ok_reachable _ _ Hr) as (Hs & _ & Hret).
  split; [|split; [by eapply Hret | done]].
  intros pid tp lport rport ents. apply getSSEntry_ports.
Qed.

Lemma length_truncate ft l :
  0 < ftTopLimit ft → Z.of_nat (length (truncate ft l)) ≤ ftTopLimit ft.
Proof.
  intros Hpos. unfold truncate.
  destruct (0 <? ftTopLimit ft) eqn:H0; [|apply Z.ltb_ge in H0; lia].
  destruct (ftTopLimit ft <? Z.of_nat (length l)) eqn:Hlt; simpl.
  - rw length_take. lia.
  - apply Z.ltb_ge in Hlt. lia.
Qed.

(** What [GetSS] returns is within the cap. *)
Definition within_cap (ft : EntryFilter) (st : QState) : Prop :=
  ∀ r e, main st = MReturned r e → 0 < ftTopLimit ft →
         Z.of_nat (length r) ≤ ftTopLimit ft.

Lemma within_cap_reachable ft st : reachable ft st → within_cap ft st.
Proof.
  revert st. apply (rtc_ind_r (within_cap ft)); [|intros st1 st2 _ [a Ha] IH].
  - unfold GetSS_start.
    destruct (candidates ft) as [pids|];
      [destruct (0 <? _); [|destruct ListPIDs; [destruct GetUptime|]]|];
      intros r0 e0 Hm Hpos; simpl in Hm; try done;
      injection Hm as <- _; simpl; lia.
  - intros r e Hm Hpos. destruct a as [|i]; simpl in Ha.
    + destruct (main st1) as [up [|pid rest]| |] eqn:Hmain; try done.
      * injection Ha as <-. done.
      * injection Ha as <-. done.
      * destruct (wg st1 =? 0); [|done]. injection Ha as <-.
        simpl in Hm. injection Hm as <- _. by apply length_truncate.
    + destruct (workers st1 !! i) as [w|]; [|done].
      destruct (worker_step ft w (sss st1)) as [[pc sss']|]; [|done].
      injection Ha as <-. by eapply IH.
Qed.

(** *** The wait group *)

Definition is_returned (pc : worker_pc) : bool :=
  match pc with WReturned => true | _ => false end.

Definition pending (w : Worker) : nat :=
  if is_returned (wpc w) then 0%nat else 1%nat.

(** The goroutines that have not returned. *)
Definition unreturned (ws : list Worker) : nat := sum_list_with pending ws.

(** The goroutines started per candidate. *)
Definition per_pid (ft : EntryFilter) : nat :=
  ((if ftTCP ft then 1 else 0) + (if ftTCP6 ft then 1 else 0))%nat.

Definition to_spawn (m : main_pc) : nat :=
  match m with MSpawn _ rest => length rest | _ => 0%nat end.

(** With a protocol family enabled, the wait group counts the goroutines
    that have not returned and those still to be started. *)
Definition counted (ft : EntryFilter) (st : QState) : Prop :=
  wg st = Z.of_nat (unreturned (workers st) + per_pid ft * to_spawn (main st)).

(** A goroutine that matches program names has a [ProgramMatchFunc]. *)
Definition matchable (ft : EntryFilter) (st : QState) : Prop :=
  ftProgramMatchFunc ft = None →
  (∀ w, w ∈ workers st → wup w = None)
  ∧ (∀ up rest, main st = MSpawn (Some up) rest → rest = []).

Lemma wg_added_per_pid ft pids :
  ftTCP ft || ftTCP6 ft = true →
  wg_added ft pids = Z.of_nat (per_pid ft * length pids).
Proof. unfold wg_added, per_pid. destruct (ftTCP ft), (ftTCP6 ft); simpl; lia. Qed.

Lemma unreturned_spawned ft up pid : unreturned (spawned ft up pid) = per_pid ft.
Proof. unfold spawned, per_pid. by destruct (ftTCP ft), (ftTCP6 ft). Qed.

Lemma unreturned_insert ws i w w' :
  ws !! i = Some w →
  (unreturned (<[i := w']> ws) + pending w = unreturned ws + pending w')%nat.
Proof.
  revert i. induction ws as [|x ws IH]; intros [|i] Hi; simpl in *; try done.
  - injection Hi as ->. unfold unreturned. simpl. lia.
  - specialize (IH i Hi). unfold unreturned in *. simpl. lia.
Qed.

Lemma worker_step_pending ft w l pc l' :
  worker_step ft w l = Some (pc, l') → pending w = 1%nat.
Proof. unfold worker_step, pending. by destruct (wpc w). Qed.

Lemma counted_start ft :
  ftTCP ft || ftTCP6 ft = true → counted ft (GetSS_start ft).
Proof.
  intros H. unfold GetSS_start, counted.
  destruct (candidates ft) as [pids|];
    [destruct (0 <? _); [|destruct ListPIDs; [destruct GetUptime|]]|];
    simpl; rw ?wg_added_per_pid //; lia.
Qed.

Lemma counted_step ft st st' : counted ft st → step ft st st' → counted ft st'.
Proof.
  unfold counted. intros Hc [a Ha]. destruct a as [|i]; simpl in Ha.
  - destruct (main st) as [up [|pid rest]| |] eqn:Hmain; try done.
    + injection Ha as <-. simpl in *. lia.
    + injection Ha as <-. simpl in *.
      rw /unreturned sum_list_with_app -/(unreturned _) -/(unreturned _).
      rw unreturned_spawned Hc. lia.
    + destruct (wg st =? 0); [|done]. injection Ha as <-. by simpl in *.
  - destruct (workers st !! i) as [w|] eqn:Hi; [|done].
    destruct (worker_step ft w (sss st)) as [[pc sss']|] eqn:Hws; [|done].
    injection Ha as <-. simpl.
    pose proof (unreturned_insert _ _ _ (mkWorker (wpid w) (wtp w) (wup w) pc) Hi)
      as Hu.
    rw (worker_step_pending _ _ _ _ _ Hws) in Hu.
    unfold pending in Hu. simpl in Hu. destruct pc; simpl in *; lia.
Qed.

Lemma matchable_start ft : matchable ft (GetSS_start ft).
Proof.
  intros Hf. unfold GetSS_start, candidates. rw Hf.
  destruct (ftPID ft <? 1).
  - destruct ListPIDs as [pids|]; simpl.
    + destruct pids as [|p pids]; simpl.
      * destruct GetUptime; (split; [by intros w ?%elem_of_nil|]);
          by intros up0 rest [=].
      * split; [by intros w ?%elem_of_nil | by intros up0 rest [=]].
    + split; [by intros w ?%elem_of_nil | by intros up0 rest [=]].
  - simpl. split; [by intros w ?%elem_of_nil | by intros up0 rest [=]].
Qed.

Lemma matchable_step ft st st' :
  matchable ft st → step ft st st' → matchable ft st'.
Proof.
  intros Hm [a Ha] Hf. destruct (Hm Hf) as [Hw Hs].
  destruct a as [|i]; simpl in Ha.
  - destruct (main st) as [up [|pid rest]| |] eqn:Hmain; try done.
    + injection Ha as <-. split; [done | by intros ? ? [=]].
    + injection Ha as <-. simpl.
      destruct up as [up|]; [by specialize (Hs up _ eq_refl)|].
      split; [|by intros ? ? [=]].
      intros w [Hin|Hin]%elem_of_app; [by apply Hw|].
      unfold spawned in Hin. destruct (ftTCP ft), (ftTCP6 ft); simpl in Hin;
        repeat (apply elem_of_cons in Hin as [->|Hin]; [done|]);
        by apply elem_of_nil in Hin.
    + destruct (wg st =? 0); [|done]. injection Ha as <-.
      split; [done | by intros ? ? [=]].
  - destruct (workers st !! i) as [w|] eqn:Hi; [|done].
    destruct (worker_step ft w (sss st)) as [[pc sss']|] eqn:Hws; [|done].
    injection Ha as <-. simpl. split; [|done].
    intros w' Hw'. apply list_elem_of_lookup in Hw' as [j Hj].
    destruct (decide (i = j)) as [<-|Hij].
    + assert (Hlt : (i < length (workers st))%nat) by by eapply lookup_lt_Some.
      rw (list_lookup_insert_eq _ _ _ Hlt) in Hj. injection Hj as <-. simpl.
      apply Hw. by eapply list_elem_of_lookup_2.
    + rw list_lookup_insert_ne // in Hj.
      apply Hw. by eapply list_elem_of_lookup_2.
Qed.

Lemma counted_steps ft st st' :
  counted ft st → rtc (step ft) st st' → counted ft st'.
Proof. intros Hc Hs. induction Hs; eauto using counted_step. Qed.

Lemma matchable_steps ft st st' :
  matchable ft st → rtc (step ft) st st' → matchable ft st'.
Proof. intros Hc Hs. induction Hs; eauto using matchable_step. Qed.

(** *** [GetSS] returns when a protocol family is enabled *)

(** The steps a goroutine has left at most. *)
Definition rank (pc : worker_pc) : nat :=
  match pc with
  | WStart => 4 | WMatched => 3 | WGot _ | WPassed => 2 | WAppend _ => 1
  | WReturned => 0
  end%nat.

Lemma worker_step_progress ft w l :
  is_returned (wpc w) = false →
  (wup w = None ∨ is_Some (ftProgramMatchFunc ft)) →
  ∃ pc l', worker_step ft w l = Some (pc, l') ∧ (rank pc < rank (wpc w))%nat.
Proof.
  intros Hr Hf. unfold worker_step.
  destruct (wpc w) as [|ents| | |ents|] eqn:Hpc; try done;
    destruct (wup w) as [up|] eqn:Hup; simpl.
  - destruct Hf as [?|[f Hf]]; [done|]. rw Hf.
    destruct (GetStat _ _) as [stat|]; [destruct (f _)|];
      eexists _, _; (split; [done|]); simpl; lia.
  - destruct (getSSEntry _ _ _ _); eexists _, _; (split; [done|]); simpl; lia.
  - destruct (cap_reached _ _); eexists _, _; (split; [done|]); simpl; lia.
  - destruct (cap_reached _ _); eexists _, _; (split; [done|]); simpl; lia.
  - destruct (cap_reached _ _); eexists _, _; (split; [done|]); simpl; lia.
  - destruct (cap_reached _ _); eexists _, _; (split; [done|]); simpl; lia.
  - destruct (getSSEntry _ _ _ _); eexists _, _; (split; [done|]); simpl; lia.
  - destruct (getSSEntry _ _ _ _); eexists _, _; (split; [done|]); simpl; lia.
  - eexists _, _; (split; [done|]); simpl; lia.
  - eexists _, _; (split; [done|]); simpl; lia.
Qed.

Lemma worker_can_finish ft n st i w :
  matchable ft st → workers st !! i = Some w → (rank (wpc w) ≤ n)%nat →
  is_returned (wpc w) = false →
  ∃ st', rtc (step ft) st st' ∧ main st' = main st
         ∧ (unreturned (workers st') + 1 = unreturned (workers st))%nat.
Proof.
  revert st w. induction n as [|n IH]; intros st w Hm Hi Hn Hr.
  { destruct (wpc w); simpl in *; try lia. }
  assert (Hf : wup w = None ∨ is_Some (ftProgramMatchFunc ft)).
  { destruct (ftProgramMatchFunc ft) eqn:Hpm; [right; by eexists|left].
    destruct (Hm Hpm) as [Hw _]. apply Hw. by eapply list_elem_of_lookup_2. }
  destruct (worker_step_progress ft w (sss st) Hr Hf) as (pc & l' & Hws & Hlt).
  set (w1 := mkWorker (wpid w) (wtp w) (wup w) pc).
  set (st1 := mkQState l'
                (match pc with WReturned => wg st - 1 | _ => wg st end)
                (<[i := w1]> (workers st)) (main st)).
  assert (Hst : step ft st st1).
  { exists (Work i). by rw /= Hi Hws. }
  pose proof (unreturned_insert _ _ _ w1 Hi) as Hu.
  assert (Hpw : pending w = 1%nat) by by rw /pending Hr.
  destruct (is_returned pc) eqn:Hrp.
  - exists st1. split; [by apply rtc_once|]. split; [done|].
    simpl. rw Hpw /pending /= Hrp in Hu. lia.
  - destruct (IH st1 w1) as (st' & Hst' & Hmain & Hun).
    + by eapply matchable_step.
    + simpl. apply list_lookup_insert_eq. by eapply lookup_lt_Some.
    + simpl. lia.
    + done.
    + exists st'. split; [by eapply rtc_l|]. split; [by rw Hmain|].
      simpl in Hun. rw Hpw /pending /= Hrp in Hu. lia.
Qed.

Lemma unreturned_pos ws :
  (0 < unreturned ws)%nat →
  ∃ i w, ws !! i = Some w ∧ is_returned (wpc w) = false.
Proof.
  induction ws as [|x ws IH]; simpl; [unfold unreturned; simpl; lia|].
  intros Hpos. destruct (is_returned (wpc x)) eqn:Hx.
  - destruct IH as (i & w & Hi & Hw).
    { revert Hpos. rw /unreturned /= /pending Hx. done. }
    by exists (S i), w.
  - by exists 0%nat, x.
Qed.

Lemma workers_can_finish ft k st :
  matchable ft st → unreturned (workers st) = k →
  ∃ st', rtc (step ft) st st' ∧ main st' = main st
         ∧ unreturned (workers st') = 0%nat.
Proof.
  revert st. induction k as [|k IH]; intros st Hm Hk; [by exists st|].
  destruct (unreturned_pos (workers st)) as (i & w & Hi & Hw); [lia|].
  destruct (worker_can_finish ft _ st i w Hm Hi (le_n _) Hw)
    as (st1 & Hst1 & Hmain1 & Hun1).
  destruct (IH st1) as (st' & Hst' & Hmain' & Hun').
  - by eapply matchable_steps.
  - lia.
  - exists st'. split; [by etrans|]. split; [by rw Hmain'|done].
Qed.

Lemma spawn_loop_ends ft rest : ∀ st up,
  main st = MSpawn up rest → ∃ st', rtc (step ft) st st' ∧ main st' = MWait.
Proof.
  induction rest as [|pid rest IH]; intros st up Hm.
  - eexists. split; [|shelve].
    apply rtc_once. exists Main. rw /= Hm //. Unshelve. done.
  - destruct (IH (mkQState (sss st) (wg st) (workers st ++ spawned ft up pid)
                           (MSpawn up rest)) up eq_refl) as (st' & Hst' & Hm').
    exists st'. split; [|done]. eapply rtc_l; [|done].
    exists Main. rw /= Hm //.
Qed.

Lemma GetSS_can_return ft st :
  ftTCP ft || ftTCP6 ft = true → reachable ft st →
  ∃ st' r e, rtc (step ft) st st' ∧ main st' = MReturned r e.
Proof.
  intros Hfam Hr.
  assert (Hc : counted ft st).
  { eapply counted_steps; [|exact Hr]. by apply counted_start. }
  assert (Hm : matchable ft st).
  { eapply matchable_steps; [|exact Hr]. apply matchable_start. }
  assert (Hwait : ∀ st1, counted ft st1 → matchable ft st1 → main st1 = MWait →
            ∃ st' r e, rtc (step ft) st1 st' ∧ main st' = MReturned r e).
  { intros st1 Hc1 Hm1 Hw1.
    destruct (workers_can_finish ft _ st1 Hm1 eq_refl) as (st2 & Hst2 & Hm2 & Hu2).
    pose proof (counted_steps _ _ _ Hc1 Hst2) as Hc2.
    rw /counted Hu2 Hm2 Hw1 /= in Hc2.
    exists (mkQState (sss st2) (wg st2) (workers st2)
                     (MReturned (truncate ft (sss st2)) None)),
           (truncate ft (sss st2)), None.
    split; [|done].
    etrans; [exact Hst2|]. apply rtc_once. exists Main.
    rw /= Hm2 Hw1. destruct (wg st2 =? 0) eqn:E; [done|].
    apply Z.eqb_neq in E. lia. }
  destruct (main st) as [up rest| |r e] eqn:Hmain.
  - destruct (spawn_loop_ends ft rest st up Hmain) as (st1 & Hst1 & Hm1).
    destruct (Hwait st1) as (st' & r & e & Hst' & Hret); try done.
    + by eapply counted_steps.
    + by eapply matchable_steps.
    + exists st', r, e. split; [by etrans | done].
  - by apply Hwait.
  - by exists st, r, e.
Qed.

(** C5: whatever the interleaving of the goroutines, when the cap
    [TopLimit] is positive the slice that [GetSS] returns has at most
    [TopLimit] entries; it is the shared list cut at line 426.  And [GetSS]
    does return when a protocol family is enabled: from every state it
    reaches, a state where it has returned can be reached. *)
Theorem GetSS_result_within_cap ft st :
  0 < ftTopLimit ft → reachable ft st →
  (∀ r e, main st = MReturned r e → Z.of_nat (length r) ≤ ftTopLimit ft)
  ∧ (∀ st', step_fn ft Main st = Some st' → main st = MWait →
       main st' = MReturned (take (Z.to_nat (ftTopLimit ft)) (sss st)) None)
  ∧ (ftTCP ft || ftTCP6 ft = true →
       ∃ st' r e, rtc (step ft) st st' ∧ main st' = MReturned r e
                  ∧ Z.of_nat (length r) ≤ ftTopLimit ft).
Proof.
  intros Hpos Hr. split; [|split].
  - intros r e Hm. by eapply within_cap_reachable.
  - intros st' Hst Hm. revert Hst. rw /= Hm.
    destruct (wg st =? 0); [|done]. intros [= <-]. simpl. f_equal.
    unfold truncate.
    destruct (0 <? ftTopLimit ft) eqn:H0; [|apply Z.ltb_ge in H0; lia].
    destruct (ftTopLimit ft <? Z.of_nat (length (sss st))) eqn:Hlt; [done|].
    simpl. apply Z.ltb_ge in Hlt. rw take_ge //. lia.
  - intros Hfam. destruct (GetSS_can_return ft st Hfam Hr) as (st' & r & e & Hst & Hm).
    exists st', r, e. split; [done|]. split; [done|].
    eapply within_cap_reachable; [|done..]. unfold reachable in *. by etrans.
Qed.

(** *** [GetSS] with both protocol families disabled *)

(** C9: when the candidates are known and not empty, and neither [TCP] nor
    [TCP6] is set, [GetSS] adds the number of candidates to the wait group
    and starts no goroutine: in every state it reaches no goroutine exists,
    the counter of the wait group is still that positive number, and
    [GetSS] has not returned; it does reach [wg.Wait()], and there no step is
    possible any more. *)
Theorem GetSS_without_protocol_never_returns ft pids st :
  ftTCP ft = false → ftTCP6 ft = false →
  candidates ft = inl pids → pids ≠ [] →
  reachable ft st →
  workers st = []
  ∧ wg st = Z.of_nat (length pids) ∧ 0 < wg st
  ∧ (∀ r e, main st ≠ MReturned r e)
  ∧ (main st = MWait → ∀ a, step_fn ft a st = None)
  ∧ (∃ st', rtc (step ft) st st' ∧ main st' = MWait).
Proof.
  intros Htcp Htcp6 Hcand Hne Hr.
  assert (Hlen : 0 < Z.of_nat (length pids)).
  { destruct pids; [done | simpl; lia]. }
  assert (Hinv : workers st = [] ∧ wg st = Z.of_nat (length pids)
                 ∧ (main st = MWait ∨ ∃ rest, main st = MSpawn None rest)).
  { revert st Hr.
    apply (rtc_ind_r (λ st, workers st = [] ∧ wg st = Z.of_nat (length pids)
             ∧ (main st = MWait ∨ ∃ rest, main st = MSpawn None rest))).
    - unfold GetSS_start. rw Hcand.
      destruct (0 <? Z.of_nat (length pids)) eqn:Hpos;
        [|apply Z.ltb_ge in Hpos; lia].
      simpl. split; [done|]. split; [|eauto].
      rw /wg_added Htcp /=. lia.
    - intros st1 st2 _ [a Ha] (Hw & Hg & Hm).
      destruct a as [|i]; simpl in Ha.
      + destruct Hm as [Hm|[rest Hm]]; rw Hm in Ha.
        * destruct (wg st1 =? 0) eqn:E; [apply Z.eqb_eq in E; lia | done].
        * destruct rest as [|pid rest]; injection Ha as <-; simpl.
          -- eauto.
          -- rw Hw /spawned Htcp Htcp6 /=. eauto.
      + by rw Hw in Ha. }
  destruct Hinv as (Hw & Hg & Hm).
  split; [done|]. split; [done|]. split; [lia|]. split; [|split].
  - intros r e Hret. destruct Hm as [Hm|[rest Hm]]; by rw Hm in Hret.
  - intros Hwait [|i]; simpl.
    + rw Hwait. destruct (wg st =? 0) eqn:E; [apply Z.eqb_eq in E; lia | done].
    + by rw Hw.
  - destruct Hm as [Hm|[rest Hm]]; [by exists st|].
    by eapply spawn_loop_ends.
Qed.

(** *** What [getSSEntry] returns *)

(** A socket that passes the port filters of lines 446-451. *)
Definition passes (lport rport : Z) (elem : NetTCP) : Prop :=
  (0 < lport → LocalAddressParsedIPPort elem = lport)
  ∧ (0 < rport → RemAddressParsedIPPort elem = rport).

#[global] Instance passes_dec lport rport elem : Decision (passes lport rport elem).
Proof. unfold passes. apply _. Defined.

(** The entry of lines 452-466 for the socket [elem] and its user [u]. *)
Definition entry_of (pid : Z) (pname : string) (elem : NetTCP) (u : User)
    : SSEntry :=
  mkSSEntry (Type_ elem) pname (StParsedStatus elem) pid
            (LocalAddressParsedIPHost elem) (LocalAddressParsedIPPort elem)
            (RemAddressParsedIPHost elem) (RemAddressParsedIPPort elem) u.

(** [x] is the entry of [elem]. *)
Definition is_entry_of (pid : Z) (pname : string) (elem : NetTCP)
    (x : SSEntry) : Prop :=
  ∃ u, LookupId (Uid elem) = inl u ∧ x = entry_of pid pname elem u.

(** The user of every socket before [elem] was found and that of [elem] was
    not. *)
Definition first_lookup_failure (nss : list NetTCP) (e : error) : Prop :=
  ∃ l1 elem l2, nss = l1 ++ elem :: l2
    ∧ Forall (λ x, ∃ u, LookupId (Uid x) = inl u) l1
    ∧ LookupId (Uid elem) = inr e.

Lemma getSSEntry_loop_step pid pname lport rport elem nss acc :
  getSSEntry_loop pid pname lport rport (elem :: nss) acc
  = match LookupId (Uid elem) with
    | inr uerr => inr uerr
    | inl u =>
        getSSEntry_loop pid pname lport rport nss
          (if decide (passes lport rport elem)
           then acc ++ [entry_of pid pname elem u] else acc)
    end.
Proof.
  simpl. destruct (LookupId (Uid elem)) as [u|]; [|done].
  case_decide as Hp.
  - destruct Hp as [Hp1 Hp2].
    destruct (Z.ltb_spec 0 lport) as [Hl|Hl];
      destruct (Z.ltb_spec 0 rport) as [Hr|Hr]; simpl;
      try (destruct (Z.eqb_spec lport (LocalAddressParsedIPPort elem));
           [simpl | exfalso; lia]);
      try (destruct (Z.eqb_spec rport (RemAddressParsedIPPort elem));
           [simpl | exfalso; lia]);
      done.
  - destruct (Z.ltb_spec 0 lport) as [Hl|Hl]; simpl.
    + destruct (Z.eqb_spec lport (LocalAddressParsedIPPort elem)) as [Hle|Hle];
        simpl; [|done].
      destruct (Z.ltb_spec 0 rport) as [Hr|Hr]; simpl.
      * destruct (Z.eqb_spec rport (RemAddressParsedIPPort elem)) as [Hre|Hre];
          simpl; [|done].
        by destruct Hp.
      * destruct Hp. split; [done | lia].
    + destruct (Z.ltb_spec 0 rport) as [Hr|Hr]; simpl.
      * destruct (Z.eqb_spec rport (RemAddressParsedIPPort elem)) as [Hre|Hre];
          simpl; [|done].
        destruct Hp. split; [lia | done].
      * destruct Hp. split; lia.
Qed.

Lemma getSSEntry_loop_spec pid pname lport rport nss : ∀ acc,
  match getSSEntry_loop pid pname lport rport nss acc with
  | inl ents =>
      ∃ new, ents = acc ++ new
        ∧ Forall2 (is_entry_of pid pname) (filter (passes lport rport) nss) new
        ∧ Forall (λ x, ∃ u, LookupId (Uid x) = inl u) nss
  | inr e => first_lookup_failure nss e
  end.
Proof.
  induction nss as [|elem nss IH]; intros acc.
  - simpl. exists []. rw app_nil_r. by repeat split.
  - rw getSSEntry_loop_step.
    destruct (LookupId (Uid elem)) as [u|e] eqn:Hu.
    + specialize (IH (if decide (passes lport rport elem)
                      then acc ++ [entry_of pid pname elem u] else acc)).
      destruct (getSSEntry_loop _ _ _ _ nss _) as [ents|e].
      * destruct IH as (new & -> & Hnew & Hall).
        case_decide as Hp.
        -- exists (entry_of pid pname elem u :: new). rw -app_assoc /=.
           split; [done|]. split; [|constructor; eauto].
           rw filter_cons_True //. constructor; [by exists u | done].
        -- exists new. split; [done|]. split; [|constructor; eauto].
           by rw filter_cons_False.
      * destruct IH as (l1 & x & l2 & -> & Hl1 & Hx).
        exists (elem :: l1), x, l2. split; [done|]. split; [|done].
        constructor; eauto.
    + exists [], elem, nss. by repeat split.
Qed.

(** X10: [getSSEntry] succeeds exactly when the socket table and the program
    name are read and the user of every socket is found, and then it returns
    the entries of the sockets that pass the port filters, one per socket and
    in the order of the table, each with the given process id and the program
    name.  Otherwise it returns the first error met: that of [GetNetTCP],
    else that of [GetProgram], else that of the first user lookup that
    fails, be it for a socket that the port filters would drop. *)
Theorem getSSEntry_returns_the_filtered_table pid tp lport rport :
  match getSSEntry pid tp lport rport with
  | inl ents =>
      ∃ nss pname, GetNetTCP pid tp = inl nss ∧ GetProgram pid = inl pname
        ∧ Forall2 (is_entry_of pid pname) (filter (passes lport rport) nss) ents
        ∧ Forall (λ x, ∃ u, LookupId (Uid x) = inl u) nss
  | inr e =>
      GetNetTCP pid tp = inr e
      ∨ ∃ nss, GetNetTCP pid tp = inl nss
          ∧ (GetProgram pid = inr e
             ∨ (∃ pname, GetProgram pid = inl pname)
               ∧ first_lookup_failure nss e)
  end.
Proof.
  unfold getSSEntry. destruct (GetNetTCP pid tp) as [nss|e]; [|by left].
  destruct (GetProgram pid) as [pname|e] eqn:Hp; [|right; exists nss; eauto].
  pose proof (getSSEntry_loop_spec pid pname lport rport nss []) as Hl.
  destruct (getSSEntry_loop _ _ _ _ _ _) as [ents|e].
  - destruct Hl as (new & -> & Hnew & Hall). by exists nss, pname.
  - right. exists nss. split; [done|]. right. split; [by exists pname | done].
Qed.

(** *** Where the entries of [GetSS] come from *)

(** The entries one call of [getSSEntry] by a goroutine yields: none when it
    fails (lines 305-308, 327-330, 380-383, 411-414). *)
Definition contrib (ft : EntryFilter) (pid : Z) (tp : TransportProtocol)
    : list SSEntry :=
  match getSSEntry pid tp (ftLocalPort ft) (ftRemotePort ft) with
  | inl ents => ents
  | inr _ => []
  end.

(** The test of lines 362-370 and 393-401: the stat of the process is read
    and its command name matches. *)
Definition name_matches (ft : EntryFilter) (pid : Z) (up : Uptime) : bool :=
  match GetStat pid up, ftProgramMatchFunc ft with
  | inl stat, Some f => f (Comm stat)
  | _, _ => false
  end.

(** The entries a goroutine is still to append when no cap stops it. *)
Definition owed (ft : EntryFilter) (w : Worker) : list SSEntry :=
  match wpc w with
  | WStart =>
      match wup w with
      | None => contrib ft (wpid w) (wtp w)
      | Some up =>
          if name_matches ft (wpid w) up then contrib ft (wpid w) (wtp w)
          else []
      end
  | WGot ents | WAppend ents => ents
  | WMatched | WPassed => contrib ft (wpid w) (wtp w)
  | WReturned => []
  end.

(** The goroutines still to be started. *)
Definition to_start (ft : EntryFilter) (m : main_pc) : list Worker :=
  match m with
  | MSpawn up rest => rest ≫= spawned ft up
  | _ => []
  end.

(** The entries appended so far and those still to come. *)
Definition outstanding (ft : EntryFilter) (st : QState) : list SSEntry :=
  sss st ++ (workers st ≫= owed ft) ++ (to_start ft (main st) ≫= owed ft).

(** What a [GetSS] without a cap collects: for each candidate and each
    enabled family, in the order of the [for] loop, the entries of
    [getSSEntry]. *)
Definition expected (ft : EntryFilter) : list SSEntry :=
  outstanding ft (GetSS_start ft).

Definition enabled (ft : EntryFilter) (tp : TransportProtocol) : bool :=
  match tp with TypeTCP => ftTCP ft | TypeTCP6 => ftTCP6 ft end.

(** What one candidate gives: the entries of its enabled families, IPv4
    first. *)
Definition yield (ft : EntryFilter) (pid : Z) : list SSEntry :=
  (if ftTCP ft then contrib ft pid TypeTCP else [])
  ++ (if ftTCP6 ft then contrib ft pid TypeTCP6 else []).

Lemma spawned_owed ft up pid :
  spawned ft up pid ≫= owed ft
  = match up with
    | None => yield ft pid
    | Some u => if name_matches ft pid u then yield ft pid else []
    end.
Proof.
  unfold spawned, yield, owed.
  destruct up as [u|]; [destruct (name_matches ft pid u) eqn:Hn|];
    destruct (ftTCP ft), (ftTCP6 ft); simpl; rw ?Hn ?app_nil_r //.
Qed.

(** With the candidates known, [expected] is what they give, in order. *)
Lemma expected_known ft pids :
  candidates ft = inl pids → pids ≠ [] → expected ft = pids ≫= yield ft.
Proof.
  intros Hc Hne. rw /expected /outstanding /GetSS_start Hc.
  destruct (Z.ltb_spec 0 (Z.of_nat (length pids))) as [_|Hlen];
    [|destruct pids; [done | simpl in Hlen; lia]].
  simpl. clear Hc Hne. induction pids as [|pid pids IH]; [done|].
  by rw !bind_cons bind_app IH spawned_owed.
Qed.

(** With the candidates found by program name, [expected] is what the
    listed processes with a matching name give, in order. *)
Lemma expected_by_name ft ps up :
  candidates ft = inl [] → ListPIDs = inl ps → GetUptime = inl up →
  expected ft
  = ps ≫= λ pid, if name_matches ft pid up then yield ft pid else [].
Proof.
  intros Hc Hps Hup. rw /expected /outstanding /GetSS_start Hc /= Hps Hup /=.
  clear Hc Hps. induction ps as [|pid ps IH]; [done|].
  by rw !bind_cons bind_app IH spawned_owed.
Qed.

Lemma worker_step_owed ft w l pc l' :
  worker_step ft w l = Some (pc, l') →
  l' ++ owed ft (mkWorker (wpid w) (wtp w) (wup w) pc) = l ++ owed ft w
  ∨ (0 < ftTopLimit ft ∧ l' = l ∧ pc = WReturned).
Proof.
  unfold worker_step, owed, name_matches, contrib, cap_reached. simpl.
  destruct (wpc w) as [|ents0| | |ents0|] eqn:Hpc;
    destruct (wup w) as [up|] eqn:Hup; simpl; try done.
  - destruct (GetStat _ _) as [stat|]; [|intros [= <- <-]; by left].
    destruct (ftProgramMatchFunc ft) as [f|]; [|done].
    destruct (f _); intros [= <- <-]; by left.
  - destruct (getSSEntry _ _ _ _); intros [= <- <-]; by left.
  - destruct (Z.ltb_spec 0 (ftTopLimit ft)); simpl;
      [destruct (_ <=? _)|]; intros [= <- <-]; try (by left); by right.
  - destruct (Z.ltb_spec 0 (ftTopLimit ft)); simpl;
      [destruct (_ <=? _)|]; intros [= <- <-]; try (by left); by right.
  - destruct (Z.ltb_spec 0 (ftTopLimit ft)); simpl;
      [destruct (_ <=? _)|]; intros [= <- <-]; try (by left); by right.
  - destruct (Z.ltb_spec 0 (ftTopLimit ft)); simpl;
      [destruct (_ <=? _)|]; intros [= <- <-]; try (by left); by right.
  - destruct (getSSEntry _ _ _ _); intros [= <- <-]; by left.
  - destruct (getSSEntry _ _ _ _); intros [= <- <-]; by left.
  - intros [= <- <-]. left. by rw app_nil_r.
  - intros [= <- <-]. left. by rw app_nil_r.
Qed.

(** A step appends what was owed, or drops it at a cap check. *)
Lemma step_outstanding ft st st' :
  step ft st st' →
  outstanding ft st' ⊆+ outstanding ft st
  ∧ (ftTopLimit ft ≤ 0 → outstanding ft st' ≡ₚ outstanding ft st).
Proof.
  intros [a Ha]. destruct a as [|i]; simpl in Ha.
  - assert (Heq : outstanding ft st' = outstanding ft st); [|by rw Heq].
    unfold outstanding.
    destruct (main st) as [up [|pid rest]| |] eqn:Hmain; try done.
    + injection Ha as <-. by simpl.
    + injection Ha as <-. simpl. by rw !bind_app -!app_assoc.
    + destruct (wg st =? 0); [|done]. injection Ha as <-. by simpl.
  - destruct (workers st !! i) as [w|] eqn:Hi; [|done].
    destruct (worker_step ft w (sss st)) as [[pc l']|] eqn:Hws; [|done].
    injection Ha as <-. unfold outstanding. simpl.
    assert (Hlt : (i < length (workers st))%nat) by by eapply lookup_lt_Some.
    set (A := take i (workers st) ≫= owed ft).
    set (B := drop (S i) (workers st) ≫= owed ft).
    set (T := to_start ft (main st) ≫= owed ft).
    assert (Hold : workers st ≫= owed ft = A ++ owed ft w ++ B).
    { by rw -{1}(take_drop_middle _ _ _ Hi) bind_app bind_cons. }
    assert (Hnew : <[i:=mkWorker (wpid w) (wtp w) (wup w) pc]> (workers st)
                     ≫= owed ft
                   = A ++ owed ft (mkWorker (wpid w) (wtp w) (wup w) pc) ++ B).
    { by rw insert_take_drop // bind_app bind_cons. }
    rw Hold Hnew.
    destruct (worker_step_owed _ _ _ _ _ Hws) as [Heq|(Hpos & -> & ->)].
    + assert (Hp : l' ++ (A ++ owed ft (mkWorker (wpid w) (wtp w) (wup w) pc)
                            ++ B) ++ T
                   ≡ₚ sss st ++ (A ++ owed ft w ++ B) ++ T).
      { trans ((l' ++ owed ft (mkWorker (wpid w) (wtp w) (wup w) pc))
               ++ A ++ B ++ T); [solve_Permutation|].
        rw Heq. solve_Permutation. }
      by rw Hp.
    + split; [|lia]. simpl. solve_submseteq.
Qed.

Lemma outstanding_reachable ft st :
  reachable ft st →
  outstanding ft st ⊆+ expected ft
  ∧ (ftTopLimit ft ≤ 0 → outstanding ft st ≡ₚ expected ft).
Proof.
  revert st. apply (rtc_ind_r (λ st, outstanding ft st ⊆+ expected ft
    ∧ (ftTopLimit ft ≤ 0 → outstanding ft st ≡ₚ expected ft))); [done|].
  intros st1 st2 _ Hst [IH1 IH2].
  destruct (step_outstanding _ _ _ Hst) as [H1 H2].
  split; [by etrans | intros Hcap; by rw (H2 Hcap) (IH2 Hcap)].
Qed.

Lemma pending_le_unreturned ws i w :
  ws !! i = Some w → (pending w ≤ unreturned ws)%nat.
Proof.
  intros Hi.
  pose proof (unreturned_insert _ _ _ (mkWorker 0 TypeTCP None WReturned) Hi)
    as Hu.
  unfold pending at 2 in Hu. simpl in Hu. lia.
Qed.

Lemma unreturned_owed ft ws : unreturned ws = 0%nat → ws ≫= owed ft = [].
Proof.
  induction ws as [|w ws IH]; [done|].
  rw bind_cons /unreturned /= -/(unreturned ws). intros Hu.
  rw IH; [|lia]. rw app_nil_r. unfold pending, owed in *.
  destruct (wpc w); simpl in *; try lia; done.
Qed.

(** How [GetSS] has returned: before its loops with an error, or from line
    428 with the shared list cut to the cap and every goroutine returned. *)
Definition returned_well (ft : EntryFilter) (st : QState) : Prop :=
  Z.of_nat (unreturned (workers st) + per_pid ft * to_spawn (main st)) ≤ wg st
  ∧ ∀ r e, main st = MReturned r e →
      match e with
      | Some _ => st = GetSS_start ft ∧ r = []
      | None => r = truncate ft (sss st) ∧ unreturned (workers st) = 0%nat
      end.

Lemma returned_well_reachable ft st : reachable ft st → returned_well ft st.
Proof.
  revert st. apply (rtc_ind_r (returned_well ft)).
  - unfold returned_well, GetSS_start, wg_added, per_pid.
    destruct (candidates ft) as [pids|];
      [destruct (0 <? _); [|destruct ListPIDs; [destruct GetUptime|]]|];
      simpl; (split; [destruct (ftTCP ft), (ftTCP6 ft); simpl; lia|]);
      intros r0 e0 [=]; by subst.
  - intros st1 st2 _ [a Ha] [Hc Hret]. destruct a as [|i]; simpl in Ha.
    + destruct (main st1) as [up [|pid rest]| |] eqn:Hmain; try done.
      * injection Ha as <-. split; [simpl in *; lia | done].
      * injection Ha as <-. split; [|done]. simpl in *.
        rw /unreturned sum_list_with_app -/(unreturned _) -/(unreturned _).
        rw unreturned_spawned. lia.
      * destruct (Z.eqb_spec (wg st1) 0) as [Hz|]; [|done].
        injection Ha as <-. split; [by simpl in *|].
        simpl. intros r e [= <- <-]. split; [done|]. simpl in Hc. lia.
    + destruct (workers st1 !! i) as [w|] eqn:Hi; [|done].
      destruct (worker_step ft w (sss st1)) as [[pc l']|] eqn:Hws; [|done].
      injection Ha as <-.
      pose proof (unreturned_insert _ _ _
        (mkWorker (wpid w) (wtp w) (wup w) pc) Hi) as Hu.
      pose proof (worker_step_pending _ _ _ _ _ Hws) as Hp.
      pose proof (pending_le_unreturned _ _ _ Hi) as Hle.
      rw Hp in Hu. split.
      * simpl. unfold pending in Hu. simpl in Hu. destruct pc; simpl in *; lia.
      * simpl. intros r e Hm. specialize (Hret r e Hm).
        destruct e as [err|].
        -- destruct Hret as [-> _]. exfalso. revert Hi.
           unfold GetSS_start.
           by destruct (candidates ft) as [pids|];
             [destruct (0 <? _); [|destruct ListPIDs; [destruct GetUptime|]]|].
        -- destruct Hret as [_ Hz]. lia.
Qed.

(** X11: without a cap ([TopLimit] not positive), whatever the interleaving,
    the result of a [GetSS] that returns without error is a permutation of
    everything the calls of [getSSEntry] give: no entry is lost, and the
    failed calls alone are left out.  With the candidates known these are
    the entries of every candidate for every enabled family; with the
    candidates found by program name, those of every listed process whose
    stat is read and whose command name matches. *)
Theorem GetSS_without_cap_returns_every_entry ft st r :
  ftTopLimit ft ≤ 0 → reachable ft st → main st = MReturned r None →
  r ≡ₚ expected ft
  ∧ (∀ pids, candidates ft = inl pids → pids ≠ [] → r ≡ₚ pids ≫= yield ft)
  ∧ (∀ ps up, candidates ft = inl [] → ListPIDs = inl ps →
       GetUptime = inl up →
       r ≡ₚ ps ≫= λ pid, if name_matches ft pid up then yield ft pid else []).
Proof.
  intros Hcap Hr Hm.
  destruct (returned_well_reachable _ _ Hr) as [_ Hret].
  destruct (Hret r None Hm) as [-> Hz].
  destruct (outstanding_reachable _ _ Hr) as [_ Hperm].
  assert (He : truncate ft (sss st) ≡ₚ expected ft).
  { rw -(Hperm Hcap) /outstanding Hm /= (unreturned_owed _ _ Hz) !app_nil_r.
    unfold truncate. destruct (Z.ltb_spec 0 (ftTopLimit ft)); [lia | done]. }
  split; [done|]. split.
  - intros pids Hc Hne. by rw He (expected_known _ _ Hc Hne).
  - intros ps up Hc Hps Hup. by rw He (expected_by_name _ _ _ Hc Hps Hup).
Qed.


Lemma getSSEntry_pid pid tp lport rport ents :
  getSSEntry pid tp lport rport = inl ents → Forall (λ x, PID x = pid) ents.
Proof.
  unfold getSSEntry. destruct (GetNetTCP pid tp) as [nss|]; [|done].
  destruct (GetProgram pid) as [pname|]; [|done]. intros Hl.
  pose proof (getSSEntry_loop_spec pid pname lport rport nss []) as Hs.
  rw Hl in Hs. destruct Hs as (new & -> & Hnew & _). simpl. clear Hl.
  induction Hnew as [|elem x l new (u & _ & ->) _ IH]; by constructor.
Qed.

Lemma elem_of_spawned ft up pid w :
  w ∈ spawned ft up pid →
  ∃ tp, enabled ft tp = true ∧ w = mkWorker pid tp up WStart.
Proof.
  unfold spawned. intros [Hw|Hw]%elem_of_app.
  - destruct (ftTCP ft) eqn:Ht; [|by apply elem_of_nil in Hw].
    apply list_elem_of_singleton in Hw as ->. by exists TypeTCP.
  - destruct (ftTCP6 ft) eqn:Ht; [|by apply elem_of_nil in Hw].
    apply list_elem_of_singleton in Hw as ->. by exists TypeTCP6.
Qed.

(** [x] is an entry that [getSSEntry] yields for a candidate and an enabled
    family: a process of the known candidates, or, when these are found by
    program name, a listed process whose command name matches. *)
Definition comes_from (ft : EntryFilter) (x : SSEntry) : Prop :=
  ∃ tp ents, enabled ft tp = true
    ∧ getSSEntry (PID x) tp (ftLocalPort ft) (ftRemotePort ft) = inl ents
    ∧ x ∈ ents
    ∧ ((∃ ps, candidates ft = inl ps ∧ PID x ∈ ps)
       ∨ (candidates ft = inl []
          ∧ ∃ ps up stat f, ListPIDs = inl ps ∧ PID x ∈ ps
              ∧ GetUptime = inl up ∧ GetStat (PID x) up = inl stat
              ∧ ftProgramMatchFunc ft = Some f ∧ f (Comm stat) = true)).

Lemma elem_of_contrib ft pid tp x :
  x ∈ contrib ft pid tp →
  PID x = pid
  ∧ ∃ ents, getSSEntry pid tp (ftLocalPort ft) (ftRemotePort ft) = inl ents
            ∧ x ∈ ents.
Proof.
  unfold contrib.
  destruct (getSSEntry _ _ _ _) as [ents|] eqn:Hg; [|by intros ?%elem_of_nil].
  intros Hx. split; [|by exists ents].
  pose proof (getSSEntry_pid _ _ _ _ _ Hg) as Hp.
  by apply (proj1 (Forall_forall _ _) Hp).
Qed.

Lemma expected_comes_from ft x : x ∈ expected ft → comes_from ft x.
Proof.
  unfold expected, outstanding, GetSS_start.
  destruct (candidates ft) as [pids|] eqn:Hc; [|by intros ?%elem_of_nil].
  destruct (Z.ltb_spec 0 (Z.of_nat (length pids))) as [Hlen|Hlen]; simpl.
  - intros (w & Hx & (pid & Hw & Hpid)%list_elem_of_bind)%list_elem_of_bind.
    apply elem_of_spawned in Hw as (tp & Htp & ->).
    apply elem_of_contrib in Hx as (Hp & ents & Hg & Hx). simpl in *.
    exists tp, ents. rw Hp. do 3 (split; [done|]). left. by exists pids.
  - assert (pids = []) as -> by (destruct pids; [done | simpl in Hlen; lia]).
    destruct ListPIDs as [ps|] eqn:Hps; [|by intros ?%elem_of_nil].
    destruct GetUptime as [up|] eqn:Hup; [|by intros ?%elem_of_nil]. simpl.
    intros (w & Hx & (pid & Hw & Hpid)%list_elem_of_bind)%list_elem_of_bind.
    apply elem_of_spawned in Hw as (tp & Htp & ->).
    revert Hx. rw /owed /= /name_matches.
    destruct (GetStat pid up) as [stat|] eqn:Hst; [|by intros ?%elem_of_nil].
    destruct (ftProgramMatchFunc ft) as [f|] eqn:Hf; [|by intros ?%elem_of_nil].
    destruct (f (Comm stat)) eqn:Hm; [|by intros ?%elem_of_nil].
    intros (Hp & ents & Hg & Hx)%elem_of_contrib.
    exists tp, ents. rw Hp. do 3 (split; [done|]). right. split; [done|].
    by exists ps, up, stat, f.
Qed.

Lemma returned_part_of_expected ft st r e :
  reachable ft st → main st = MReturned r e → r ⊆+ expected ft.
Proof.
  intros Hr Hm.
  destruct (returned_well_reachable _ _ Hr) as [_ Hret].
  specialize (Hret r e Hm). destruct e as [err|].
  - destruct Hret as [_ ->]. apply submseteq_nil_l.
  - destruct Hret as [-> _].
    destruct (outstanding_reachable _ _ Hr) as [Hsub _].
    etrans; [|exact Hsub]. unfold outstanding.
    trans (sss st); [|by apply submseteq_inserts_r].
    unfold truncate. destruct (_ && _); [|done].
    apply sublist_submseteq, sublist_take.
Qed.

(** X12: whatever the interleaving, [GetSS] returns no entry that
    [getSSEntry] did not yield for a candidate, and none more often than it
    was yielded: the result, and the shared list at any time, are, as
    multisets, part of what the calls of [getSSEntry] for the candidates and
    the enabled families give, a failed call giving nothing. *)
Theorem GetSS_result_is_part_of_the_yield ft st :
  reachable ft st →
  sss st ⊆+ expected ft
  ∧ ∀ r e, main st = MReturned r e → r ⊆+ expected ft.
Proof.
  intros Hr. split; [|intros r e; by apply returned_part_of_expected].
  destruct (outstanding_reachable _ _ Hr) as [Hsub _].
  etrans; [|exact Hsub]. by apply submseteq_inserts_r.
Qed.

(** X13: every entry that [GetSS] returns is one that [getSSEntry] yields
    for the entry's own process id and an enabled protocol family; that
    process is one of the known candidates or, when the candidates are found
    by program name, a listed process whose stat was read and whose command
    name the match function accepts. *)
Theorem GetSS_entries_come_from_candidates ft st r e :
  reachable ft st → main st = MReturned r e →
  Forall (λ x,
    ∃ tp ents, (match tp with TypeTCP => ftTCP ft | TypeTCP6 => ftTCP6 ft end)
               = true
      ∧ getSSEntry (PID x) tp (ftLocalPort ft) (ftRemotePort ft) = inl ents
      ∧ x ∈ ents
      ∧ ((∃ ps, candidates ft = inl ps ∧ PID x ∈ ps)
         ∨ (candidates ft = inl []
            ∧ ∃ ps up stat f, ListPIDs = inl ps ∧ PID x ∈ ps
                ∧ GetUptime = inl up ∧ GetStat (PID x) up = inl stat
                ∧ ftProgramMatchFunc ft = Some f ∧ f (Comm stat) = true))) r.
Proof.
  intros Hr Hm. apply Forall_forall. intros x Hx.
  apply (expected_comes_from ft x).
  eapply elem_of_submseteq; [exact Hx|]. by eapply returned_part_of_expected.
Qed.

(** X14: with a process id given ([PID] positive), [GetSS] never returns an
    error, be the process absent or unreadable, and every entry it returns
    is of that process. *)
Theorem GetSS_with_pid_returns_that_process_only ft st r e :
  0 < ftPID ft → reachable ft st → main st = MReturned r e →
  e = None ∧ Forall (λ x, PID x = ftPID ft) r.
Proof.
  intros Hpid Hr Hm.
  assert (Hc : candidates ft = inl [ftPID ft]).
  { unfold candidates. destruct (Z.ltb_spec (ftPID ft) 1); [lia|].
    destruct (Z.ltb_spec 0 (ftPID ft)); [|lia].
    by destruct (ftProgramMatchFunc ft). }
  split.
  - destruct e as [err|]; [|done].
    destruct (returned_well_reachable _ _ Hr) as [_ Hret].
    destruct (Hret _ _ Hm) as [-> _]. revert Hm.
    by rw /GetSS_start Hc.
  - apply Forall_forall. intros x Hx.
    destruct (expected_comes_from ft x) as (tp & ents & _ & _ & _ & Hfrom).
    { eapply elem_of_submseteq; [exact Hx|].
      by eapply returned_part_of_expected. }
    destruct Hfrom as [(ps & Hps & Hin)|[Hnil _]]; [|by rw Hc in Hnil].
    rw Hc in Hps. injection Hps as <-.
    by apply list_elem_of_singleton in Hin.
Qed.

(** X15: [GetSS] returns an error only from before its loops, with no entry
    and no goroutine started, and the error is that of [ListPIDs] or, when
    the candidates are to be found by program name, that of [GetUptime];
    the failures inside the goroutines ([GetStat], [getSSEntry]) are never
    returned. *)
Theorem GetSS_error_is_of_the_listing ft st r err :
  reachable ft st → main st = MReturned r (Some err) →
  r = [] ∧ workers st = [] ∧ sss st = [] ∧ ftPID ft < 1
  ∧ (ListPIDs = inr err
     ∨ ∃ ps, ListPIDs = inl ps ∧ GetUptime = inr err
           ∧ (ftProgramMatchFunc ft = None → ps = [])).
Proof.
  intros Hr Hm.
  destruct (returned_well_reachable _ _ Hr) as [_ Hret].
  destruct (Hret _ _ Hm) as [-> ->]. revert Hm.
  unfold GetSS_start, candidates.
  destruct (ftProgramMatchFunc ft) as [f|] eqn:Hf.
  - destruct (Z.ltb_spec 0 (ftPID ft)) as [Hp|Hp]; simpl; [done|].
    destruct ListPIDs as [ps|e1]; [destruct GetUptime as [up|e2]|]; simpl;
      intros [=]; subst; do 3 (split; [done|]); (split; [lia|]); eauto.
    right. exists ps. by repeat split.
  - destruct (Z.ltb_spec (ftPID ft) 1) as [Hp|Hp]; simpl; [|done].
    destruct ListPIDs as [ps|e1]; simpl.
    + destruct (Z.ltb_spec 0 (Z.of_nat (length ps))); simpl; [done|].
      destruct GetUptime as [up|e2]; simpl; [done|].
      intros [=]; subst; do 4 (split; [done|]). right. exists ps.
      repeat split. intros _. destruct ps; [done | simpl in *; lia].
    + intros [=]; subst. do 4 (split; [done|]). by left.
Qed.


(** *** How many entries [GetSS] returns under a cap *)

Lemma worker_step_full ft w l pc l' :
  worker_step ft w l = Some (pc, l') →
  (l' ++ owed ft (mkWorker (wpid w) (wtp w) (wup w) pc) = l ++ owed ft w
   ∧ (length l ≤ length l')%nat)
  ∨ (cap_reached ft l = true ∧ l' = l).
Proof.
  unfold worker_step, owed, name_matches, contrib. simpl.
  destruct (wpc w) as [|ents0| | |ents0|] eqn:Hpc;
    destruct (wup w) as [up|] eqn:Hup; simpl; try done.
  - destruct (GetStat _ _) as [stat|]; [|intros [= <- <-]; by left].
    destruct (ftProgramMatchFunc ft) as [f|]; [|done].
    destruct (f _); intros [= <- <-]; by left.
  - destruct (getSSEntry _ _ _ _); intros [= <- <-]; by left.
  - destruct (cap_reached ft l); intros [= <- <-]; [by right | by left].
  - destruct (cap_reached ft l); intros [= <- <-]; [by right | by left].
  - destruct (cap_reached ft l); intros [= <- <-]; [by right | by left].
  - destruct (cap_reached ft l); intros [= <- <-]; [by right | by left].
  - destruct (getSSEntry _ _ _ _); intros [= <- <-]; by left.
  - destruct (getSSEntry _ _ _ _); intros [= <- <-]; by left.
  - intros [= <- <-]. left. rw app_nil_r length_app. split; [done | lia].
  - intros [= <- <-]. left. rw app_nil_r length_app. split; [done | lia].
Qed.

(** Nothing was dropped so far, or the shared list has reached the cap. *)
Definition all_or_full (ft : EntryFilter) (st : QState) : Prop :=
  outstanding ft st ≡ₚ expected ft ∨ cap_reached ft (sss st) = true.

Lemma cap_reached_mono ft l l' :
  (length l ≤ length l')%nat → cap_reached ft l = true →
  cap_reached ft l' = true.
Proof.
  unfold cap_reached. intros Hle [H1 H2]%andb_true_iff.
  apply andb_true_iff. split; [done|].
  apply Z.leb_le in H2. apply Z.leb_le. lia.
Qed.

Lemma all_or_full_reachable ft st : reachable ft st → all_or_full ft st.
Proof.
  revert st. apply (rtc_ind_r (all_or_full ft)); [by left|].
  intros st1 st2 _ [a Ha] IH. destruct a as [|i]; simpl in Ha.
  - assert (Heq : outstanding ft st2 = outstanding ft st1 ∧ sss st2 = sss st1).
    { unfold outstanding.
      destruct (main st1) as [up [|pid rest]| |] eqn:Hmain; try done.
      + injection Ha as <-. by simpl.
      + injection Ha as <-. simpl. by rw !bind_app -!app_assoc.
      + destruct (wg st1 =? 0); [|done]. injection Ha as <-. by simpl. }
    destruct Heq as [Ho Hs]. unfold all_or_full. by rw Ho Hs.
  - destruct (workers st1 !! i) as [w|] eqn:Hi; [|done].
    destruct (worker_step ft w (sss st1)) as [[pc l']|] eqn:Hws; [|done].
    injection Ha as <-.
    destruct (worker_step_full _ _ _ _ _ Hws) as [[Heq Hle]|[Hfull ->]];
      [|by right].
    destruct IH as [IH|IH]; [|right; by eapply cap_reached_mono].
    left. rw -IH /outstanding /=.
    assert (Hlt : (i < length (workers st1))%nat) by by eapply lookup_lt_Some.
    set (A := take i (workers st1) ≫= owed ft).
    set (B := drop (S i) (workers st1) ≫= owed ft).
    set (T := to_start ft (main st1) ≫= owed ft).
    assert (Hold : workers st1 ≫= owed ft = A ++ owed ft w ++ B).
    { by rw -{1}(take_drop_middle _ _ _ Hi) bind_app bind_cons. }
    assert (Hnew : <[i:=mkWorker (wpid w) (wtp w) (wup w) pc]> (workers st1)
                     ≫= owed ft
                   = A ++ owed ft (mkWorker (wpid w) (wtp w) (wup w) pc) ++ B).
    { by rw insert_take_drop // bind_app bind_cons. }
    rw Hold Hnew.
    trans ((l' ++ owed ft (mkWorker (wpid w) (wtp w) (wup w) pc))
           ++ A ++ B ++ T); [solve_Permutation|].
    rw Heq. solve_Permutation.
Qed.

(** X16: under a cap ([TopLimit] positive), whatever the interleaving, a
    [GetSS] that returns without error returns as many entries as the cap
    allows: the cap itself when the calls of [getSSEntry] give at least that
    many entries, and all of them otherwise.  A goroutine that gives up at a
    cap check never makes the result shorter than that. *)
Theorem GetSS_result_fills_the_cap ft st r :
  0 < ftTopLimit ft → reachable ft st → main st = MReturned r None →
  Z.of_nat (length r) = Z.min (ftTopLimit ft) (Z.of_nat (length (expected ft))).
Proof.
  intros Hcap Hr Hm.
  destruct (returned_well_reachable _ _ Hr) as [_ Hret].
  destruct (Hret r None Hm) as [-> Hz].
  destruct (outstanding_reachable _ _ Hr) as [Hsub _].
  assert (Hout : outstanding ft st = sss st).
  { by rw /outstanding Hm /= (unreturned_owed _ _ Hz) !app_nil_r. }
  rw Hout in Hsub. apply submseteq_length in Hsub.
  assert (Hlen : Z.of_nat (length (truncate ft (sss st)))
                 = Z.min (ftTopLimit ft) (Z.of_nat (length (sss st)))).
  { unfold truncate. destruct (Z.ltb_spec 0 (ftTopLimit ft)); [|lia]. simpl.
    destruct (Z.ltb_spec (ftTopLimit ft) (Z.of_nat (length (sss st))));
      [rw length_take|]; lia. }
  rw Hlen. destruct (all_or_full_reachable _ _ Hr) as [Hall|Hfull].
  - rw Hout in Hall. by rw Hall.
  - revert Hfull. rw /cap_reached. intros [_ H2%Z.leb_le]%andb_true_iff. lia.
Qed.

(** *** After [GetSS] has returned *)

(** X17: [GetSS] leaves no goroutine behind and the wait group never goes
    negative: when [GetSS] has returned every goroutine it started has
    returned, and no step is possible any more, so nothing is appended to the
    shared list after the return. *)
Theorem GetSS_leaves_no_goroutine ft st :
  reachable ft st →
  0 ≤ wg st
  ∧ ∀ r e, main st = MReturned r e →
      Forall (λ w, wpc w = WReturned) (workers st)
      ∧ ∀ a, step_fn ft a st = None.
Proof.
  intros Hr. destruct (returned_well_reachable _ _ Hr) as [Hwg Hret].
  split; [lia|]. intros r e Hm. specialize (Hret r e Hm).
  assert (Hz : unreturned (workers st) = 0%nat).
  { destruct e as [err|]; [|by destruct Hret].
    destruct Hret as [-> _]. unfold GetSS_start.
    by destruct (candidates ft) as [pids|];
      [destruct (0 <? _); [|destruct ListPIDs; [destruct GetUptime|]]|]. }
  assert (Hall : Forall (λ w, wpc w = WReturned) (workers st)).
  { apply Forall_forall. intros w [i Hi]%list_elem_of_lookup.
    pose proof (pending_le_unreturned _ _ _ Hi) as Hle.
    rw Hz /pending in Hle. destruct (wpc w); simpl in Hle; try lia. done. }
  split; [done|]. intros [|i]; simpl; [by rw Hm|].
  destruct (workers st !! i) as [w|] eqn:Hi; [|done].
  assert (Hw : wpc w = WReturned).
  { apply (proj1 (Forall_forall _ _) Hall). by eapply list_elem_of_lookup_2. }
  by rw /worker_step Hw.
Qed.

End Query.

(** ** [ConvertSS] and [StringSS]

    The rows of a table of socket entries and the table printed.  The sort of
    the rows and the table writer are functions of other packages and are
    parameters here. *)

(** A Go slice: its elements, and the elements of its backing array past
    its length, up to its capacity. *)
Record slice (A : Type) := mkSlice { elems : list A; spare : list A }.
Arguments mkSlice {A} _ _.
Arguments elems {A} _.
Arguments spare {A} _.

Definition backing {A} (s : slice A) : list A := elems s ++ spare s.

Definition cap {A} (s : slice A) : nat := length (backing s).

(** [make([]T, n)] filled in, and a slice literal: no spare capacity. *)
Definition full {A} (l : list A) : slice A := mkSlice l [].

(** [s[:high:max]]; it panics ([None]) unless [high <= max <= cap(s)]. *)
Definition slice3 {A} (high max : nat) (s : slice A) : option (slice A) :=
  if decide (high ≤ max ≤ cap s)%nat
  then Some (mkSlice (take high (backing s)) (drop high (take max (backing s))))
  else None.

Section Table.

Context {User : Type}.

(** [elem.User.Username]. *)
Variable Username : User → string.

(** [dataframe.SortBy(rows, ...).Sort(rows)], lines 511-518. *)
Variable Sort : list (list string) → list (list string).

(** The table writer: what [Render] writes for the header and the rows it
    was given. *)
Variable Render : list string → list (list string) → string.

Definition columnsSSToShow : nat := 9.

Definition columnsSSEntry : list string :=
  ["PROTOCOL"; "PROGRAM"; "STATE"; "PID"; "LOCAL-IP"; "LOCAL-PORT";
   "REMOTE-IP"; "REMOTE-PORT"; "USER"]%string.

(** The row of lines 497-509; [fmt.Sprintf("%d", _)] is the decimal
    numeral. *)
Definition rowSS (elem : SSEntry (User := User)) : list string :=
  [Protocol elem; Program elem; State elem; pretty (PID elem);
   LocalIP elem; pretty (LocalPort elem);
   RemoteIP elem; pretty (RemotePort elem);
   Username (User_ elem)].

(** [ConvertSS], lines 492-523: the header and the sorted rows. *)
Definition ConvertSS (nss : list (SSEntry (User := User)))
    : slice string * slice (slice string) :=
  (full columnsSSEntry, full (full <$> Sort (rowSS <$> nss))).

(** The rows that [StringSS] prints, lines 531-533. *)
Definition limited (rows : slice (slice string)) (topLimit : Z)
    : option (slice (slice string)) :=
  if (0 <? topLimit) && (topLimit <? Z.of_nat (length (elems rows)))
  then slice3 (Z.to_nat topLimit) (Z.to_nat topLimit) rows
  else Some rows.

(** [StringSS], lines 526-541; [None] when a slice expression panics. *)
Definition StringSS (header : slice string) (rows : slice (slice string))
    (topLimit : Z) : option string :=
  h ← slice3 columnsSSToShow columnsSSToShow header;
  rows' ← limited rows topLimit;
  shown ← mapM (slice3 columnsSSToShow columnsSSToShow) (elems rows');
  Some (Render (elems h) (elems <$> shown)).

(** The rows within the limit. *)
Definition within_limit {A} (l : list A) (topLimit : Z) : list A :=
  if 0 <? topLimit then take (Z.to_nat topLimit) l else l.

Lemma limited_elems rows topLimit :
  ∃ rows', limited rows topLimit = Some rows'
           ∧ elems rows' = within_limit (elems rows) topLimit.
Proof.
  unfold limited, within_limit.
  destruct (Z.ltb_spec 0 topLimit) as [Hpos|Hpos]; simpl; [|by eexists].
  destruct (Z.ltb_spec topLimit (Z.of_nat (length (elems rows)))) as [Hlt|Hge].
  - unfold slice3, cap, backing. rw decide_True; [|rw length_app; lia].
    eexists. split; [done|]. simpl. rw take_app_le //. lia.
  - exists rows. split; [done|]. rw take_ge //. lia.
Qed.

Lemma slice3_is_Some {A} n (s : slice A) :
  is_Some (slice3 n n s) ↔ (n ≤ cap s)%nat.
Proof.
  unfold slice3. case_decide as H; split; intros Hs; try done.
  - lia.
  - exfalso. apply H. lia.
Qed.

Lemma slice3_elems {A} n (s s' : slice A) :
  slice3 n n s = Some s' → elems s' = take n (backing s).
Proof. unfold slice3. case_decide; [|done]. by intros [= <-]. Qed.

(** X18: [StringSS] panics exactly when the header, or one of the rows
    within the limit, has a capacity below nine; the rows past the limit are
    never looked at.  Otherwise it prints the first nine elements of the
    backing array of the header and of each row within the limit, in order,
    be the row itself shorter. *)
Theorem StringSS_panics_on_short_rows header rows topLimit :
  (is_Some (StringSS header rows topLimit)
   ↔ (9 ≤ cap header)%nat
     ∧ Forall (λ row, (9 ≤ cap row)%nat) (within_limit (elems rows) topLimit))
  ∧ (∀ out, StringSS header rows topLimit = Some out →
       out = Render (take 9 (backing header))
                    ((λ row, take 9 (backing row))
                       <$> within_limit (elems rows) topLimit)).
Proof.
  destruct (limited_elems rows topLimit) as (rows' & Hl & He).
  assert (Heq : StringSS header rows topLimit
                = h ← slice3 9 9 header;
                  shown ← mapM (slice3 9 9)
                               (within_limit (elems rows) topLimit);
                  Some (Render (elems h) (elems <$> shown))).
  { unfold StringSS, columnsSSToShow.
    destruct (slice3 9 9 header); simpl; [|done]. by rw Hl /= He. }
  rw Heq. clear Heq Hl He rows'. split.
  - split.
    + intros [out Hout].
      destruct (slice3 9 9 header) as [h|] eqn:Hh; [|done]. simpl in Hout.
      destruct (mapM _ _) as [shown|] eqn:Hm; [|done].
      split; [apply slice3_is_Some; by rw Hh|].
      assert (Hs : is_Some (mapM (slice3 9 9)
                              (within_limit (elems rows) topLimit)))
        by by rw Hm.
      apply mapM_is_Some in Hs. eapply Forall_impl; [exact Hs|].
      intros row Hrow. by apply slice3_is_Some.
    + intros [Hh Hrows]. apply slice3_is_Some in Hh as [h ->]. simpl.
      assert (Hs : is_Some (mapM (slice3 9 9)
                              (within_limit (elems rows) topLimit))).
      { apply mapM_is_Some. eapply Forall_impl; [exact Hrows|].
        intros row Hrow. by apply slice3_is_Some. }
      destruct Hs as [shown ->]. by eexists.
  - intros out.
    destruct (slice3 9 9 header) as [h|] eqn:Hh; [|done]. simpl.
    destruct (mapM _ _) as [shown|] eqn:Hm; [|done]. simpl.
    intros [= <-]. rw (slice3_elems _ _ _ Hh). f_equal.
    apply mapM_Some in Hm. clear Hh.
    induction Hm as [|row s l k Hrow _ IH]; [done|].
    by rw !fmap_cons IH (slice3_elems _ _ _ Hrow).
Qed.

Lemma slice3_full {A} (l : list A) :
  length l = 9%nat → slice3 9 9 (full l) = Some (full l).
Proof.
  intros Hl. unfold slice3, cap, backing, full. simpl. rw app_nil_r.
  rw decide_True; [|lia]. by rw take_ge ?drop_ge; try lia.
Qed.

Lemma mapM_slice3_full {A} (l : list (list A)) :
  Forall (λ row, length row = 9%nat) l →
  mapM (slice3 9 9) (full <$> l) = Some (full <$> l).
Proof.
  induction 1 as [|row l Hrow _ IH]; [done|].
  by rw !fmap_cons /= (slice3_full _ Hrow) /= IH.
Qed.

(** On slices without spare capacity and of nine columns, [StringSS] prints
    the header and the rows within the limit. *)
Lemma StringSS_full header rows topLimit :
  length header = 9%nat → Forall (λ row, length row = 9%nat) rows →
  StringSS (full header) (full (full <$> rows)) topLimit
  = Some (Render header (within_limit rows topLimit)).
Proof.
  intros Hh Hrows. unfold StringSS, columnsSSToShow.
  rw (slice3_full _ Hh) /=.
  destruct (limited_elems (full (full <$> rows)) topLimit) as (rows' & Hl & He).
  rw Hl /= He /=.
  assert (Hw : within_limit (full <$> rows) topLimit
               = full <$> within_limit rows topLimit).
  { unfold within_limit. destruct (0 <? topLimit); [by rw fmap_take | done]. }
  rw Hw mapM_slice3_full;
    [|unfold within_limit; destruct (0 <? topLimit);
      [by apply Forall_take | done]].
  simpl. rw -list_fmap_compose.
  assert (Hid : ∀ l : list (list string), elems ∘ full <$> l = l).
  { induction l as [|row l IH]; [done|]. by rw fmap_cons IH. }
  by rw Hid.
Qed.

(** X19: [StringSS] does not panic on what [ConvertSS] returns, provided
    the sort only reorders the rows.  [ConvertSS] then returns the
    nine-column header and one row of nine columns for each entry, and
    [StringSS] prints that header and the sorted rows whole, all of them
    when the limit is not positive and the first [topLimit] otherwise. *)
Theorem StringSS_prints_what_ConvertSS_returns nss topLimit :
  (∀ l, Sort l ≡ₚ l) →
  StringSS (ConvertSS nss).1 (ConvertSS nss).2 topLimit
  = Some (Render columnsSSEntry
                 (within_limit (Sort (rowSS <$> nss)) topLimit))
  ∧ length (elems (ConvertSS nss).2) = length nss
  ∧ Forall (λ row, length (elems row) = 9%nat ∧ spare row = []
                   ∧ ∃ elem, elem ∈ nss ∧ elems row = rowSS elem)
           (elems (ConvertSS nss).2)
  ∧ Z.of_nat (length (within_limit (Sort (rowSS <$> nss)) topLimit))
    = if 0 <? topLimit then Z.min topLimit (Z.of_nat (length nss))
      else Z.of_nat (length nss).
Proof.
  intros Hsort.
  assert (Hlen : length (Sort (rowSS <$> nss)) = length nss).
  { by rw Hsort length_fmap. }
  assert (Hrows : Forall (λ row, length row = 9%nat
                          ∧ ∃ elem, elem ∈ nss ∧ row = rowSS elem)
                         (Sort (rowSS <$> nss))).
  { rw Hsort. apply Forall_fmap, Forall_forall. intros elem Hin.
    split; [done | by exists elem]. }
  split; [|split; [|split]].
  - apply StringSS_full; [done|]. eapply Forall_impl; [exact Hrows|].
    by intros row [? _].
  - by rw /= length_fmap.
  - simpl. apply Forall_fmap. eapply Forall_impl; [exact Hrows|].
    intros row (H9 & elem & Hin & ->). simpl. eauto.
  - unfold within_limit. destruct (Z.ltb_spec 0 topLimit); [|lia].
    rw length_take. lia.
Qed.

End Table.
End SS.

(** ** A sample host for the socket query *)

Module SSSample.
Import SS.

(** Five processes named sshd, each with one IPv4 socket on local port 22
    and, for process 1, one more on port 80. *)
Definition sample_sockets (pid : Z) (tp : TransportProtocol)
    : list NetTCP + error :=
  match tp with
  | TypeTCP =>
      inl (mkNetTCP "tcp" 0 "LISTEN" "0.0.0.0" 22 "0.0.0.0" 0
           :: if pid =? 1
              then [mkNetTCP "tcp" 0 "ESTABLISHED" "10.0.0.1" 80 "10.0.0.2" 4000]
              else [])
  | TypeTCP6 => inl []
  end.

Abbreviation sample_getSSEntry :=
  (getSSEntry (User := string) sample_sockets
              (λ _, inl "sshd"%string) (λ _, inl "root"%string)).

Abbreviation sample_run :=
  (run (User := string) (Uptime := Z) (Stat := string) id
       (λ _ _, inl "sshd"%string)
       sample_sockets (λ _, inl "sshd"%string) (λ _, inl "root"%string)).

Abbreviation sample_reachable :=
  (reachable (User := string) (Uptime := Z) (Stat := string) id
       (inl [1; 2; 3; 4; 5]) (inl 100) (λ _ _, inl "sshd"%string)
       sample_sockets (λ _, inl "sshd"%string) (λ _, inl "root"%string)).

Abbreviation sample_start :=
  (GetSS_start (User := string) (Uptime := Z) (inl [1; 2; 3; 4; 5]) (inl 100)).

(** The local ports of the entries that [getSSEntry] returned. *)
Definition local_ports (r : list (SSEntry (User := string)) + error) : list Z :=
  match r with inl l => map LocalPort l | inr _ => [] end.

(** A port filter keeps the sockets on that port only. *)
Example getSSEntry_filters :
  local_ports (sample_getSSEntry 1 TypeTCP 0 0) = [22; 80]
  ∧ local_ports (sample_getSSEntry 1 TypeTCP 22 0) = [22]
  ∧ local_ports (sample_getSSEntry 1 TypeTCP 80 0) = [80]
  ∧ local_ports (sample_getSSEntry 1 TypeTCP 0 4000) = [80]
  ∧ local_ports (sample_getSSEntry 1 TypeTCP 22 4000) = [].
Proof. by vm_compute. Qed.

(** Processes named sshd, local port 22, at most two entries, IPv4 only. *)
Definition ft_sshd : EntryFilter :=
  mkEntryFilter (Some (String.eqb "sshd")) 0 2 22 0 true false.

(** Every goroutine passes the cap check before any of them appends. *)
Definition racy_schedule : list label :=
  [Main; Main; Main; Main; Main; Main]
  ++ [Work 0; Work 0; Work 1; Work 1; Work 2; Work 2; Work 3; Work 3;
      Work 4; Work 4]%nat
  ++ [Work 0; Work 0; Work 1; Work 1; Work 2; Work 2; Work 3; Work 3;
      Work 4; Work 4]%nat.

Definition before_return : QState (User := string) (Uptime := Z) :=
  default (sample_start ft_sshd) (sample_run ft_sshd racy_schedule (sample_start ft_sshd)).

Definition after_return : QState (User := string) (Uptime := Z) :=
  default (sample_start ft_sshd)
          (sample_run ft_sshd (racy_schedule ++ [Main]) (sample_start ft_sshd)).

(** The shared list exceeds the cap before the truncation. *)
Example racy_overshoot :
  length (sss before_return) = 5%nat ∧ wg before_return = 0
  ∧ ∃ r, main after_return = MReturned r None ∧ length r = 2%nat.
Proof. split; [by vm_compute|]. split; [by vm_compute|]. eexists. by vm_compute. Qed.

Definition returned_of (st : QState (User := string) (Uptime := Z))
    : list (SSEntry (User := string)) :=
  match main st with MReturned r _ => r | _ => [] end.

Lemma after_return_reachable : sample_reachable ft_sshd after_return.
Proof.
  apply (run_rtc _ _ _ _ _ _ (racy_schedule ++ [Main])). by vm_compute.
Defined.

Lemma after_return_main :
  main after_return = MReturned (returned_of after_return) None.
Proof. by vm_compute. Defined.

Lemma GetSS_result_within_cap_witness :
  0 < ftTopLimit ft_sshd
  ∧ sample_reachable ft_sshd after_return
  ∧ main after_return = MReturned (returned_of after_return) None
  ∧ Z.of_nat (length (returned_of after_return)) ≤ 2.
Proof.
  assert (Hpos : 0 < ftTopLimit ft_sshd) by done.
  split; [exact Hpos|]. split; [exact after_return_reachable|].
  split; [exact after_return_main|].
  destruct (GetSS_result_within_cap _ _ _ _ _ _ _ ft_sshd after_return Hpos
              after_return_reachable) as [H1 _].
  exact (H1 _ _ after_return_main).
Defined.

Lemma GetSS_entries_match_port_filters_witness :
  sample_reachable ft_sshd after_return
  ∧ main after_return = MReturned (returned_of after_return) None
  ∧ Forall (λ x, LocalPort x = 22) (returned_of after_return).
Proof.
  split; [exact after_return_reachable|]. split; [exact after_return_main|].
  destruct (GetSS_entries_match_port_filters _ _ _ _ _ _ _ ft_sshd after_return
              _ _ after_return_reachable after_return_main) as (_ & H2 & _).
  eapply Forall_impl; [exact H2|]. intros x [Hl _]. by apply Hl.
Defined.

(** The process 7, with neither protocol family. *)
Definition ft_none : EntryFilter := mkEntryFilter None 7 0 0 0 false false.

Definition at_wait : QState (User := string) (Uptime := Z) :=
  default (sample_start ft_none)
          (sample_run ft_none [Main; Main] (sample_start ft_none)).

Lemma GetSS_without_protocol_never_returns_witness :
  sample_reachable ft_none at_wait
  ∧ main at_wait = MWait
  ∧ workers at_wait = []
  ∧ wg at_wait = 1
  ∧ step_fn id (λ _ _, inl "sshd"%string) sample_sockets
            (λ _, inl "sshd"%string) (λ _, inl "root"%string) ft_none
            Main at_wait = None.
Proof.
  assert (Hr : sample_reachable ft_none at_wait).
  { apply (run_rtc _ _ _ _ _ _ [Main; Main]). by vm_compute. }
  assert (Hm : main at_wait = MWait) by by vm_compute.
  assert (Hne : [7] ≠ ([] : list Z)) by done.
  destruct (GetSS_without_protocol_never_returns _ _ _ _ _ _ _ ft_none [7]
              at_wait eq_refl eq_refl eq_refl Hne Hr)
    as (H1 & H2 & _ & _ & H5 & _).
  split; [exact Hr|]. split; [exact Hm|]. split; [exact H1|].
  split; [exact H2|]. exact (H5 Hm Main).
Defined.

(** *** The further properties at the sample instance *)

Abbreviation sample_expected :=
  (expected (User := string) (Uptime := Z) (Stat := string) id
       (inl [1; 2; 3; 4; 5]) (inl 100) (λ _ _, inl "sshd"%string)
       sample_sockets (λ _, inl "sshd"%string) (λ _, inl "root"%string)).

Lemma GetSS_result_is_part_of_the_yield_witness :
  sample_reachable ft_sshd after_return
  ∧ main after_return = MReturned (returned_of after_return) None
  ∧ returned_of after_return ⊆+ sample_expected ft_sshd.
Proof.
  split; [exact after_return_reachable|]. split; [exact after_return_main|].
  destruct (GetSS_result_is_part_of_the_yield _ _ _ _ _ _ _ ft_sshd
              after_return after_return_reachable) as [_ H2].
  exact (H2 _ _ after_return_main).
Defined.

Lemma GetSS_entries_come_from_candidates_witness :
  sample_reachable ft_sshd after_return
  ∧ main after_return = MReturned (returned_of after_return) None
  ∧ Forall (λ x, PID x ∈ [1; 2; 3; 4; 5]) (returned_of after_return).
Proof.
  split; [exact after_return_reachable|]. split; [exact after_return_main|].
  eapply Forall_impl;
    [exact (GetSS_entries_come_from_candidates _ _ _ _ _ _ _ ft_sshd
              after_return _ _ after_return_reachable after_return_main)|].
  intros x (tp & ents & _ & _ & _ & [(ps & Hps & Hin)|(_ & Hby)]).
  - assert (Hc : candidates (inl [1; 2; 3; 4; 5]) ft_sshd = inl [])
      by by vm_compute.
    rw Hc in Hps. injection Hps as <-. by apply elem_of_nil in Hin.
  - destruct Hby as (ps & up & stat & f & [= <-] & Hin & _). exact Hin.
Defined.

(** The process 1, both protocol families, no cap. *)
Definition ft_pid1 : EntryFilter := mkEntryFilter None 1 0 0 0 true true.

Definition pid1_schedule : list label :=
  [Main; Main; Work 0; Work 1; Work 0; Work 1; Work 1; Work 0; Main]%nat.

Definition pid1_returned : QState (User := string) (Uptime := Z) :=
  default (sample_start ft_pid1)
          (sample_run ft_pid1 pid1_schedule (sample_start ft_pid1)).

Lemma pid1_returned_reachable : sample_reachable ft_pid1 pid1_returned.
Proof. apply (run_rtc _ _ _ _ _ _ pid1_schedule). by vm_compute. Defined.

Lemma pid1_returned_main :
  main pid1_returned = MReturned (returned_of pid1_returned) None.
Proof. by vm_compute. Defined.

Lemma GetSS_without_cap_returns_every_entry_witness :
  ftTopLimit ft_pid1 ≤ 0
  ∧ sample_reachable ft_pid1 pid1_returned
  ∧ main pid1_returned = MReturned (returned_of pid1_returned) None
  ∧ returned_of pid1_returned ≡ₚ sample_expected ft_pid1
  ∧ length (returned_of pid1_returned) = 2%nat.
Proof.
  assert (Hcap : ftTopLimit ft_pid1 ≤ 0) by done.
  split; [exact Hcap|]. split; [exact pid1_returned_reachable|].
  split; [exact pid1_returned_main|].
  destruct (GetSS_without_cap_returns_every_entry _ _ _ _ _ _ _ ft_pid1
              pid1_returned _ Hcap pid1_returned_reachable pid1_returned_main)
    as [H1 _].
  split; [exact H1 | by vm_compute].
Defined.

Lemma GetSS_with_pid_returns_that_process_only_witness :
  0 < ftPID ft_pid1
  ∧ sample_reachable ft_pid1 pid1_returned
  ∧ main pid1_returned = MReturned (returned_of pid1_returned) None
  ∧ Forall (λ x, PID x = 1) (returned_of pid1_returned).
Proof.
  assert (Hpid : 0 < ftPID ft_pid1) by done.
  split; [exact Hpid|]. split; [exact pid1_returned_reachable|].
  split; [exact pid1_returned_main|].
  exact (proj2 (GetSS_with_pid_returns_that_process_only _ _ _ _ _ _ _ ft_pid1
                  pid1_returned _ _ Hpid pid1_returned_reachable
                  pid1_returned_main)).
Defined.

(** Every process, with a listing of /proc that fails. *)
Definition ft_all : EntryFilter := mkEntryFilter None 0 0 0 0 true true.

Definition failed_listing : QState (User := string) (Uptime := Z) :=
  GetSS_start (inr "open /proc: permission denied"%string) (inl 100) ft_all.

Lemma GetSS_error_is_of_the_listing_witness :
  reachable (User := string) (Uptime := Z) (Stat := string) id
      (inr "open /proc: permission denied"%string) (inl 100)
      (λ _ _, inl "sshd"%string) sample_sockets (λ _, inl "sshd"%string)
      (λ _, inl "root"%string) ft_all failed_listing
  ∧ main failed_listing
    = MReturned [] (Some "open /proc: permission denied"%string)
  ∧ workers failed_listing = [] ∧ sss failed_listing = [].
Proof.
  assert (Hr : reachable (User := string) (Uptime := Z) (Stat := string) id
      (inr "open /proc: permission denied"%string) (inl 100)
      (λ _ _, inl "sshd"%string) sample_sockets (λ _, inl "sshd"%string)
      (λ _, inl "root"%string) ft_all failed_listing) by apply rtc_refl.
  assert (Hm : main failed_listing
    = MReturned [] (Some "open /proc: permission denied"%string))
    by by vm_compute.
  split; [exact Hr|]. split; [exact Hm|].
  destruct (GetSS_error_is_of_the_listing _ _ _ _ _ _ _ ft_all failed_listing
              _ _ Hr Hm) as (_ & H2 & H3 & _).
  split; [exact H2 | exact H3].
Defined.

Lemma GetSS_result_fills_the_cap_witness :
  0 < ftTopLimit ft_sshd
  ∧ sample_reachable ft_sshd after_return
  ∧ main after_return = MReturned (returned_of after_return) None
  ∧ length (sample_expected ft_sshd) = 5%nat
  ∧ Z.of_nat (length (returned_of after_return)) = 2.
Proof.
  assert (Hpos : 0 < ftTopLimit ft_sshd) by done.
  assert (He : length (sample_expected ft_sshd) = 5%nat) by by vm_compute.
  split; [exact Hpos|]. split; [exact after_return_reachable|].
  split; [exact after_return_main|]. split; [exact He|].
  etrans;
    [exact (GetSS_result_fills_the_cap _ _ _ _ _ _ _ ft_sshd after_return _
              Hpos after_return_reachable after_return_main)|].
  by rw He.
Defined.

Lemma GetSS_leaves_no_goroutine_witness :
  sample_reachable ft_sshd after_return
  ∧ main after_return = MReturned (returned_of after_return) None
  ∧ Forall (λ w, wpc w = WReturned) (workers after_return)
  ∧ length (workers after_return) = 5%nat.
Proof.
  split; [exact after_return_reachable|]. split; [exact after_return_main|].
  destruct (GetSS_leaves_no_goroutine _ _ _ _ _ _ _ ft_sshd after_return
              after_return_reachable) as [_ H2].
  split; [exact (proj1 (H2 _ _ after_return_main)) | by vm_compute].
Defined.

(** *** A table of the sample *)

(** Rows in the order of their program names, by merge sort. *)
Definition by_program (r1 r2 : list string) : Prop :=
  String.leb (r1 !!! 1%nat) (r2 !!! 1%nat) = true.

#[local] Instance by_program_dec : RelDecision by_program.
Proof. intros r1 r2. unfold by_program. apply _. Defined.

Definition sample_sort : list (list string) → list (list string) :=
  merge_sort by_program.

(** Columns separated by blanks, one line for the header and for each
    row. *)
Definition sample_render (header : list string) (rows : list (list string))
    : string :=
  String.concat (String (ascii_of_nat 10) EmptyString)
    (String.concat " " <$> header :: rows).

Lemma StringSS_prints_what_ConvertSS_returns_witness :
  (∀ l, sample_sort l ≡ₚ l)
  ∧ ∃ out, StringSS sample_render
             (ConvertSS id sample_sort (returned_of pid1_returned)).1
             (ConvertSS id sample_sort (returned_of pid1_returned)).2 1
           = Some out.
Proof.
  assert (Hsort : ∀ l, sample_sort l ≡ₚ l).
  { intros l. apply merge_sort_Permutation. }
  split; [exact Hsort|]. eexists.
  exact (proj1 (StringSS_prints_what_ConvertSS_returns id sample_sort
                  sample_render (returned_of pid1_returned) 1 Hsort)).
Defined.

(** The first row of the sample, printed under its header. *)
Example sample_table :
  StringSS sample_render
    (ConvertSS id sample_sort (returned_of pid1_returned)).1
    (ConvertSS id sample_sort (returned_of pid1_returned)).2 1
  = Some ("PROTOCOL PROGRAM STATE PID LOCAL-IP LOCAL-PORT REMOTE-IP REMOTE-PORT USER"
          +:+ String (ascii_of_nat 10) EmptyString
          +:+ "tcp sshd LISTEN 1 0.0.0.0 22 0.0.0.0 0 root")%string.
Proof. by vm_compute. Qed.

(** A row of three columns makes [StringSS] panic when it is within the
    limit, and is not looked at when it is past it. *)
Example short_row_panics :
  let header := full columnsSSEntry in
  let good := full (replicate 9 "x"%string) in
  let short := full ["tcp"; "sshd"; "LISTEN"]%string in
  StringSS sample_render header (full [good; short]) 0 = None
  ∧ is_Some (StringSS sample_render header (full [good; short]) 1).
Proof. split; [by vm_compute | eexists; by vm_compute]. Qed.

End SSSample.
